(* ===== verification/_CoqProject ===== *)
-Q . S2P
Prelude.v
JsString.v
Syntax.v
ConditionParser.v
Whitespace.v
Scanner.v
Builder.v
BuilderHeap.v
JsValue.v
Helpers.v
Sentence.v
Condition.v
Render.v
Compile.v
