(* ===== verification/Prelude.v ===== *)
(** * Tangular: a verification development for [src/lib/tangular.ts]

    Tangular is a text-template engine.  [compile] scans a template for
    [{{ ... }}] regions, builds a tree of blocs (literal text, output
    expressions, [if]/[else if]/[else] chains, [foreach]/[for] loops,
    [break]/[continue] markers) and returns a render function that walks
    the tree against a payload.  This library is a shallow embedding of the
    class [Tangular] of [src/lib/tangular.ts]: every method is a Rocq
    function with the method's name, written the way the method is written,
    and the theorems are about those functions.

    ** The program's parts and the files that model them

    - [Prelude] (this file): strings as lists of code units, the error
      type of thrown exceptions ([result]), its monad, the shared tactics
      and hint databases.
    - [JsString]: the primitives of [String.prototype] the class calls
      ([substring], [indexOf], [split], [join], [startsWith], [trim],
      [replace] of a character class) and the character class [\s] of its
      regular expressions.
    - [Syntax]: the enums [TangularOperator] and [TangularPrivateKey] and the
      interfaces [TangularInstruction], [TangularCondition], [TangularBloc],
      [TangularProcessBloc], [TangularNestedBlocs] (lines 1-61).  A value of
      the TypeScript union [TangularCondition | TangularInstruction | string]
      (or [undefined]) is a [node].
    - [ConditionParser]: [_processConditionBuild] (lines 107-192), the
      one-pass parser of [if] headers, with its local state (the word under
      construction, the open instruction, the open condition) as a record
      and its [for] loop as a function on the loop index, and
      [_processForeachBuild] (lines 94-105).
    - [Whitespace]: [_trim] (lines 86-88) and [_unspace] (lines 90-92), and
      the removal of blank lines of line 631.  Each is a [replace] with a
      global regular expression; the model is the one-pass function that
      computes the matches of that expression ([collapse] for the pairs of
      white-space characters of [_trim], [strip_blank_lines] for
      [/^\s*[\r\n]/gm]).
    - [Scanner]: the iterator of [template.matchAll] of line 625 as the
      list [scan] of its matches: the lookahead is [opens], the lookbehind
      [closed] on the text read so far, the lazy group [lazy_end], and
      [scan_from] resumes the search after a match (one character further
      when the match is empty).
    - [Builder]: [_processBuildPrivateKey] (lines 194-352).  The code
      changes a bloc after it has stored it and stores one bloc twice, so
      the blocs are built as objects in a heap, found by their reference;
      the locals of a call are the record [state], the body of the [while]
      loop is [on_element] (the text before the element is pushed by
      [advance], then [on_sentence] dispatches on the sentence, over the
      next turns of the loop and the nested call), the loop is
      [build_loop], and [reify] reads the finished tree out of the heap,
      the reference of an object becoming the [ref] of its bloc.
    - [BuilderHeap]: no code of its own.  It holds the invariant of the
      heap of the builder: [closed h0 h] says that a call that was given
      the objects [h0] has left them as they were and that the objects it
      has added form trees of new objects, [wf] adds what holds of the
      locals of the call, and every step of [Builder] and every call keep
      them.
    - [JsValue]: the values a payload holds ([value]) and the operators of
      the language that the evaluator applies to them: [ToBoolean],
      [ToString], property access, [==], [===], [<], [<=], the keys that
      [for (n in v)] visits, the object spread.  What the embedder supplies
      (calling a function of the payload, numbers to and from strings, the
      identity of two objects) is the class [Host]; every theorem of the
      evaluator holds for every [Host].
    - [Helpers]: the field [_helpers], the constructor with its helpers
      [raw] and [encode] (lines 67-84), and [register] (lines 643-646).  A
      helper is a function from the list of its arguments to a [result];
      the registry is a finite map ([gmap]) from names to helpers.
    - [Sentence]: [_processSentence] (lines 354-389): the fold of [stage]
      (the callback of [keys.reduce]) over the pieces of the sentence
      between [|], with the inner reduce over a dotted path as
      [deep_object].
    - [Condition]: [_processInstruction] (lines 391-472) and
      [_processCondition] (lines 474-495).  Line 489 removes the first value
      of a condition without operator ([values.shift()]): the function
      returns, with its result, the condition as the call leaves it.
    - [Render]: [_processBloc] (lines 534-622) and [_processEach] (lines
      497-532).  The blocs of a compiled template outlive a render, so a
      walk runs in a [store] that holds, by the identity [ref] of a bloc,
      the instruction the bloc has now; [walk A] is the state and
      exception monad over the store.  [reducer] is the callback of
      [blocs.reduce] with the local object [process] beside the
      accumulator, [each_loop] the [for ... in] loop.
    - [Compile]: [compile] (lines 624-633), [render] (lines 635-637) and
      [renderAsync] (lines 639-641).  The function that [compile] returns
      is the value [compiled], the blocs with the store of the conditions
      that its calls have changed; [invoke] is one call of it.

    ** Conventions

    - A JavaScript string is a [jsstring], a list of 8-bit code units
      ([ascii]); [str "abc"] writes one.  Templates and payload strings are
      therefore restricted to the Latin-1 range: the white-space and line
      terminator characters above U+00FF that [\s] and [.] distinguish are
      outside the model.
    - A thrown exception is a value [Throw e] of [result]; code that can
      throw returns a [result] and is sequenced with the monad notation
      [x ← m; k].
    - A loop whose termination is not structural takes a [fuel] argument and
      returns [None] when it runs out.  The parser needs it (its loop
      variable is assigned from the result of the recursive call): a turn
      passes the fuel that is left both to the recursive call and to the
      turn after it, so that the fuel bounds the length of a chain of
      turns and calls, not their total number, and [length conditions + 1]
      is enough, proved for every header that does not end in an opening
      parenthesis.  The builder needs it
      (its nested calls share one iterator): the fuel that is enough is
      the number of elements of the iterator plus one, proved for every
      template whose headers the parser returns on.  A theorem that says
      that a call does not return is stated for every fuel.  The evaluator
      is structurally recursive on the tree of blocs and on the tree of a
      condition; [reify] is bounded by the number of objects of the heap,
      which is enough for every heap that the builder leaves
      ([reify_all_closed] in [BuilderHeap]).
    - A written template is a list of [segment]s, each a text and the
      expression of the directive that follows it, and a trailing text;
      [print] is its text.  The theorems that hold for every template of
      a shape are stated on written templates; the theorems on one
      template compute its blocs and hold for every payload.
    - Array indices and string positions that the code never makes negative
      are [nat]; arguments of [substring], which the code does make
      negative, are [Z].
    - Numbers are IEEE 754 doubles ([PrimFloat.float]).
    - A property is looked up among the own properties of a value:
      inherited properties ([toString], [constructor] and the like, on a
      payload or on the object [_helpers]) are outside the model, as are
      symbols, getters, sparse arrays and functions of the host that do not
      return or that change the payload.

    ** What the theorems show

    - [Whitespace]: [_trim] removes the white space around a word and
      keeps one space between two words, but leaves two spaces of a run of
      odd length; the removal of blank lines leaves exactly the texts
      without a line of white space as they are, and removes the line feed
      of a CRLF line ending.
    - [Scanner]: every element of the iterator is a part of the template
      at its index, opens a directive and ends after two closing braces;
      the elements are ordered and do not overlap; the scan of a written
      template returns its directives and nothing else (round trip with
      [print]); a directive that directly follows another is not found.
    - [Builder]: [_processBuildPrivateKey] returns within one unit of fuel
      per element when the parser returns on every header, and never
      returns on [{{if a(}}]; a call that is not nested returns an array;
      the body of the loop directive by directive ([on_sentence_output],
      [on_sentence_open], [on_sentence_nested], [on_sentence_else],
      [on_sentence_elseif], [on_sentence_signal], [on_sentence_close]); a
      written template of texts and output expressions is built into one
      bloc per text and expression, in order.
    - [BuilderHeap]: a call leaves the objects that it was given
      unchanged, and the blocs that it returns are objects of the call
      that are read out of the heap as finite trees; pushing a child into
      the open bloc keeps this because the open bloc is not yet the child
      of any object ([unshared]), and the objects of a nested call refer
      to objects of that call only.
    - [Compile]: [compile] fails to return exactly when the builder does,
      so that it returns or throws on every template whose headers the
      parser returns on; a template of texts and output expressions
      renders to
      its texts with every expression replaced by the text of its value,
      blank lines removed; a path to a string is rendered escaped; a
      template without braces renders to itself exactly when it has no
      blank line; a loop over an array of strings renders its body once
      per string, in order, each string escaped; and, for every payload,
      on the templates written in the
      statements: a number on the right of [===] is never equal to
      anything but a missing value, an [if] that is not nested is lost
      when [else] is read, a [break] directly in a loop that is not
      nested prevents the loop, and a compiled [if] with a header in
      parentheses throws at its second call.
    - [ConditionParser]: the operator promotion table composes the
      characters of every comparison operator into that operator and
      depends on the operator accumulated so far only; the parser returns
      within [length conditions + 1] units of fuel on every header that
      does not end in an opening parenthesis, and never returns on a header
      such as [a(] (for every fuel); on words joined by one combinator
      it builds one flat node, and a change of combinator nests what was
      parsed so far (no precedence); a comparison is a leaf with the index
      of its first operator character; a parenthesised group becomes one
      value of the enclosing node, but a group around a single word ends
      the parse, and a comparison followed by a combinator loses its right
      value.
    - [Helpers]: [encode] escapes exactly [&], [<], [>] and the double
      quote, its output holds none of [<], [>] and the double quote, and it
      can be undone ([unescape]); [register] overrides by name.
    - [Sentence]: resolving a path never throws; a one-path expression
      evaluates to the encoded value, [path|raw] to the value itself; a
      falsy value counts as missing; a property [encode] of the payload
      replaces the helper; the shapes of literal and call stages.
    - [Condition]: on a tree without a node without operator
      [_processCondition] is the pure reference evaluator [eval_condition]
      and leaves the tree unchanged (refinement); [||] and [&&] are
      sequential; comparisons work on encoded sentences, so a number
      literal on the right is [undefined] and [<] orders escaped strings.
    - [Render]: once a signal is set the remaining siblings are skipped; an
      [if]/[else if]/[else] chain renders the children of the first bloc
      whose condition holds and evaluates no later condition; a loop over
      an array concatenates the outputs of the iterations up to the first
      [break]; a loop absorbs the signal of its body; the scope of an
      iteration; literal blocs render to their text; an unresolved
      expression renders [undefined]; an [if] whose condition is a wrapper
      without operator renders once and throws a [TypeError] at every later
      render (the store invariant [preserves] carries this through any
      tree).

    ** What is not modelled

    The demo at the end of the file (lines 649-735) builds an instance,
    registers helpers and prints two renderings: it is example code.  The
    parameter [enableAsync] of the compiled function is never read and
    [renderAsync] is [render].  The regular expressions are modelled by
    the functions that compute their matches on 8-bit code units, not by
    a general matcher; the language itself ([String.prototype], the
    operators on values) is the trusted base of [JsString] and
    [JsValue]. *)

From Stdlib Require Import Ascii String ZArith Lia.
From stdpp Require Import base tactics list option strings.

(** ** Strings *)

(** A JavaScript string: a sequence of code units. *)
Abbreviation jsstring := (list ascii).

(** [str "abc"] is the string literal ['abc']. *)
Definition str (s : string) : jsstring := list_ascii_of_string s.

(** ** Exceptions *)

(** The exceptions the modelled code can raise: a [TypeError] of the
    runtime (reading a property of [undefined], calling what is not a
    function) and an exception thrown by a host function. *)
Inductive js_error : Type :=
| TypeError (what : string)
| HostError (what : string).

(** The outcome of code that may throw. *)
Inductive result (A : Type) : Type :=
| Ok (a : A)
| Throw (e : js_error).

Arguments Ok {A} a.
Arguments Throw {A} e.

#[export] Instance js_error_eq_dec : EqDecision js_error.
Proof. solve_decision. Defined.

#[export] Instance result_eq_dec `{EqDecision A} : EqDecision (result A).
Proof. solve_decision. Defined.

#[export] Instance result_ret : MRet result := @Ok.

#[export] Instance result_bind : MBind result :=
  λ A B f m, match m with Ok a => f a | Throw e => Throw e end.

#[export] Instance result_fmap : FMap result :=
  λ A B f m, match m with Ok a => Ok (f a) | Throw e => Throw e end.

(** [is_Ok m]: the computation returned normally. *)
Definition is_Ok {A} (m : result A) : Prop := ∃ a, m = Ok a.

(** A left fold whose step may throw; the first exception ends it, as an
    exception ends [Array.prototype.reduce]. *)
Fixpoint foldlM {A B} (f : B → A → result B) (b : B) (l : list A) : result B :=
  match l with
  | [] => Ok b
  | x :: l' => b' ← f b x; foldlM f b' l'
  end.

(** ** Lemmas on [result] *)

Lemma bind_Ok {A B} (f : A → result B) (a : A) : Ok a ≫= f = f a.
Proof. done. Qed.

Lemma bind_Throw {A B} (f : A → result B) (e : js_error) :
  Throw e ≫= f = Throw e.
Proof. done. Qed.

Lemma bind_ret {A} (m : result A) : m ≫= Ok = m.
Proof. by destruct m. Qed.

Lemma result_bind_Ok {A B} (f : A → result B) (m : result A) (b : B) :
  m ≫= f = Ok b ↔ ∃ a, m = Ok a ∧ f a = Ok b.
Proof.
  destruct m as [a|e]; simpl; split; try done.
  - intros Hf. by exists a.
  - by intros (? & [= <-] & ?).
  - by intros (? & ? & ?).
Qed.

Lemma result_bind_Throw {A B} (f : A → result B) (m : result A) (e : js_error) :
  m ≫= f = Throw e ↔ m = Throw e ∨ ∃ a, m = Ok a ∧ f a = Throw e.
Proof.
  destruct m as [a|e']; simpl; split.
  - intros Hf. right. by exists a.
  - intros [?|(? & [= <-] & ?)]; done.
  - intros [= ->]. by left.
  - intros [[= ->]|(? & ? & ?)]; done.
Qed.

Lemma result_fmap_Ok {A B} (f : A → B) (m : result A) (b : B) :
  f <$> m = Ok b ↔ ∃ a, m = Ok a ∧ b = f a.
Proof.
  destruct m as [a|e]; simpl; split; try done.
  - intros [= <-]. by exists a.
  - by intros (? & [= <-] & ->).
  - by intros (? & ? & ?).
Qed.

Lemma is_Ok_Ok {A} (a : A) : is_Ok (Ok a).
Proof. by exists a. Qed.

Lemma is_Ok_Throw {A} (e : js_error) : ¬ is_Ok (@Throw A e).
Proof. by intros [a ?]. Qed.

Lemma foldlM_app {A B} (f : B → A → result B) (b : B) (l1 l2 : list A) :
  foldlM f b (l1 ++ l2) = foldlM f b l1 ≫= λ b', foldlM f b' l2.
Proof.
  revert b. induction l1 as [|x l1 IH]; intros b; simpl; [done|].
  destruct (f b x); simpl; auto.
Qed.

Lemma foldlM_singleton {A B} (f : B → A → result B) (b : B) (x : A) :
  foldlM f b [x] = f b x.
Proof. apply bind_ret. Qed.

Lemma foldlM_cons {A B} (f : B → A → result B) (b : B) (x : A) (l : list A) :
  foldlM f b (x :: l) = f b x ≫= λ b', foldlM f b' l.
Proof. done. Qed.

Lemma foldlM_pure {A B} (f : B → A → B) (b : B) (l : list A) :
  foldlM (λ b x, Ok (f b x)) b l = Ok (foldl f b l).
Proof. revert b. induction l; intros b; simpl; auto. Qed.

(** ** Lemmas on lists and characters *)

Lemma str_app (s1 s2 : string) :
  str (s1 ++ s2)%string = str s1 ++ str s2.
Proof. induction s1; simpl; [done|]. unfold str in *. simpl. by f_equal. Qed.

Lemma ascii_eqb_eq (a b : ascii) : Ascii.eqb a b = true ↔ a = b.
Proof. apply Ascii.eqb_eq. Qed.

Lemma ascii_eqb_neq (a b : ascii) : Ascii.eqb a b = false ↔ a ≠ b.
Proof. apply Ascii.eqb_neq. Qed.

Lemma Forall_forallb_impl {A} (P : A → Prop) (f : A → bool) (l : list A) :
  Forall (λ x, f x = true → P x) l → forallb f l = true → Forall P l.
Proof.
  induction 1 as [|x l Hx _ IH]; simpl; [done|].
  rewrite andb_true_iff. intros [??]. constructor; auto.
Qed.

Lemma lookup_app_length {A} (l1 l2 : list A) (x : A) :
  (l1 ++ x :: l2) !! length l1 = Some x.
Proof. by rewrite list_lookup_middle. Qed.

Lemma lookup_app_plus {A} (l1 l2 : list A) (i : nat) :
  (l1 ++ l2) !! (length l1 + i) = l2 !! i.
Proof. by rewrite lookup_app_r, Nat.add_comm, Nat.add_sub by lia. Qed.

(** ** Automation *)

(** [tangular] collects the rewrite rules that normalise list lengths and
    lookups in the strings the parser and the scanner index. *)
Create HintDb tangular discriminated.
Create Rewrite HintDb tangular.

#[export] Hint Rewrite @length_app @length_cons @length_nil : tangular.
#[export] Hint Rewrite @lookup_app_length @lookup_app_plus : tangular.
#[export] Hint Rewrite @bind_Ok @bind_Throw : tangular.
#[export] Hint Resolve is_Ok_Ok : tangular.

(** Case analysis on the boolean tests of characters in the goal. *)
Ltac case_ascii_eqb :=
  repeat match goal with
  | |- context [Ascii.eqb ?a ?b] =>
      let E := fresh "E" in
      destruct (Ascii.eqb a b) eqn:E;
      [apply ascii_eqb_eq in E | apply ascii_eqb_neq in E]
  end.

(** Inversion of a successful or failed [bind] in a hypothesis. *)
Ltac simplify_result :=
  repeat match goal with
  | H : Ok _ = Ok _ |- _ => injection H as H
  | H : Throw _ = Throw _ |- _ => injection H as H
  | H : Ok _ = Throw _ |- _ => discriminate H
  | H : Throw _ = Ok _ |- _ => discriminate H
  | H : _ ≫= _ = Ok _ |- _ =>
      apply result_bind_Ok in H; destruct H as (? & ? & H)
  | H : _ <$> _ = Ok _ |- _ =>
      apply result_fmap_Ok in H; destruct H as (? & ? & H)
  | _ => progress simplify_eq/=
  end.

(** Proves a decidable proposition on closed terms by evaluating its
    decision procedure. *)
(** Case analysis on the membership in a list that is written out. *)
Ltac elem_cases H :=
  repeat (apply elem_of_cons in H as [->|H]); try (by apply elem_of_nil in H).

Ltac by_compute := apply (bool_decide_unpack _); vm_compute; exact I.

(** Closes arithmetic side conditions on lengths after normalisation. *)
Ltac len := autorewrite with tangular in *; simpl in *; try lia.
