(* ===== verification/JsString.v ===== *)
(** * JsString: the string primitives the class calls

    The methods of [String.prototype] that [src/lib/tangular.ts] uses, on
    [jsstring]: [split] with a one-character separator, [substring],
    [indexOf] of a character, [startsWith], [trim], [replace] of the
    characters of a class, and the character class [\s] of the regular
    expressions.  They model the JavaScript runtime, not
    code of the repository; each is written after its ECMAScript
    definition and is executable. *)

From Stdlib Require Import Ascii String ZArith Lia.
From stdpp Require Import base tactics list option strings.
From S2P Require Import Prelude.

(** ** Definitions *)

(** [\s] restricted to 8-bit code units: TAB, LF, VT, FF, CR, SPACE, NBSP. *)
Definition is_space (c : ascii) : bool :=
  let n := nat_of_ascii c in
  ((9 <=? n) && (n <=? 13)) || (n =? 32) || (n =? 160).

(** The line terminators among 8-bit code units: LF and CR ([.] does not
    match them, [^] with the [m] flag matches after them). *)
Definition is_line_terminator (c : ascii) : bool :=
  let n := nat_of_ascii c in (n =? 10) || (n =? 13).

(** [\w]: the word characters that [\b] tells apart. *)
Definition is_word_char (c : ascii) : bool :=
  let n := nat_of_ascii c in
  ((48 <=? n) && (n <=? 57)) || ((65 <=? n) && (n <=? 90))
  || ((97 <=? n) && (n <=? 122)) || (n =? 95).

(** [s.split(sep)] for a one-character separator: the pieces between the
    occurrences of [sep], at least one. *)
Fixpoint js_split (sep : ascii) (s : jsstring) : list jsstring :=
  match s with
  | [] => [[]]
  | c :: s' =>
      if Ascii.eqb c sep then [] :: js_split sep s'
      else match js_split sep s' with
           | w :: ws => (c :: w) :: ws
           | [] => [[c]]
           end
  end.

(** [pieces.join(sep)] for a one-character separator. *)
Fixpoint js_join (sep : ascii) (pieces : list jsstring) : jsstring :=
  match pieces with
  | [] => []
  | [w] => w
  | w :: ws => w ++ sep :: js_join sep ws
  end.

(** [s.substring(a, b)]: both arguments are clamped to [0, s.length] and
    swapped when [a > b]. *)
Definition js_substring (s : jsstring) (a b : Z) : jsstring :=
  let len := Z.of_nat (length s) in
  let a' := Z.min (Z.max a 0) len in
  let b' := Z.min (Z.max b 0) len in
  let lo := Z.min a' b' in
  let hi := Z.max a' b' in
  take (Z.to_nat (hi - lo)) (drop (Z.to_nat lo) s).

(** The position of the first [c] in [s], counted from [from]. *)
Fixpoint find_char (c : ascii) (s : jsstring) (from : nat) : option nat :=
  match s with
  | [] => None
  | x :: s' => if Ascii.eqb x c then Some from else find_char c s' (S from)
  end.

(** [s.indexOf(c)] for a one-character string [c]: [-1] when absent. *)
Definition js_indexOf (c : ascii) (s : jsstring) : Z :=
  match find_char c s 0 with
  | Some i => Z.of_nat i
  | None => (-1)%Z
  end.

(** [s.startsWith(p)]. *)
Fixpoint js_startsWith (p s : jsstring) : bool :=
  match p, s with
  | [], _ => true
  | _ :: _, [] => false
  | a :: p', b :: s' => Ascii.eqb a b && js_startsWith p' s'
  end.

(** [s.trimStart()]. *)
Fixpoint js_trimStart (s : jsstring) : jsstring :=
  match s with
  | [] => []
  | c :: s' => if is_space c then js_trimStart s' else s
  end.

(** [s.trim()]: white space removed at both ends. *)
Definition js_trim (s : jsstring) : jsstring :=
  reverse (js_trimStart (reverse (js_trimStart s))).

(** [s.replace(/[...]/g, f)] for a character class given as a predicate
    and a replacer function applied to every matching character. *)
Definition js_replace_class (cls : ascii → bool) (f : ascii → jsstring)
    (s : jsstring) : jsstring :=
  c ← s; if cls c then f c else [c].

(** The double quote. *)
Definition dquote : ascii := "034"%char.

(** ** Lemmas *)

Lemma js_replace_class_app (cls : ascii → bool) (f : ascii → jsstring)
    (s1 s2 : jsstring) :
  js_replace_class cls f (s1 ++ s2) =
    js_replace_class cls f s1 ++ js_replace_class cls f s2.
Proof. apply bind_app. Qed.

Lemma js_replace_class_none (cls : ascii → bool) (f : ascii → jsstring)
    (s : jsstring) :
  Forall (λ c, cls c = false) s → js_replace_class cls f s = s.
Proof.
  induction 1 as [|c s Hc _ IH]; [done|].
  change (js_replace_class cls f (c :: s))
    with ((if cls c then f c else [c]) ++ js_replace_class cls f s).
  by rewrite Hc, IH.
Qed.

Section split.
Context (sep : ascii).

Lemma js_split_nonempty (s : jsstring) : js_split sep s ≠ [].
Proof. destruct s as [|c s]; simpl; [done|]. by repeat case_match. Qed.

Lemma js_split_cons_ne (c : ascii) (s : jsstring) :
  c ≠ sep →
  js_split sep (c :: s) =
    (c :: default [] (head (js_split sep s))) :: tail (js_split sep s).
Proof.
  intros Hc. simpl. apply ascii_eqb_neq in Hc as ->.
  pose proof (js_split_nonempty s). by destruct (js_split sep s).
Qed.

(** A word without the separator, followed by the separator: the word is
    the first piece. *)
Lemma js_split_word (w rest : jsstring) :
  sep ∉ w → js_split sep (w ++ sep :: rest) = w :: js_split sep rest.
Proof.
  induction w as [|c w IH]; intros Hw; simpl.
  - by rewrite Ascii.eqb_refl.
  - apply not_elem_of_cons in Hw as [Hc Hw].
    apply not_eq_sym, ascii_eqb_neq in Hc as ->. by rewrite IH.
Qed.

(** A word without the separator is one piece. *)
Lemma js_split_plain (w : jsstring) : sep ∉ w → js_split sep w = [w].
Proof.
  induction w as [|c w IH]; intros Hw; simpl; [done|].
  apply not_elem_of_cons in Hw as [Hc Hw].
  apply not_eq_sym, ascii_eqb_neq in Hc as ->. by rewrite IH.
Qed.

(** [split] then [join] with the same separator gives the string back. *)
Lemma js_join_split (s : jsstring) : js_join sep (js_split sep s) = s.
Proof.
  induction s as [|c s IH]; simpl; [done|].
  destruct (Ascii.eqb_spec c sep) as [->|Hc].
  - pose proof (js_split_nonempty s).
    destruct (js_split sep s) eqn:E; [done|]. simpl in *. by rewrite IH.
  - pose proof (js_split_nonempty s).
    destruct (js_split sep s) as [|w ws] eqn:E; [done|].
    destruct ws; simpl in *; by rewrite <- IH.
Qed.

(** No piece contains the separator. *)
Lemma js_split_no_sep (s w : jsstring) : w ∈ js_split sep s → sep ∉ w.
Proof.
  revert w. induction s as [|c s IH]; intros w; simpl.
  - intros ->%list_elem_of_singleton. apply not_elem_of_nil.
  - destruct (Ascii.eqb_spec c sep) as [->|Hc].
    + intros [->|Hw]%elem_of_cons; [apply not_elem_of_nil | by apply IH].
    + pose proof (js_split_nonempty s).
      destruct (js_split sep s) as [|w' ws] eqn:E; [done|].
      intros [->|Hw]%elem_of_cons.
      * apply not_elem_of_cons. split; [done|]. apply IH. by left.
      * apply IH. by right.
Qed.

(** [split] undoes [join] when no piece holds the separator. *)
Lemma js_split_join (pieces : list jsstring) :
  pieces ≠ [] → Forall (λ w, sep ∉ w) pieces →
  js_split sep (js_join sep pieces) = pieces.
Proof.
  intros Hne Hall. induction Hall as [|w ws Hw Hws IH]; [done|].
  destruct ws as [|w' ws]; [by apply js_split_plain|].
  change (js_join sep (w :: w' :: ws)) with (w ++ sep :: js_join sep (w' :: ws)).
  rewrite js_split_word by done. f_equal. by apply IH.
Qed.

End split.

Lemma js_substring_full (s : jsstring) :
  js_substring s 0 (Z.of_nat (length s)) = s.
Proof.
  unfold js_substring. set (len := Z.of_nat (length s)).
  assert (Z.min (Z.max 0 0) len = 0)%Z as -> by lia.
  assert (Z.min (Z.max len 0) len = len)%Z as -> by lia.
  assert (Z.min 0 len = 0)%Z as -> by lia.
  assert (Z.max 0 len = len)%Z as -> by lia.
  rewrite Z.sub_0_r. unfold len. rewrite Nat2Z.id. simpl.
  by rewrite firstn_all.
Qed.

(** [substring] within bounds is [take] after [drop]. *)
Lemma js_substring_take_drop (s : jsstring) (a b : nat) :
  a ≤ b ≤ length s →
  js_substring s (Z.of_nat a) (Z.of_nat b) = take (b - a) (drop a s).
Proof.
  intros H. unfold js_substring. set (len := Z.of_nat (length s)).
  assert (Z.min (Z.max (Z.of_nat a) 0) len = Z.of_nat a)%Z as -> by lia.
  assert (Z.min (Z.max (Z.of_nat b) 0) len = Z.of_nat b)%Z as -> by lia.
  assert (Z.min (Z.of_nat a) (Z.of_nat b) = Z.of_nat a)%Z as -> by lia.
  assert (Z.max (Z.of_nat a) (Z.of_nat b) = Z.of_nat b)%Z as -> by lia.
  by rewrite <- Nat2Z.inj_sub, !Nat2Z.id by lia.
Qed.

Lemma js_substring_length (s : jsstring) (a b : Z) :
  length (js_substring s a b) ≤ length s.
Proof. unfold js_substring. rewrite length_take, length_drop. lia. Qed.

Lemma find_char_ge (c : ascii) (s : jsstring) (from i : nat) :
  find_char c s from = Some i → from ≤ i < from + length s.
Proof.
  revert from. induction s as [|x s IH]; intros from; simpl; [done|].
  destruct (Ascii.eqb x c); [intros [= <-]; lia|].
  intros H%IH. lia.
Qed.

Lemma find_char_lookup (c : ascii) (s : jsstring) (from i : nat) :
  find_char c s from = Some i → s !! (i - from) = Some c.
Proof.
  revert from. induction s as [|x s IH]; intros from; simpl; [done|].
  destruct (Ascii.eqb_spec x c) as [->|Hx].
  - intros [= <-]. by rewrite Nat.sub_diag.
  - intros H. pose proof (find_char_ge _ _ _ _ H).
    apply IH in H. by replace (i - from) with (S (i - S from)) by lia.
Qed.

Lemma find_char_None (c : ascii) (s : jsstring) (from : nat) :
  find_char c s from = None ↔ c ∉ s.
Proof.
  revert from. induction s as [|x s IH]; intros from; simpl.
  - split; [intros _; apply not_elem_of_nil | done].
  - destruct (Ascii.eqb_spec x c) as [->|Hx].
    + split; [done|]. intros []. by left.
    + rewrite IH, not_elem_of_cons. split; [by split | by intros [_ ?]].
Qed.

Lemma find_char_app (c : ascii) (w rest : jsstring) (from : nat) :
  c ∉ w → find_char c (w ++ c :: rest) from = Some (from + length w).
Proof.
  revert from. induction w as [|x w IH]; intros from Hw; simpl.
  - rewrite Ascii.eqb_refl. f_equal. lia.
  - apply not_elem_of_cons in Hw as [Hx Hw].
    destruct (Ascii.eqb_spec x c) as [->|_]; [done|].
    rewrite IH by done. f_equal. lia.
Qed.

(** [indexOf] is the length of what precedes the first occurrence. *)
Lemma js_indexOf_app (c : ascii) (w rest : jsstring) :
  c ∉ w → js_indexOf c (w ++ c :: rest) = Z.of_nat (length w).
Proof. intros Hw. unfold js_indexOf. by rewrite find_char_app. Qed.

(** The two uses of [substring] on a string [w ++ m ++ e]: the part before
    [m] and the part [m]. *)
Lemma js_substring_prefix (w rest : jsstring) :
  js_substring (w ++ rest) 0 (Z.of_nat (length w)) = w.
Proof.
  rewrite (js_substring_take_drop _ 0 (length w)) by (rewrite length_app; lia).
  by rewrite Nat.sub_0_r, drop_0, take_app_length.
Qed.

Lemma js_substring_middle (w m e : jsstring) :
  js_substring (w ++ m ++ e) (Z.of_nat (length w)) (Z.of_nat (length w + length m)) = m.
Proof.
  rewrite js_substring_take_drop by (rewrite !length_app; lia).
  rewrite drop_app_length. replace (length w + length m - length w) with (length m) by lia.
  by rewrite take_app_length.
Qed.

(** [indexOf] is [-1] exactly when the character does not occur. *)
Lemma js_indexOf_absent (c : ascii) (s : jsstring) :
  js_indexOf c s = (-1)%Z ↔ c ∉ s.
Proof.
  unfold js_indexOf. rewrite <- (find_char_None c s 0).
  destruct (find_char c s 0); split; try done; lia.
Qed.

Lemma js_startsWith_app (p s : jsstring) : js_startsWith p (p ++ s) = true.
Proof. induction p; simpl; [done|]. by rewrite Ascii.eqb_refl. Qed.

Lemma js_startsWith_prefix (p s : jsstring) :
  js_startsWith p s = true ↔ p `prefix_of` s.
Proof.
  revert s. induction p as [|a p IH]; intros s; simpl.
  - split; [intros _; apply prefix_nil | done].
  - destruct s as [|b s].
    + split; [done|]. intros H%prefix_nil_inv. done.
    + rewrite andb_true_iff, ascii_eqb_eq, IH. split.
      * intros [-> H]. by apply prefix_cons.
      * intros H. split; [by apply prefix_cons_inv_1 in H|by apply prefix_cons_inv_2 in H].
Qed.

Lemma js_trimStart_cons (c : ascii) (s : jsstring) :
  is_space c = false → js_trimStart (c :: s) = c :: s.
Proof. intros H. simpl. by rewrite H. Qed.

Lemma js_trimStart_idemp (s : jsstring) :
  js_trimStart (js_trimStart s) = js_trimStart s.
Proof.
  induction s as [|c s IH]; simpl; [done|].
  destruct (is_space c) eqn:E; [done|]. simpl. by rewrite E.
Qed.

Lemma js_trimStart_spaces (sp s : jsstring) :
  Forall (λ c, is_space c = true) sp → js_trimStart (sp ++ s) = js_trimStart s.
Proof. induction 1 as [|c sp Hc _ IH]; [done|]. simpl. by rewrite Hc. Qed.

Lemma js_trimStart_blank (sp : jsstring) :
  Forall (λ c, is_space c = true) sp → js_trimStart sp = [].
Proof. intros H. rewrite <- (app_nil_r sp). by rewrite js_trimStart_spaces. Qed.

Lemma js_trimStart_head (s : jsstring) :
  (∀ c, head s = Some c → is_space c = false) → js_trimStart s = s.
Proof. destruct s as [|c s]; [done|]. intros H. apply js_trimStart_cons. by apply H. Qed.

(** [trim] removes the white space around a string that neither starts nor
    ends with white space, and nothing else. *)
Lemma js_trim_core (sp1 core sp2 : jsstring) :
  Forall (λ c, is_space c = true) sp1 → Forall (λ c, is_space c = true) sp2 →
  (∀ c, head core = Some c → is_space c = false) →
  (∀ c, last core = Some c → is_space c = false) →
  js_trim (sp1 ++ core ++ sp2) = core.
Proof.
  intros H1 H2 Hhead Hlast. unfold js_trim. rewrite js_trimStart_spaces by done.
  destruct core as [|c core].
  - cbn [app]. by rewrite (js_trimStart_blank sp2).
  - cbn [app]. rewrite js_trimStart_cons by by apply Hhead.
    rewrite app_comm_cons, reverse_app.
    rewrite js_trimStart_spaces by by apply Forall_reverse.
    rewrite js_trimStart_head; [apply reverse_involutive|].
    intros d. rewrite head_reverse. apply Hlast.
Qed.

Lemma js_trim_id (core : jsstring) :
  (∀ c, head core = Some c → is_space c = false) →
  (∀ c, last core = Some c → is_space c = false) →
  js_trim core = core.
Proof.
  intros Hhead Hlast.
  pose proof (js_trim_core [] core [] (Forall_nil_2 _) (Forall_nil_2 _) Hhead Hlast) as H.
  by rewrite app_nil_l, app_nil_r in H.
Qed.

(** A line terminator is white space. *)
Lemma not_space_not_terminator (c : ascii) :
  is_space c = false → is_line_terminator c = false.
Proof.
  unfold is_space, is_line_terminator.
  destruct (nat_of_ascii c =? 10) eqn:E10; [apply Nat.eqb_eq in E10 as ->; done|].
  destruct (nat_of_ascii c =? 13) eqn:E13; [apply Nat.eqb_eq in E13 as ->; done|done].
Qed.

Lemma js_trimStart_suffix (s : jsstring) : js_trimStart s `suffix_of` s.
Proof.
  induction s as [|c s IH]; simpl; [done|].
  destruct (is_space c); [by apply suffix_cons_r|done].
Qed.

Lemma js_trim_length (s : jsstring) : length (js_trim s) ≤ length s.
Proof.
  unfold js_trim. rewrite length_reverse.
  etrans; [apply suffix_length, js_trimStart_suffix|]. rewrite length_reverse.
  apply suffix_length, js_trimStart_suffix.
Qed.

(** [substring] up to the end of the string, or further, is a suffix. *)
Lemma js_substring_suffix (s : jsstring) (a : Z) (n : nat) :
  length s ≤ n → js_substring s a (Z.of_nat n) `suffix_of` s.
Proof.
  intros Hn. unfold js_substring. set (len := Z.of_nat (length s)).
  set (a' := Z.min (Z.max a 0) len).
  assert (Z.min (Z.max (Z.of_nat n) 0) len = len)%Z as -> by lia.
  assert (Z.min a' len = a')%Z as -> by lia.
  assert (Z.max a' len = len)%Z as -> by lia.
  rewrite take_ge; [apply suffix_drop|]. rewrite length_drop. lia.
Qed.

Lemma js_substring_drop (s : jsstring) (a n : nat) :
  length s ≤ n → js_substring s (Z.of_nat a) (Z.of_nat n) = drop a s.
Proof.
  intros Hn. unfold js_substring. set (len := Z.of_nat (length s)).
  assert (Z.min (Z.max (Z.of_nat n) 0) len = len)%Z as -> by lia.
  destruct (decide (a ≤ length s)).
  - assert (Z.min (Z.max (Z.of_nat a) 0) len = Z.of_nat a)%Z as -> by lia.
    assert (Z.min (Z.of_nat a) len = Z.of_nat a)%Z as -> by lia.
    assert (Z.max (Z.of_nat a) len = len)%Z as -> by lia.
    rewrite Nat2Z.id, take_ge; [done|]. rewrite length_drop. lia.
  - assert (Z.min (Z.max (Z.of_nat a) 0) len = len)%Z as -> by lia.
    rewrite Z.min_id, Z.max_id, Z.sub_diag, (drop_ge s a) by lia. simpl.
    by rewrite take_0.
Qed.

Lemma last_suffix {A} (l1 l2 : list A) (x : A) :
  l1 `suffix_of` l2 → last l1 = Some x → last l2 = Some x.
Proof. intros [k ->] Hx. rewrite last_app. by rewrite Hx. Qed.

#[export] Hint Rewrite js_join_split js_startsWith_app js_substring_full : tangular.
