(* ===== verification/Syntax.v ===== *)
(** * Syntax: the enums and interfaces of [src/lib/tangular.ts], lines 1-61

    One Module per TypeScript declaration, so that a field or an enum member
    keeps its name: [TangularOperator.NONE], [TangularBloc.children].
    A value of the union [TangularCondition | TangularInstruction | string],
    or [undefined] where a field is optional or an array is read out of
    range, is a [node]. *)

From Stdlib Require Import Ascii String ZArith Lia.
From stdpp Require Import base tactics list option strings.
From S2P Require Import Prelude.

#[local] Set Warnings "-register-all".

(** ** Definitions *)

(** [enum TangularOperator], lines 1-17. *)
Module TangularOperator.

Inductive t : Type :=
| NONE | AND | OR
| LESS_THAN | GREATER_THAN | EQUAL | DOUBLE_EQUAL | STRICT_EQUAL
| LESS_OR_EQUAL | GREATER_OR_EQUAL
| NOT | NOT_EQUAL | STRICT_NOT_EQUAL
| IN | OF.

(** The string value of each member. *)
Definition to_string (o : t) : jsstring :=
  match o with
  | NONE => str ""
  | AND => str "&"
  | OR => str "|"
  | LESS_THAN => str "<"
  | GREATER_THAN => str ">"
  | EQUAL => str "="
  | DOUBLE_EQUAL => str "=="
  | STRICT_EQUAL => str "==="
  | LESS_OR_EQUAL => str "<="
  | GREATER_OR_EQUAL => str ">="
  | NOT => str "!"
  | NOT_EQUAL => str "!="
  | STRICT_NOT_EQUAL => str "!=="
  | IN => str "in"
  | OF => str "of"
  end.

(** Every member, in declaration order. *)
Definition all : list t :=
  [NONE; AND; OR; LESS_THAN; GREATER_THAN; EQUAL; DOUBLE_EQUAL; STRICT_EQUAL;
   LESS_OR_EQUAL; GREATER_OR_EQUAL; NOT; NOT_EQUAL; STRICT_NOT_EQUAL; IN; OF].

(** The members a comparison leaf can carry. *)
Definition is_comparison (o : t) : bool :=
  match o with
  | LESS_THAN | GREATER_THAN | EQUAL | DOUBLE_EQUAL | STRICT_EQUAL
  | LESS_OR_EQUAL | GREATER_OR_EQUAL | NOT | NOT_EQUAL | STRICT_NOT_EQUAL => true
  | _ => false
  end.

#[global] Instance eq_dec : EqDecision t.
Proof. solve_decision. Defined.

End TangularOperator.

(** [enum TangularPrivateKey], lines 19-30. *)
Module TangularPrivateKey.

Inductive t : Type :=
| NONE | IF | ELSE | ELSEIF | FI | FOREACH | FOR | END | CONTINUE | BREAK.

Definition to_string (k : t) : jsstring :=
  match k with
  | NONE => str ""
  | IF => str "if"
  | ELSE => str "else"
  | ELSEIF => str "else if"
  | FI => str "fi"
  | FOREACH => str "foreach"
  | FOR => str "for"
  | END => str "end"
  | CONTINUE => str "continue"
  | BREAK => str "break"
  end.

Definition all : list t :=
  [NONE; IF; ELSE; ELSEIF; FI; FOREACH; FOR; END; CONTINUE; BREAK].

#[global] Instance eq_dec : EqDecision t.
Proof. solve_decision. Defined.

End TangularPrivateKey.

(** [interface TangularInstruction], lines 37-42: a comparison leaf.  The
    two optional fields are [None] while they are [undefined]. *)
Module TangularInstruction.

Record t : Type := mk {
  leftValue : option jsstring;
  rightValue : option jsstring;
  operator : TangularOperator.t;
  index : nat
}.

#[global] Instance eq_dec : EqDecision t.
Proof. solve_decision. Defined.

End TangularInstruction.

(** [interface TangularCondition], lines 44-48, over the type [N] of the
    elements of [values]. *)
Module TangularCondition.

Record t_ (N : Type) : Type := mk {
  values : list N;
  operator : TangularOperator.t;
  index : nat
}.

Arguments mk {N} values operator index.
Arguments values {N} _.
Arguments operator {N} _.
Arguments index {N} _.

End TangularCondition.

(** A value of [TangularCondition | TangularInstruction | string], or
    [undefined]. *)
Inductive node : Type :=
| NUndefined
| NString (s : jsstring)
| NInstruction (i : TangularInstruction.t)
| NCondition (c : TangularCondition.t_ node).

(** [TangularCondition] with its elements. *)
Abbreviation condition := (TangularCondition.t_ node).

(** The property [index] of a node, as [rec?.index] reads it: [None] for
    [undefined], which a string has no such property and gives. *)
Definition node_index (n : node) : option nat :=
  match n with
  | NInstruction i => Some (TangularInstruction.index i)
  | NCondition c => Some (TangularCondition.index c)
  | NString _ | NUndefined => None
  end.

(** The number of nodes of a tree. *)
Fixpoint node_size (n : node) : nat :=
  match n with
  | NCondition c =>
      S (foldr (λ x acc, node_size x + acc) 0 (TangularCondition.values c))
  | _ => 1
  end.

(** [interface TangularBloc], lines 50-55.  [ref] is the identity of the
    object: two occurrences of one object in a tree carry the same [ref].
    [isHTML] is [false] where the field is absent. *)
Module TangularBloc.

Inductive t : Type := mk {
  ref : nat;
  name : TangularPrivateKey.t;
  children : list t;
  instruction : node;
  isHTML : bool
}.

End TangularBloc.

Abbreviation bloc := TangularBloc.t.

(** [interface TangularProcessBloc], lines 32-35: the output of a walk and
    its control signal. *)
Module TangularProcessBloc.

Record t : Type := mk {
  template : jsstring;
  operator : TangularPrivateKey.t
}.

#[global] Instance eq_dec : EqDecision t.
Proof. solve_decision. Defined.

End TangularProcessBloc.

(** [interface TangularNestedBlocs], lines 57-61: what a nested call of the
    builder returns at a closer. *)
Module TangularNestedBlocs.

Record t : Type := mk {
  lastIndex : nat;
  blocObject : bloc;
  blocsObject : list bloc
}.

End TangularNestedBlocs.

(** The number of blocs of a tree, the measure the walks decrease. *)
Fixpoint bloc_size (b : bloc) : nat :=
  S (foldr (λ x acc, bloc_size x + acc) 0 (TangularBloc.children b)).

(** ** Induction principles *)

(** Induction on nodes with the hypothesis for every element of [values]. *)
Section node_ind.
Context (P : node → Prop).
Context (Hundef : P NUndefined).
Context (Hstr : ∀ s, P (NString s)).
Context (Hinstr : ∀ i, P (NInstruction i)).
Context (Hcond : ∀ c, Forall P (TangularCondition.values c) → P (NCondition c)).

Fixpoint node_ind' (n : node) : P n :=
  match n with
  | NUndefined => Hundef
  | NString s => Hstr s
  | NInstruction i => Hinstr i
  | NCondition c =>
      Hcond c
        ((fix go (l : list node) : Forall P l :=
            match l with
            | [] => Forall_nil_2 P
            | x :: l' => Forall_cons_2 P x l' (node_ind' x) (go l')
            end) (TangularCondition.values c))
  end.

End node_ind.

(** Induction on blocs with the hypothesis for every child. *)
Section bloc_ind.
Context (P : bloc → Prop).
Context (Hbloc : ∀ b, Forall P (TangularBloc.children b) → P b).

Fixpoint bloc_ind' (b : bloc) : P b :=
  Hbloc b
    ((fix go (l : list bloc) : Forall P l :=
        match l with
        | [] => Forall_nil_2 P
        | x :: l' => Forall_cons_2 P x l' (bloc_ind' x) (go l')
        end) (TangularBloc.children b)).

End bloc_ind.

(** ** Lemmas *)

(** The string values of the operators are pairwise distinct. *)
Lemma TangularOperator_to_string_inj (a b : TangularOperator.t) :
  TangularOperator.to_string a = TangularOperator.to_string b → a = b.
Proof. by destruct a, b. Qed.

Lemma TangularOperator_all_complete (o : TangularOperator.t) :
  o ∈ TangularOperator.all.
Proof. unfold TangularOperator.all. destruct o; repeat constructor. Qed.

Lemma TangularPrivateKey_to_string_inj (a b : TangularPrivateKey.t) :
  TangularPrivateKey.to_string a = TangularPrivateKey.to_string b → a = b.
Proof. by destruct a, b. Qed.

Lemma TangularPrivateKey_all_complete (k : TangularPrivateKey.t) :
  k ∈ TangularPrivateKey.all.
Proof. unfold TangularPrivateKey.all. destruct k; repeat constructor. Qed.

Lemma node_size_pos (n : node) : 0 < node_size n.
Proof. destruct n; simpl; lia. Qed.

Lemma bloc_size_pos (b : bloc) : 0 < bloc_size b.
Proof. destruct b; simpl; lia. Qed.
