(* ===== verification/ConditionParser.v ===== *)
(** * ConditionParser: [_processConditionBuild] and [_processForeachBuild]

    [_processConditionBuild(conditions, position)] (lines 107-192) scans
    the header of an [if] from [position], one character per iteration of
    its [for] loop, with three local variables: the word under construction
    [wordTmp], the comparison under construction [instructionObject] and the
    condition under construction [conditionsObject].  Here the variables are
    the fields of [pstate], an iteration is a case of [loop], and the
    [switch] on the character is a [match] on [classify].  A recursive call
    of the method (the case of an opening parenthesis) is a call of [loop]
    from the initial state.

    The loop variable is assigned from the result of the recursive call
    ([i = rec?.index]), so the loop is not structural and [loop] takes fuel.
    A turn of the loop takes one unit and passes what is left both to the
    recursive call and to the turn that follows it: the fuel bounds the
    number of turns and calls that lead to a position, the turns of the
    calls that have returned not counted, and not the total number of
    turns.  [None] is "out of fuel". *)

From Stdlib Require Import Ascii String ZArith Lia.
From stdpp Require Import base tactics list option strings.
From S2P Require Import Prelude JsString Syntax.

Module Import TO := TangularOperator.

(** ** Definitions *)

(** The cases of the [switch] on [conditions[i]], lines 121-180. *)
Inductive cclass : Type :=
| CClose
| COpen
| CLogic (op : TangularOperator.t)
| CCompare (op : TangularOperator.t)
| CWord.

(** The case a character selects; [op] is the character read as a member
    of [TangularOperator] (the cast [<TangularOperator>conditions[i]]). *)
Definition classify (c : ascii) : cclass :=
  if Ascii.eqb c ")" then CClose
  else if Ascii.eqb c "(" then COpen
  else if Ascii.eqb c "&" then CLogic AND
  else if Ascii.eqb c "|" then CLogic OR
  else if Ascii.eqb c "<" then CCompare LESS_THAN
  else if Ascii.eqb c ">" then CCompare GREATER_THAN
  else if Ascii.eqb c "=" then CCompare EQUAL
  else if Ascii.eqb c "!" then CCompare NOT
  else CWord.

(** The chain of [&&]/[||] of lines 169-175: the operator of the open
    instruction after one more comparison character, whose own operator is
    [c].  The chain tests the operator accumulated so far only. *)
Definition promote (operator c : TangularOperator.t) : TangularOperator.t :=
  match operator with
  | DOUBLE_EQUAL => STRICT_EQUAL
  | EQUAL => DOUBLE_EQUAL
  | LESS_THAN => LESS_OR_EQUAL
  | GREATER_THAN => GREATER_OR_EQUAL
  | NOT_EQUAL => STRICT_NOT_EQUAL
  | NOT => NOT_EQUAL
  | _ => c
  end.

(** The local variables of [_processConditionBuild], lines 111-117. *)
Record pstate : Type := mkPstate {
  wordTmp : jsstring;
  instructionObject : option TangularInstruction.t;
  conditionsObject : condition
}.

(** Their initial values. *)
Definition initial : pstate :=
  {| wordTmp := [];
     instructionObject := None;
     conditionsObject := TangularCondition.mk [] NONE 0 |}.

(** [conditionsObject.index = i], line 120. *)
Definition set_index (i : nat) (st : pstate) : pstate :=
  let c := conditionsObject st in
  {| wordTmp := wordTmp st;
     instructionObject := instructionObject st;
     conditionsObject :=
       TangularCondition.mk (TangularCondition.values c)
         (TangularCondition.operator c) i |}.

(** [conditionsObject.values.push(n)]. *)
Definition push_value (n : node) (c : condition) : condition :=
  TangularCondition.mk (TangularCondition.values c ++ [n])
    (TangularCondition.operator c) (TangularCondition.index c).

(** [instructionObject.rightValue = wordTmp]. *)
Definition set_rightValue (w : jsstring) (i : TangularInstruction.t)
    : TangularInstruction.t :=
  TangularInstruction.mk (TangularInstruction.leftValue i) (Some w)
    (TangularInstruction.operator i) (TangularInstruction.index i).

(** [instructionObject || wordTmp] once the right value is stored: the
    pending leaf. *)
Definition pending_leaf (st : pstate) : node :=
  match instructionObject st with
  | Some i => NInstruction (set_rightValue (wordTmp st) i)
  | None => NString (wordTmp st)
  end.

(** Lines 182-191, what the method returns when the loop ends, and lines
    123-133, the same statements in the case of a closing parenthesis. *)
Definition finish (st : pstate) : node :=
  if decide (wordTmp st = []) then NCondition (conditionsObject st)
  else if decide (TangularCondition.operator (conditionsObject st) = NONE)
  then pending_leaf st
  else NCondition (push_value (pending_leaf st) (conditionsObject st)).

(** The case of [&] and [|], lines 143-159, at index [i]: the pending word
    is pushed (the open instruction is not), then the condition is kept
    flat under the same combinator or wrapped under a new one. *)
Definition on_logic (op : TangularOperator.t) (i : nat) (st : pstate) : pstate :=
  let c := if decide (wordTmp st = []) then conditionsObject st
           else push_value (NString (wordTmp st)) (conditionsObject st) in
  let vs := if decide (TangularCondition.operator c = NONE
                       ∨ TangularCondition.operator c = op)
            then TangularCondition.values c
            else [NCondition c] in
  {| wordTmp := [];
     instructionObject := instructionObject st;
     conditionsObject := TangularCondition.mk vs op i |}.

(** The case of [<], [>], [=] and [!], lines 160-177, at index [i]. *)
Definition on_compare (op : TangularOperator.t) (i : nat) (st : pstate) : pstate :=
  let io := default (TangularInstruction.mk None None NONE i)
                    (instructionObject st) in
  let left := match TangularInstruction.leftValue io with
              | Some ((_ :: _) as l) => l
              | _ => wordTmp st
              end in
  {| wordTmp := [];
     instructionObject :=
       Some (TangularInstruction.mk (Some left)
               (TangularInstruction.rightValue io)
               (promote (TangularInstruction.operator io) op)
               (TangularInstruction.index io));
     conditionsObject := conditionsObject st |}.

(** The default case, line 179: [wordTmp += conditions[i]]. *)
Definition on_word (c : ascii) (st : pstate) : pstate :=
  {| wordTmp := wordTmp st ++ [c];
     instructionObject := instructionObject st;
     conditionsObject := conditionsObject st |}.

(** After the recursive call of the case of [(], lines 137-141: its result
    is pushed and the word is reset. *)
Definition on_open (rec : node) (st : pstate) : pstate :=
  {| wordTmp := [];
     instructionObject := instructionObject st;
     conditionsObject := push_value rec (conditionsObject st) |}.

(** The [for] loop of lines 119-181 from index [i] in state [st], followed
    by lines 182-191.  After a recursive call the loop goes on at
    [rec.index + 1]; when the result is a string, [rec?.index] is
    [undefined], [i++] makes it [NaN] and the test [i < conditions.length]
    ends the loop. *)
Fixpoint loop (fuel : nat) (conditions : jsstring) (i : nat) (st : pstate)
    : option node :=
  match fuel with
  | 0 => None
  | S fuel =>
      match conditions !! i with
      | None => Some (finish st)
      | Some c =>
          let st := set_index i st in
          match classify c with
          | CClose => Some (finish st)
          | COpen =>
              rec ← loop fuel conditions (i + 1) initial;
              match node_index rec with
              | Some j => loop fuel conditions (j + 1) (on_open rec st)
              | None => Some (finish (on_open rec st))
              end
          | CLogic op => loop fuel conditions (i + 1) (on_logic op i st)
          | CCompare op => loop fuel conditions (i + 1) (on_compare op i st)
          | CWord => loop fuel conditions (i + 1) (on_word c st)
          end
      end
  end.

(** [_processConditionBuild(conditions, position)], lines 107-192. *)
Definition _processConditionBuild (fuel : nat) (conditions : jsstring)
    (position : nat) : option node :=
  loop fuel conditions position initial.

(** [_processForeachBuild(conditions)], lines 94-105: the header split at
    the spaces, its first and third pieces kept.  An index out of range
    reads [undefined]. *)
Definition _processForeachBuild (conditions : jsstring) : condition :=
  let keys := js_split " " conditions in
  let key (i : nat) := from_option NString NUndefined (keys !! i) in
  TangularCondition.mk [key 0; key 2] IN 0.

(** The fuel that is enough for a header: every turn and every recursive
    call starts at a later position than the one before, so that a chain of
    them is no longer than the header, and one more unit is for the test
    that ends the loop. *)
Definition enough_fuel (conditions : jsstring) : nat := S (length conditions).

(** A character of a word: one the [switch] sends to its default case. *)
Definition is_word (w : jsstring) : Prop := Forall (λ c, classify c = CWord) w.

#[export] Instance is_word_dec (w : jsstring) : Decision (is_word w).
Proof. apply Forall_dec. intros c. solve_decision. Defined.

(** The state after the characters of the word [w] were read from index
    [i]: the word is appended and the index is the last one read. *)
Definition after_word (w : jsstring) (i : nat) (st : pstate) : pstate :=
  match w with
  | [] => st
  | _ => {| wordTmp := wordTmp st ++ w;
            instructionObject := instructionObject st;
            conditionsObject := conditionsObject (set_index (i + length w - 1) st) |}
  end.

(** One iteration of the loop on a character that is not a parenthesis,
    as a function of the state: the reference the loop is compared with. *)
Definition step (i : nat) (c : ascii) (st : pstate) : pstate :=
  let st := set_index i st in
  match classify c with
  | CLogic op => on_logic op i st
  | CCompare op => on_compare op i st
  | CWord => on_word c st
  | COpen | CClose => st
  end.

(** The iterations on the characters [cs], read from index [i]: a left
    fold of [step]. *)
Fixpoint run (i : nat) (cs : jsstring) (st : pstate) : pstate :=
  match cs with
  | [] => st
  | c :: cs' => run (S i) cs' (step i c st)
  end.

(** A header without parentheses. *)
Definition paren_free (cs : jsstring) : Prop :=
  Forall (λ c, classify c ≠ COpen ∧ classify c ≠ CClose) cs.

#[export] Instance cclass_eq_dec : EqDecision cclass.
Proof. solve_decision. Defined.

#[export] Instance paren_free_dec (cs : jsstring) : Decision (paren_free cs).
Proof. apply Forall_dec. intros c. solve_decision. Defined.

(** The operator the loop composes from a run of comparison characters. *)
Definition compose_operator (cs : jsstring) : TangularOperator.t :=
  foldl (λ acc c, match classify c with
                  | CCompare op => promote acc op
                  | _ => acc
                  end) NONE cs.

(** [parses conditions i st r]: the loop entered at index [i] in state
    [st] returns [r]. *)
Definition parses (conditions : jsstring) (i : nat) (st : pstate) (r : node)
    : Prop :=
  ∃ fuel, loop fuel conditions i st = Some r.

(** The indices stored in a tree are positions of the header, or [0]. *)
Fixpoint indices_below (n : nat) (r : node) : Prop :=
  match r with
  | NUndefined | NString _ => True
  | NInstruction i => TangularInstruction.index i < n
  | NCondition c =>
      (TangularCondition.index c < n ∨ TangularCondition.index c = 0)
      ∧ foldr (λ x acc, indices_below n x ∧ acc) True (TangularCondition.values c)
  end.

(** The leaf of a comparison [l op r] whose first operator character stands
    at index [i]. *)
Definition comparison_leaf (l : jsstring) (op : TangularOperator.t)
    (r : jsstring) (i : nat) : node :=
  NInstruction (TangularInstruction.mk (Some l) (Some r) op i).

(** A flat node: the words [ws] under the combinator [op]. *)
Definition flat_node (ws : list jsstring) (op : TangularOperator.t) (i : nat)
    : node :=
  NCondition (TangularCondition.mk (NString <$> ws) op i).

(** The character of a combinator. *)
Definition logic_char (op : TangularOperator.t) : ascii :=
  match op with OR => "|" | _ => "&" end.

(** The state between two terms of a header: no pending word, no open
    instruction. *)
Definition clean (vs : list node) (op : TangularOperator.t) (ix : nat) : pstate :=
  {| wordTmp := [];
     instructionObject := None;
     conditionsObject := TangularCondition.mk vs op ix |}.

(** ** Lemmas: the characters *)

Lemma classify_logic_char (op : TangularOperator.t) :
  op = AND ∨ op = OR → classify (logic_char op) = CLogic op.
Proof. by intros [-> | ->]. Qed.

Lemma is_word_app (w1 w2 : jsstring) :
  is_word (w1 ++ w2) ↔ is_word w1 ∧ is_word w2.
Proof. apply Forall_app. Qed.

Lemma is_word_paren_free (w : jsstring) : is_word w → paren_free w.
Proof. intros H. eapply Forall_impl; [done|]. by intros c ->. Qed.

Lemma paren_free_app (cs1 cs2 : jsstring) :
  paren_free (cs1 ++ cs2) ↔ paren_free cs1 ∧ paren_free cs2.
Proof. apply Forall_app. Qed.

Lemma paren_free_cons (c : ascii) (cs : jsstring) :
  paren_free (c :: cs) ↔
    (classify c ≠ COpen ∧ classify c ≠ CClose) ∧ paren_free cs.
Proof. unfold paren_free. by rewrite Forall_cons. Qed.

Lemma paren_free_to_string (op : TangularOperator.t) :
  paren_free (TangularOperator.to_string op).
Proof. destruct op; repeat constructor; done. Qed.

(** ** Lemmas: the cases of the switch, branch by branch *)

Section cases.
Context (w : jsstring) (io : option TangularInstruction.t).
Context (vs : list node) (op0 : TangularOperator.t) (ix : nat).

(** The state the branches are stated on. *)
#[local] Abbreviation st := (mkPstate w io (TangularCondition.mk vs op0 ix)).

Lemma finish_empty (c : condition) :
  finish (mkPstate [] io c) = NCondition c.
Proof. done. Qed.

Lemma finish_leaf :
  w ≠ [] → op0 = NONE → finish st = pending_leaf st.
Proof.
  intros Hw E. unfold finish. simpl. rewrite decide_False by done.
  by rewrite decide_True.
Qed.

Lemma finish_pending :
  w ≠ [] → op0 ≠ NONE →
  finish st = NCondition (TangularCondition.mk (vs ++ [pending_leaf st]) op0 ix).
Proof.
  intros Hw Hop. unfold finish. simpl. by rewrite !decide_False.
Qed.

Lemma on_logic_flat (op : TangularOperator.t) (i : nat) :
  w ≠ [] → op0 = NONE ∨ op0 = op →
  on_logic op i st = mkPstate [] io (TangularCondition.mk (vs ++ [NString w]) op i).
Proof.
  intros Hw Hop. unfold on_logic. simpl.
  rewrite (decide_False (P := w = [])) by done. simpl. by rewrite decide_True.
Qed.

Lemma on_logic_switch (op : TangularOperator.t) (i : nat) :
  w ≠ [] → op0 ≠ NONE → op0 ≠ op →
  on_logic op i st =
    mkPstate [] io
      (TangularCondition.mk
         [NCondition (TangularCondition.mk (vs ++ [NString w]) op0 ix)] op i).
Proof.
  intros Hw Hop Hne. unfold on_logic. simpl.
  rewrite (decide_False (P := w = [])) by done. simpl.
  rewrite decide_False; [done|]. by intros [?|?].
Qed.

Lemma on_logic_no_word_flat (op : TangularOperator.t) (i : nat) :
  op0 = NONE ∨ op0 = op →
  on_logic op i (mkPstate [] io (TangularCondition.mk vs op0 ix)) =
    mkPstate [] io (TangularCondition.mk vs op i).
Proof. intros Hop. unfold on_logic. simpl. by rewrite decide_True. Qed.

End cases.

(** ** Lemmas: the reference fold *)

Lemma run_app (i : nat) (cs1 cs2 : jsstring) (st : pstate) :
  run i (cs1 ++ cs2) st = run (i + length cs1) cs2 (run i cs1 st).
Proof.
  revert i st. induction cs1 as [|c cs1 IH]; intros i st; simpl.
  - by rewrite Nat.add_0_r.
  - rewrite IH. f_equal. lia.
Qed.

Lemma run_word (i : nat) (w : jsstring) (st : pstate) :
  is_word w → run i w st = after_word w i st.
Proof.
  revert i st. induction w as [|c w IH]; intros i st Hw; [done|].
  apply Forall_cons in Hw as [Hc Hw]. simpl. rewrite IH by done.
  unfold step. rewrite Hc. destruct st as [wt io [vs op ix]].
  destruct w as [|c' w]; unfold after_word, on_word, set_index; simpl.
  - do 2 f_equal. lia.
  - rewrite <- app_assoc. do 2 f_equal. lia.
Qed.

Lemma run_compare (i : nat) (c : ascii) (op : TangularOperator.t) (st : pstate) :
  classify c = CCompare op →
  run i [c] st = on_compare op i (set_index i st).
Proof. intros H. simpl. unfold step. by rewrite H. Qed.

Lemma run_logic (i : nat) (c : ascii) (op : TangularOperator.t) (st : pstate) :
  classify c = CLogic op →
  run i [c] st = on_logic op i (set_index i st).
Proof. intros H. simpl. unfold step. by rewrite H. Qed.

(** A word and a combinator, read between two terms: the word becomes one
    more value of the flat condition. *)
Lemma run_word_logic (i : nat) (w : jsstring) (op op0 : TangularOperator.t)
    (vs : list node) (ix : nat) :
  is_word w → w ≠ [] → op = AND ∨ op = OR → op0 = NONE ∨ op0 = op →
  run i (w ++ [logic_char op]) (clean vs op0 ix) =
    clean (vs ++ [NString w]) op (i + length w).
Proof.
  intros Hw Hne Hop Hop0. rewrite run_app, (run_word i w) by done.
  rewrite (run_logic _ _ op) by by apply classify_logic_char.
  destruct w as [|c w]; [done|]. unfold on_logic, clean. simpl.
  rewrite decide_True by done. done.
Qed.

(** Words joined by one combinator, read between two terms: all but the
    last are values of the flat condition, the last is the pending word. *)
Lemma run_join (op : TangularOperator.t) (ws : list jsstring) (w : jsstring) :
  op = AND ∨ op = OR → Forall is_word (ws ++ [w]) → Forall (λ w, w ≠ []) (ws ++ [w]) →
  ∀ i vs op0 ix, op0 = NONE ∨ op0 = op →
  run i (js_join (logic_char op) (ws ++ [w])) (clean vs op0 ix) =
    {| wordTmp := w;
       instructionObject := None;
       conditionsObject :=
         TangularCondition.mk (vs ++ (NString <$> ws))
           (match ws with [] => op0 | _ => op end)
           (i + length (js_join (logic_char op) (ws ++ [w])) - 1) |}.
Proof.
  intros Hop. induction ws as [|w1 ws IH]; intros Hw Hne i vs op0 ix Hop0.
  - simpl in *. apply Forall_inv in Hw, Hne. rewrite run_word by done.
    destruct w; [done|]. by rewrite app_nil_r.
  - apply Forall_cons in Hw as [Hw1 Hw], Hne as [Hne1 Hne].
    replace (js_join (logic_char op) ((w1 :: ws) ++ [w]))
      with ((w1 ++ [logic_char op]) ++ js_join (logic_char op) (ws ++ [w])).
    2:{ simpl. destruct (ws ++ [w]) eqn:E; [by destruct ws|].
        by rewrite <- app_assoc. }
    rewrite run_app, run_word_logic by done.
    rewrite IH by auto. rewrite <- app_assoc. simpl.
    f_equal. f_equal; [by destruct ws|len].
Qed.

(** A word and the characters of a comparison operator, read between two
    terms: the instruction is open with the word as its left value. *)
Lemma run_comparison (i : nat) (l : jsstring) (cop op0 : TangularOperator.t)
    (vs : list node) (ix : nat) :
  is_word l → TangularOperator.is_comparison cop = true →
  run i (l ++ TangularOperator.to_string cop) (clean vs op0 ix) =
    {| wordTmp := [];
       instructionObject :=
         Some (TangularInstruction.mk (Some l) None cop (i + length l));
       conditionsObject :=
         TangularCondition.mk vs op0
           (i + length (l ++ TangularOperator.to_string cop) - 1) |}.
Proof.
  intros Hl Hcop. rewrite run_app, (run_word i l) by done.
  destruct l as [|c l]; destruct cop; try done; unfold clean; simpl;
    unfold step, on_compare, set_index; simpl;
    repeat f_equal; len.
Qed.

(** ** Lemmas: the loop *)

(** One iteration, on the character that follows [pre]. *)
Lemma loop_char (fuel : nat) (pre post : jsstring) (c : ascii) (st : pstate) :
  loop (S fuel) (pre ++ c :: post) (length pre) st =
    let conditions := pre ++ c :: post in
    let i := length pre in
    let st := set_index i st in
    match classify c with
    | CClose => Some (finish st)
    | COpen =>
        rec ← loop fuel conditions (i + 1) initial;
        match node_index rec with
        | Some j => loop fuel conditions (j + 1) (on_open rec st)
        | None => Some (finish (on_open rec st))
        end
    | CLogic op => loop fuel conditions (i + 1) (on_logic op i st)
    | CCompare op => loop fuel conditions (i + 1) (on_compare op i st)
    | CWord => loop fuel conditions (i + 1) (on_word c st)
    end.
Proof. simpl. by rewrite lookup_app_length. Qed.

(** Past the end of the header the loop ends. *)
Lemma loop_end (fuel : nat) (conditions : jsstring) (i : nat) (st : pstate) :
  length conditions ≤ i →
  loop (S fuel) conditions i st = Some (finish st).
Proof. intros H. simpl. by rewrite lookup_ge_None_2. Qed.

(** More fuel does not change a result. *)
Lemma loop_mono (fuel fuel' : nat) (conditions : jsstring) (i : nat)
    (st : pstate) (r : node) :
  loop fuel conditions i st = Some r → fuel ≤ fuel' →
  loop fuel' conditions i st = Some r.
Proof.
  revert fuel' i st r. induction fuel as [|fuel IH]; intros fuel' i st r; [done|].
  intros H Hle. destruct fuel' as [|fuel']; [lia|].
  assert (fuel ≤ fuel') as Hle' by lia. simpl in *.
  destruct (conditions !! i) as [c|]; [|done].
  destruct (classify c); eauto.
  destruct (loop fuel conditions (i + 1) initial) as [rec|] eqn:E; [|done].
  rewrite (IH _ _ _ _ E Hle'). simpl in *.
  destruct (node_index rec); eauto.
Qed.

(** On characters that are not parentheses the loop is the fold [run]. *)
Lemma loop_run (fuel : nat) (pre cs post : jsstring) (st : pstate) :
  paren_free cs →
  loop (length cs + fuel) (pre ++ cs ++ post) (length pre) st =
    loop fuel (pre ++ cs ++ post) (length pre + length cs)
      (run (length pre) cs st).
Proof.
  revert pre st. induction cs as [|c cs IH]; intros pre st Hcs.
  - simpl. by rewrite Nat.add_0_r.
  - apply paren_free_cons in Hcs as [[Ho Hc] Hcs].
    change (length (c :: cs) + fuel) with (S (length cs + fuel)).
    change (pre ++ (c :: cs) ++ post) with (pre ++ c :: (cs ++ post)).
    rewrite loop_char. simpl.
    replace (pre ++ c :: cs ++ post) with ((pre ++ [c]) ++ cs ++ post)
      by (by rewrite <- app_assoc).
    replace (length pre + 1) with (length (pre ++ [c])) by len.
    replace (length pre + S (length cs)) with (length (pre ++ [c]) + length cs)
      by len.
    replace (S (length pre)) with (length (pre ++ [c])) by len.
    unfold step.
    destruct (classify c); try done; by rewrite IH.
Qed.

(** The same from the start of a header. *)
Lemma loop_run_prefix (fuel : nat) (cs post : jsstring) (st : pstate) :
  paren_free cs →
  loop (length cs + fuel) (cs ++ post) 0 st =
    loop fuel (cs ++ post) (length cs) (run 0 cs st).
Proof. intros H. exact (loop_run fuel [] cs post st H). Qed.

Lemma loop_run_all (fuel : nat) (cs : jsstring) (st : pstate) :
  paren_free cs →
  loop (length cs + fuel) cs 0 st = loop fuel cs (length cs) (run 0 cs st).
Proof.
  intros H. pose proof (loop_run_prefix fuel cs [] st H) as E.
  by rewrite app_nil_r in E.
Qed.

(** ** Lemmas: termination *)

Lemma classify_open (c : ascii) : classify c = COpen → c = "("%char.
Proof.
  unfold classify. case_ascii_eqb; try done.
Qed.

(** An opening parenthesis that is not the last character has a successor. *)
Lemma open_not_last (conditions : jsstring) (i : nat) (c : ascii) :
  last conditions ≠ Some "("%char →
  conditions !! i = Some c → classify c = COpen →
  i + 1 < length conditions.
Proof.
  intros Hlast Hi ->%classify_open.
  pose proof (lookup_lt_Some _ _ _ Hi).
  destruct (decide (i + 1 = length conditions)) as [E|]; [|lia].
  destruct Hlast. rewrite last_lookup.
  by replace (pred (length conditions)) with i by lia.
Qed.

(** What [finish] returns carries an index of the state. *)
Lemma finish_index_ge (p : nat) (st : pstate) (j : nat) :
  (∀ io, instructionObject st = Some io → p ≤ TangularInstruction.index io) →
  p ≤ TangularCondition.index (conditionsObject st) →
  node_index (finish st) = Some j → p ≤ j.
Proof.
  intros Hio Hc. unfold finish, pending_leaf.
  repeat case_decide; destruct (instructionObject st) as [io|] eqn:E;
    simpl; intros [= <-]; auto.
Qed.

(** The index of what the loop returns is not before the index [p] the
    method was entered at, unless the loop did not run at all. *)
Lemma loop_index_ge (fuel : nat) (conditions : jsstring) (p i : nat)
    (st : pstate) (r : node) (j : nat) :
  last conditions ≠ Some "("%char →
  p ≤ i →
  (∀ io, instructionObject st = Some io → p ≤ TangularInstruction.index io) →
  (i < length conditions ∨ p ≤ TangularCondition.index (conditionsObject st)) →
  loop fuel conditions i st = Some r → node_index r = Some j → p ≤ j.
Proof.
  intros Hlast. revert p i st r j.
  induction fuel as [|fuel IH]; intros p i st r j Hpi Hio Hc; [done|]. simpl.
  destruct (conditions !! i) as [c|] eqn:Ei.
  2:{ apply lookup_ge_None in Ei. intros [= <-].
      apply finish_index_ge; [auto|]. destruct Hc; [lia|done]. }
  destruct (classify c) eqn:Ec.
  - intros [= <-]. apply finish_index_ge; simpl; auto.
  - destruct (loop fuel conditions (i + 1) initial) as [rec|] eqn:Er; [|done].
    simpl. destruct (node_index rec) as [j'|] eqn:Ej.
    + assert (i + 1 ≤ j').
      { apply (IH (i + 1) (i + 1) initial rec j'); [done|by intros io [=]|left|done|done].
        by eapply open_not_last. }
      apply IH; [lia|auto|right; simpl; lia].
    + intros [= <-]. apply finish_index_ge; [auto|simpl; lia].
  - apply IH; [lia|auto|right; simpl; lia].
  - apply IH; [lia| |right; simpl; lia].
    simpl. intros io [= <-]. simpl.
    destruct (instructionObject st) as [io|] eqn:E; simpl; auto.
  - apply IH; [lia|auto|right; simpl; lia].
Qed.

(** The loop returns when the header does not end in an opening
    parenthesis: one unit of fuel per remaining character, and one. *)
Lemma loop_terminates (fuel : nat) (conditions : jsstring) (i : nat)
    (st : pstate) :
  last conditions ≠ Some "("%char →
  length conditions - i < fuel →
  is_Some (loop fuel conditions i st).
Proof.
  intros Hlast. revert i st.
  induction fuel as [|fuel IH]; intros i st Hfuel; [lia|]. simpl.
  destruct (conditions !! i) as [c|] eqn:Ei; [|done].
  pose proof (lookup_lt_Some _ _ _ Ei).
  destruct (classify c) eqn:Ec; try (apply IH; lia); [done|].
  destruct (IH (i + 1) initial) as [rec Er]; [lia|]. rewrite Er. simpl.
  destruct (node_index rec) as [j|] eqn:Ej; [|done].
  apply IH. enough (i + 1 ≤ j) by lia.
  eapply (loop_index_ge fuel conditions (i + 1)); eauto.
  - by intros io [=].
  - left. by eapply open_not_last.
Qed.

(** The result of the loop does not depend on the fuel. *)
Lemma parses_det (conditions : jsstring) (i : nat) (st : pstate) (r r' : node) :
  parses conditions i st r → parses conditions i st r' → r = r'.
Proof.
  intros [f Hf] [f' Hf'].
  apply (loop_mono _ (f + f')) in Hf; [|lia].
  apply (loop_mono _ (f + f')) in Hf'; [|lia]. congruence.
Qed.

(** ** Theorems: the promotion table *)

(** The characters of every comparison operator, read one after the
    other as the loop reads them, compose into that operator: [=], [==],
    [===], [<], [<=], [>], [>=], [!], [!=], [!==]. *)
Theorem compose_operator_to_string (op : TangularOperator.t) :
  TangularOperator.is_comparison op = true →
  compose_operator (TangularOperator.to_string op) = op.
Proof. by destruct op. Qed.

Lemma compose_operator_to_string_witness :
  compose_operator (str "!==") = STRICT_NOT_EQUAL.
Proof. exact (compose_operator_to_string STRICT_NOT_EQUAL eq_refl). Defined.

(** The promotion of lines 169-175 tests the operator accumulated so
    far and not the character read: after [<], [>], [=], [==], [!] or [!=],
    any comparison character gives the same promoted operator, so [<>] is
    read as [<=] and [=<] as [==]. *)
Theorem promote_ignores_character (op c c' : TangularOperator.t) :
  op ∈ [EQUAL; DOUBLE_EQUAL; LESS_THAN; GREATER_THAN; NOT; NOT_EQUAL] →
  promote op c = promote op c'.
Proof.
  rewrite !elem_of_cons, elem_of_nil.
  intros [->|[->|[->|[->|[->|[->|[]]]]]]]; done.
Qed.

Lemma promote_ignores_character_witness :
  promote LESS_THAN GREATER_THAN = promote LESS_THAN EQUAL.
Proof.
  apply (promote_ignores_character LESS_THAN GREATER_THAN EQUAL).
  do 2 right. left.
Defined.

(** ** Theorems: the loop and its reference *)

(** On a header without parentheses [_processConditionBuild] is the left
    fold [run] of the transitions of its loop, closed by [finish]: the
    rewriting step of the theorems on the headers of a given shape. *)
Lemma processConditionBuild_paren_free (conditions : jsstring) :
  paren_free conditions →
  _processConditionBuild (enough_fuel conditions) conditions 0 =
    Some (finish (run 0 conditions initial)).
Proof.
  intros H. unfold _processConditionBuild, enough_fuel.
  replace (S (length conditions)) with (length conditions + 1) by lia.
  by rewrite loop_run_all, loop_end.
Qed.

(** C11: [_processConditionBuild] returns on every header that does not
    end in an opening parenthesis, from every position: no chain of turns
    of its loop and of recursive calls is longer than
    [length conditions + 1], the fuel that the model gives it (the turns of
    the calls that have returned are not counted in it). *)
Theorem processConditionBuild_terminates (conditions : jsstring) (position : nat) :
  last conditions ≠ Some "("%char →
  is_Some (_processConditionBuild (enough_fuel conditions) conditions position).
Proof.
  intros H. apply loop_terminates; [done|]. unfold enough_fuel. lia.
Qed.

Lemma processConditionBuild_terminates_witness :
  is_Some (_processConditionBuild (enough_fuel (str "((a&b)|c)")) (str "((a&b)|c)") 0).
Proof. apply (processConditionBuild_terminates (str "((a&b)|c)") 0). by vm_compute. Defined.

(** [_processConditionBuild] does not return on a header made of a
    word and an opening parenthesis, such as [a(]: the recursive call at
    the end of the header returns a condition of index [0], the loop goes
    back to index [1] and reads the parenthesis again, for ever. *)
Lemma processConditionBuild_diverges (w : jsstring) (fuel : nat) :
  w ≠ [] → is_word w →
  _processConditionBuild fuel (w ++ str "(") 0 = None.
Proof.
  intros Hne Hw. destruct w as [|c w]; [done|]. clear Hne.
  apply Forall_cons in Hw as [Hc Hw].
  enough (∀ fuel st, loop fuel ([c] ++ w ++ str "(") 1 st = None) as Hloop.
  { destruct fuel as [|fuel]; [done|]. unfold _processConditionBuild.
    change ((c :: w) ++ str "(") with ([] ++ c :: (w ++ str "(")).
    rewrite loop_char. simpl. rewrite Hc. apply Hloop. }
  clear fuel. intros fuel.
  induction (lt_wf fuel) as [fuel _ IH]. intros st.
  destruct (loop fuel _ 1 st) as [r|] eqn:E; [exfalso|done].
  apply (loop_mono _ (length w + fuel)) in E; [|lia].
  pose proof (loop_run fuel [c] w (str "(") st (is_word_paren_free _ Hw)) as R.
  change (length [c]) with 1 in R. rewrite R in E. clear R.
  destruct fuel as [|fuel]; [done|].
  change ([c] ++ w ++ str "(") with ((c :: w) ++ "("%char :: []) in E.
  change (1 + length w) with (length (c :: w)) in E.
  rewrite loop_char in E. cbv zeta in E. cbn [classify Ascii.eqb Bool.eqb] in E.
  destruct fuel as [|fuel]; [done|].
  rewrite loop_end in E by len. cbn [mbind option_bind] in E.
  change (node_index (finish initial)) with (Some 0) in E. cbv iota beta in E.
  change ((c :: w) ++ ["("%char]) with ([c] ++ w ++ str "(") in E.
  by rewrite (IH (S fuel)) in E by lia.
Qed.

(** ** Theorems: the trees of the common headers *)

Lemma paren_free_join (op : TangularOperator.t) (ws : list jsstring) :
  op = AND ∨ op = OR → Forall is_word ws →
  paren_free (js_join (logic_char op) ws).
Proof.
  intros Hop. induction 1 as [|w ws Hw Hws IH]; [constructor|].
  simpl. destruct ws as [|w' ws]; [by apply is_word_paren_free|].
  apply paren_free_app. split; [by apply is_word_paren_free|].
  apply paren_free_cons. split; [|done].
  by destruct Hop as [-> | ->].
Qed.

(** C26: a comparison [l op r] between two words is parsed into one
    instruction leaf: [l] as left value, [r] as right value, the operator
    composed from its characters, and the index of its first character as
    index. *)
Theorem parse_comparison (l r : jsstring) (cop : TangularOperator.t) :
  is_word l → is_word r → r ≠ [] →
  TangularOperator.is_comparison cop = true →
  _processConditionBuild
    (enough_fuel (l ++ TangularOperator.to_string cop ++ r))
    (l ++ TangularOperator.to_string cop ++ r) 0 =
  Some (comparison_leaf l cop r (length l)).
Proof.
  intros Hl Hr Hne Hcop. rewrite processConditionBuild_paren_free.
  2:{ rewrite !paren_free_app.
      eauto using is_word_paren_free, paren_free_to_string. }
  rewrite app_assoc, run_app.
  change initial with (clean [] NONE 0). rewrite run_comparison by done.
  rewrite run_word by done. destruct r as [|c r]; [done|]. done.
Qed.

Lemma parse_comparison_witness :
  _processConditionBuild 9 (str "name!==b") 0 =
    Some (comparison_leaf (str "name") STRICT_NOT_EQUAL (str "b") 4).
Proof.
  refine (parse_comparison (str "name") (str "b") STRICT_NOT_EQUAL _ _ _ _);
    [by_compute | by_compute | done | done].
Defined.

(** C27: words joined by one combinator ([a & b & c]) are parsed into one
    flat node under that combinator, with the words in their order as
    values and the index of the last character as index. *)
Theorem parse_flat (op : TangularOperator.t) (ws : list jsstring) (w : jsstring) :
  op = AND ∨ op = OR → ws ≠ [] →
  Forall is_word (ws ++ [w]) → Forall (λ w, w ≠ []) (ws ++ [w]) →
  _processConditionBuild
    (enough_fuel (js_join (logic_char op) (ws ++ [w])))
    (js_join (logic_char op) (ws ++ [w])) 0 =
  Some (flat_node (ws ++ [w]) op
          (length (js_join (logic_char op) (ws ++ [w])) - 1)).
Proof.
  intros Hop Hws Hw Hne.
  rewrite processConditionBuild_paren_free by by apply paren_free_join.
  change initial with (clean [] NONE 0). rewrite run_join by auto.
  assert (w ≠ []) as Hw' by (by apply Forall_app in Hne as [_ ?%Forall_inv]).
  destruct ws as [|w1 ws]; [done|].
  rewrite finish_pending; [|done|by destruct Hop as [-> | ->]].
  unfold flat_node, pending_leaf. simpl. by rewrite fmap_app.
Qed.

Lemma parse_flat_witness :
  _processConditionBuild 6 (str "a&b&c") 0 =
    Some (flat_node [str "a"; str "b"; str "c"] AND 4).
Proof.
  refine (parse_flat AND [str "a"; str "b"] (str "c") _ _ _ _);
    [by left | done | by_compute | by_compute].
Defined.

(** C28: the combinators have no precedence: when the combinator changes,
    what was parsed so far becomes the first value of a new node under the
    new combinator, so [a & b | c] is [(a & b) | c] and [a | b & c] is
    [(a | b) & c]. *)
Theorem parse_no_precedence (op op' : TangularOperator.t)
    (ws : list jsstring) (w w' : jsstring) :
  op = AND ∨ op = OR → op' = AND ∨ op' = OR → op ≠ op' → ws ≠ [] →
  Forall is_word (ws ++ [w]) → Forall (λ w, w ≠ []) (ws ++ [w]) →
  is_word w' → w' ≠ [] →
  let first := js_join (logic_char op) (ws ++ [w]) in
  let conditions := first ++ logic_char op' :: w' in
  _processConditionBuild (enough_fuel conditions) conditions 0 =
  Some (NCondition (TangularCondition.mk
          [flat_node (ws ++ [w]) op (length first); NString w']
          op' (length conditions - 1))).
Proof.
  intros Hop Hop' Hneq Hws Hw Hne Hw' Hne' first conditions.
  rewrite processConditionBuild_paren_free.
  2:{ apply paren_free_app. split; [by apply paren_free_join|].
      apply paren_free_cons. split; [|by apply is_word_paren_free].
      by destruct Hop' as [-> | ->]. }
  unfold conditions. rewrite run_app. fold first.
  change initial with (clean [] NONE 0). unfold first at 2.
  rewrite run_join by auto. fold first.
  change (logic_char op' :: w') with ([logic_char op'] ++ w').
  rewrite run_app, (run_logic _ _ op') by by apply classify_logic_char.
  rewrite run_word by done.
  assert (w ≠ []) as Hw1 by (by apply Forall_app in Hne as [_ ?%Forall_inv]).
  destruct ws as [|w1 ws]; [done|]. unfold set_index. simpl.
  rewrite on_logic_switch; [|done|by destruct Hop as [-> | ->]|done].
  destruct w' as [|c' w']; [done|]. unfold after_word, set_index. simpl.
  rewrite finish_pending; [|done|by destruct Hop' as [-> | ->]].
  unfold flat_node, pending_leaf. simpl. rewrite fmap_app. simpl.
  do 3 f_equal. unfold conditions. len.
Qed.

Lemma parse_no_precedence_witness :
  _processConditionBuild 6 (str "a&b|c") 0 =
    Some (NCondition (TangularCondition.mk
            [flat_node [str "a"; str "b"] AND 3; NString (str "c")] OR 4)).
Proof.
  refine (parse_no_precedence AND OR [str "a"] (str "b") (str "c")
            _ _ _ _ _ _ _ _);
    [by left | by right | done | done | by_compute | by_compute
    | by_compute | done].
Defined.

(** C30: at a combinator only the pending word is stored; an instruction
    that is open stays open.  A comparison followed by a combinator and a
    word, [l op r & w], is therefore parsed into the node of the two values
    [r] and [l op w]: the right value of the comparison is replaced by the
    last word. *)
Theorem parse_comparison_then_logic (l r w : jsstring)
    (cop op : TangularOperator.t) :
  is_word l → is_word r → r ≠ [] → is_word w → w ≠ [] →
  TangularOperator.is_comparison cop = true → op = AND ∨ op = OR →
  let conditions :=
    (l ++ TangularOperator.to_string cop) ++ r ++ logic_char op :: w in
  _processConditionBuild (enough_fuel conditions) conditions 0 =
  Some (NCondition (TangularCondition.mk
          [NString r; comparison_leaf l cop w (length l)]
          op (length conditions - 1))).
Proof.
  intros Hl Hr Hner Hw Hnew Hcop Hop conditions.
  rewrite processConditionBuild_paren_free.
  2:{ unfold conditions. rewrite !paren_free_app, paren_free_cons.
      destruct Hop as [-> | ->];
        eauto 10 using is_word_paren_free, paren_free_to_string. }
  unfold conditions. rewrite run_app.
  change initial with (clean [] NONE 0). rewrite run_comparison by done.
  rewrite run_app, (run_word _ r) by done.
  change (logic_char op :: w) with ([logic_char op] ++ w).
  rewrite run_app, (run_logic _ _ op) by by apply classify_logic_char.
  rewrite run_word by done.
  destruct r as [|cr r]; [done|]. unfold after_word, set_index. simpl.
  rewrite on_logic_flat; [|done|by left].
  destruct w as [|cw w]; [done|]. unfold after_word, set_index. simpl.
  rewrite finish_pending; [|done|by destruct Hop as [-> | ->]].
  unfold comparison_leaf, pending_leaf, set_rightValue. simpl.
  do 3 f_equal. unfold conditions. len.
Qed.

Lemma parse_comparison_then_logic_witness :
  _processConditionBuild 8 (str "a===b&c") 0 =
    Some (NCondition (TangularCondition.mk
            [NString (str "b"); comparison_leaf (str "a") STRICT_EQUAL (str "c") 1]
            AND 6)).
Proof.
  refine (parse_comparison_then_logic (str "a") (str "b") (str "c")
            STRICT_EQUAL AND _ _ _ _ _ _ _);
    [by_compute | by_compute | done | by_compute | done | done | by left].
Defined.

(** ** Theorems: parentheses *)

(** From here on the loop is unfolded by its equations [loop_char] and
    [loop_end] only. *)
Arguments loop : simpl never.

(** What [finish] returns as a condition has the index of the state. *)
Lemma finish_condition_index (st : pstate) (c : condition) :
  finish st = NCondition c →
  TangularCondition.index c = TangularCondition.index (conditionsObject st).
Proof.
  unfold finish, pending_leaf. repeat case_decide; try by intros [= <-].
  by destruct (instructionObject st).
Qed.

(** The recursive call on a group without inner parentheses returns at the
    closing parenthesis what the fold leaves. *)
Lemma loop_inner (fuel : nat) (pre cs post : jsstring) :
  paren_free cs →
  loop (length cs + S fuel) (pre ++ "("%char :: cs ++ ")"%char :: post)
    (length pre + 1) initial =
  Some (finish (set_index (length pre + 1 + length cs)
                  (run (length pre + 1) cs initial))).
Proof.
  intros Hcs.
  pose proof (loop_run (S fuel) (pre ++ ["("%char]) cs (")"%char :: post)
                initial Hcs) as E.
  rewrite <- app_assoc, length_app in E. simpl in E. rewrite E. clear E.
  replace (pre ++ "("%char :: cs ++ ")"%char :: post)
    with ((pre ++ "("%char :: cs) ++ ")"%char :: post)
    by (by rewrite <- app_assoc).
  replace (length pre + 1 + length cs) with (length (pre ++ "("%char :: cs))
    by len.
  by rewrite loop_char.
Qed.

(** A group whose content parses to a condition: the condition becomes one
    value and the loop goes on after the closing parenthesis. *)
Lemma loop_group (fuel : nat) (pre cs post : jsstring) (st : pstate)
    (c : condition) :
  paren_free cs →
  finish (set_index (length pre + 1 + length cs)
            (run (length pre + 1) cs initial)) = NCondition c →
  length cs < fuel →
  loop (S fuel) (pre ++ "("%char :: cs ++ ")"%char :: post) (length pre) st =
    loop fuel (pre ++ "("%char :: cs ++ ")"%char :: post)
      (length pre + length cs + 2)
      (on_open (NCondition c) (set_index (length pre) st)).
Proof.
  intros Hcs Hc Hfuel. rewrite loop_char. cbv zeta.
  change (classify "(") with COpen. cbv iota.
  replace fuel with (length cs + S (fuel - length cs - 1)) at 1 by lia.
  rewrite loop_inner, Hc by done. simpl.
  rewrite (finish_condition_index _ _ Hc). simpl. f_equal. lia.
Qed.

(** A group whose content is one word: the recursive call returns the
    word, a string, whose [index] is [undefined]; the loop variable becomes
    [NaN] and the loop ends. *)
Lemma loop_group_word (fuel : nat) (pre w post : jsstring) (st : pstate) :
  is_word w → w ≠ [] → length w < fuel →
  loop (S fuel) (pre ++ "("%char :: w ++ ")"%char :: post) (length pre) st =
    Some (finish (on_open (NString w) (set_index (length pre) st))).
Proof.
  intros Hw Hne Hfuel. rewrite loop_char. cbv zeta.
  change (classify "(") with COpen. cbv iota.
  replace fuel with (length w + S (fuel - length w - 1)) at 1 by lia.
  rewrite loop_inner by by apply is_word_paren_free.
  rewrite run_word by done. destruct w as [|cw w]; [done|].
  unfold after_word, initial, set_index. simpl.
  by rewrite finish_leaf.
Qed.

(** C29: parentheses group to the right: in [w | (a & b)] the group is
    parsed by the recursive call into one flat node, which becomes the
    second value of the node of the outer combinator. *)
Theorem parse_group_right (op op' : TangularOperator.t)
    (ws : list jsstring) (w w' : jsstring) :
  op = AND ∨ op = OR → op' = AND ∨ op' = OR → ws ≠ [] →
  Forall is_word (ws ++ [w]) → Forall (λ w, w ≠ []) (ws ++ [w]) →
  is_word w' → w' ≠ [] →
  let group := js_join (logic_char op) (ws ++ [w]) in
  let conditions := (w' ++ [logic_char op']) ++ "("%char :: group ++ [")"%char] in
  _processConditionBuild (enough_fuel conditions) conditions 0 =
  Some (NCondition (TangularCondition.mk
          [NString w'; flat_node (ws ++ [w]) op (length conditions - 1)]
          op' (length w' + 1))).
Proof.
  intros Hop Hop' Hws Hw Hne Hw' Hne' group conditions.
  assert (paren_free group) as Hgroup by by apply paren_free_join.
  assert (paren_free (w' ++ [logic_char op'])) as Hpre.
  { apply paren_free_app. split; [by apply is_word_paren_free|].
    apply paren_free_cons. split; [|constructor].
    by destruct Hop' as [-> | ->]. }
  unfold _processConditionBuild, enough_fuel.
  replace (S (length conditions))
    with (length (w' ++ [logic_char op']) + S (S (S (length group))))
    by (unfold conditions; len).
  unfold conditions. rewrite loop_run_prefix by done.
  change initial with (clean [] NONE 0) at 1.
  rewrite (run_word_logic 0 w' op' NONE) by auto.
  assert (finish (set_index (length (w' ++ [logic_char op']) + 1 + length group)
            (run (length (w' ++ [logic_char op']) + 1) group initial))
          = flat_node (ws ++ [w]) op
              (length (w' ++ [logic_char op']) + 1 + length group)) as Hin.
  { change initial with (clean [] NONE 0). unfold group at 2.
    rewrite run_join by auto. fold group.
    assert (w ≠ []) by (by apply Forall_app in Hne as [_ ?%Forall_inv]).
    destruct ws as [|w1 ws]; [done|]. unfold set_index. simpl.
    rewrite finish_pending; [|done|by destruct Hop as [-> | ->]].
    unfold flat_node, pending_leaf. simpl. by rewrite fmap_app. }
  rewrite (loop_group _ _ _ _ _ _ Hgroup Hin) by lia.
  rewrite loop_end by len. unfold on_open, clean, set_index, push_value. simpl.
  rewrite finish_empty. unfold flat_node. repeat f_equal; len.
Qed.

Lemma parse_group_right_witness :
  _processConditionBuild 8 (str "c|(a&b)") 0 =
    Some (NCondition (TangularCondition.mk
            [NString (str "c"); flat_node [str "a"; str "b"] AND 6] OR 2)).
Proof.
  refine (parse_group_right AND OR [str "a"] (str "b") (str "c") _ _ _ _ _ _ _);
    [by left | by right | done | by_compute | by_compute | by_compute | done].
Defined.

(** C31: a group around one word ends the parse: the header [(w)] followed
    by anything is parsed into the node of the single value [w] without a
    combinator, and what follows the group is not read. *)
Theorem parse_group_word_stops (w rest : jsstring) :
  is_word w → w ≠ [] →
  let conditions := "("%char :: w ++ ")"%char :: rest in
  _processConditionBuild (enough_fuel conditions) conditions 0 =
  Some (NCondition (TangularCondition.mk [NString w] NONE 0)).
Proof.
  intros Hw Hne conditions. unfold _processConditionBuild, enough_fuel.
  apply (loop_group_word (length conditions) [] w rest initial Hw Hne).
  unfold conditions. len.
Qed.

Lemma parse_group_word_stops_witness :
  _processConditionBuild 6 (str "(a)&b") 0 =
    Some (NCondition (TangularCondition.mk [NString (str "a")] NONE 0)).
Proof.
  refine (parse_group_word_stops (str "a") (str "&b") _ _); [by_compute | done].
Defined.

(** ** Theorems: the header of a loop *)

(** [_processForeachBuild] keeps the first and the third piece of the
    header split at its spaces, whatever the second piece is: on
    [v in e] the loop variable is [v] and the collection expression [e],
    and [v of e] or [v xx e] give the same node. *)
Theorem processForeachBuild_three_tokens (v m e : jsstring) :
  " "%char ∉ v → " "%char ∉ m → " "%char ∉ e →
  _processForeachBuild (v ++ " "%char :: m ++ " "%char :: e) =
    TangularCondition.mk [NString v; NString e] IN 0.
Proof.
  intros Hv Hm He. unfold _processForeachBuild.
  by rewrite !js_split_word, js_split_plain.
Qed.

Lemma processForeachBuild_three_tokens_witness :
  _processForeachBuild (str "m in orders") =
    TangularCondition.mk [NString (str "m"); NString (str "orders")] IN 0.
Proof.
  refine (processForeachBuild_three_tokens (str "m") (str "in") (str "orders") _ _ _);
    by_compute.
Defined.
