(* ===== verification/Whitespace.v ===== *)
(** * Whitespace: the three regular-expression replacements on white space

    [_trim] (lines 86-88 of [src/lib/tangular.ts]), [_unspace] (lines 90-92)
    and the removal of blank lines that [compile] applies to a rendered
    text (line 631).  Each is a [String.prototype.replace] with a global
    regular expression; the function given here is what the matching of
    that expression computes, written as one pass over the string:

    - [/\s/gm] matches every white-space character;
    - [/(\s\t|\t\s|\s\s|\t\t)+/gm] matches, from the first of two adjacent
      white-space characters, the longest sequence of pairs of white-space
      characters (every alternative is a pair of them, and [\s\s] is any
      such pair);
    - [/^\s*[\r\n]/gm] matches, from the start of a line, the white space up
      to the last line terminator of the run of white space that starts
      there. *)

From Stdlib Require Import Ascii String ZArith Lia.
From stdpp Require Import base tactics list option strings.
From S2P Require Import Prelude JsString.

(** ** Definitions *)

(** [_unspace], lines 90-92: [str.replace(/\s/gm, '')]. *)
Definition _unspace (s : jsstring) : jsstring :=
  filter (λ c, is_space c = false) s.

(** Where the scan of [_trim] is in a run of white space: outside of one;
    after one character [w] of it, not matched yet; inside a match, after
    an even number of characters; inside a match, one character [w] after
    an even number. *)
Inductive trim_state : Type :=
| Outside
| One (w : ascii)
| Even
| Odd (w : ascii).

(** The characters that the scan still owes when the string or the run
    ends. *)
Definition pending (st : trim_state) : jsstring :=
  match st with
  | One w | Odd w => [w]
  | Outside | Even => []
  end.

(** [str.replace(/(\s\t|\t\s|\s\s|\t\t)+/gm, ' ')]: a match is replaced by
    one space when its first pair is read. *)
Fixpoint collapse (st : trim_state) (s : jsstring) : jsstring :=
  match s with
  | [] => pending st
  | c :: s' =>
      if is_space c then
        match st with
        | Outside => collapse (One c) s'
        | One _ => " "%char :: collapse Even s'
        | Even => collapse (Odd c) s'
        | Odd _ => collapse Even s'
        end
      else pending st ++ c :: collapse Outside s'
  end.

(** [_trim], lines 86-88. *)
Definition _trim (s : jsstring) : jsstring := js_trim (collapse Outside s).

(** Whether the run of white space at the head of [s] holds a line
    terminator. *)
Fixpoint run_has_newline (s : jsstring) : bool :=
  match s with
  | [] => false
  | c :: s' => is_space c && (is_line_terminator c || run_has_newline s')
  end.

(** [text.replace(/^\s*[\r\n]/gm, '')], line 631.  [at_start] says that
    the position is the start of a line or inside a match. *)
Fixpoint strip_blank_lines (at_start : bool) (s : jsstring) : jsstring :=
  match s with
  | [] => []
  | c :: s' =>
      if at_start && run_has_newline s then strip_blank_lines true s'
      else c :: strip_blank_lines (is_line_terminator c) s'
  end.

(** What [_trim] leaves of a run of white space between two words: a run
    of one character is kept; of a longer run, one space for its pairs and
    the last character when their number is odd. *)
Fixpoint odd_one (ws : jsstring) : jsstring :=
  match ws with
  | [] => []
  | [w] => [w]
  | _ :: _ :: ws' => odd_one ws'
  end.

Definition collapsed (ws : jsstring) : jsstring :=
  match ws with
  | [] => []
  | [w] => [w]
  | _ :: _ :: ws' => " "%char :: odd_one ws'
  end.

(** Text in which no line starts with white space that reaches a line
    terminator: there is nothing for [strip_blank_lines] to remove. *)
Fixpoint blank_free (at_start : bool) (s : jsstring) : bool :=
  match s with
  | [] => true
  | c :: s' =>
      negb (at_start && run_has_newline s) && blank_free (is_line_terminator c) s'
  end.

(** The carriage return and the line feed. *)
Definition CR : ascii := "013"%char.
Definition LF : ascii := "010"%char.

(** ** Lemmas *)

Lemma unspace_no_space (s : jsstring) : Forall (λ c, is_space c = false) (_unspace s).
Proof. apply Forall_forall. intros c Hc. by apply list_elem_of_filter in Hc as [? _]. Qed.

Lemma unspace_id (s : jsstring) :
  Forall (λ c, is_space c = false) s → _unspace s = s.
Proof.
  induction 1 as [|c s Hc _ IH]; [done|].
  unfold _unspace in *. by rewrite filter_cons_True, IH.
Qed.

Lemma unspace_app (s1 s2 : jsstring) : _unspace (s1 ++ s2) = _unspace s1 ++ _unspace s2.
Proof. apply filter_app. Qed.

Lemma unspace_idemp (s : jsstring) : _unspace (_unspace s) = _unspace s.
Proof. apply unspace_id, unspace_no_space. Qed.

(** A word without white space goes through [collapse] unchanged, after
    what was pending. *)
Lemma collapse_word (st : trim_state) (w rest : jsstring) (c : ascii) :
  Forall (λ c, is_space c = false) (c :: w) →
  collapse st (c :: w ++ rest) = pending st ++ c :: w ++ collapse Outside rest.
Proof.
  intros [Hc Hw]%Forall_cons. simpl. rewrite Hc. do 2 f_equal.
  clear c Hc. induction Hw as [|c w Hc _ IH]; [done|].
  simpl. by rewrite Hc, IH.
Qed.

(** Pairs of spaces read inside a match leave no trace. *)
Lemma collapse_pairs (k : nat) (c : ascii) (rest : jsstring) :
  is_space c = false →
  collapse Even (concat (replicate k (str "  ")) ++ c :: rest) =
    c :: collapse Outside rest
  ∧ collapse (Odd " ") (concat (replicate k (str "  ")) ++ c :: rest) =
    " "%char :: c :: collapse Outside rest.
Proof.
  intros Hc. induction k as [|k [IH1 IH2]]; [by simpl; rewrite Hc|].
  cbn [replicate concat]. rewrite <- !(assoc_L (++)). by split.
Qed.

(** A run of [2 * k + 3] spaces between two words is collapsed to two
    spaces, and a run of [2 * k + 2] spaces to one. *)
Lemma collapse_run (k : nat) (c : ascii) (rest : jsstring) :
  is_space c = false →
  collapse Outside (str "  " ++ concat (replicate k (str "  ")) ++ c :: rest) =
    " "%char :: c :: collapse Outside rest
  ∧ collapse Outside (str "   " ++ concat (replicate k (str "  ")) ++ c :: rest) =
    " "%char :: " "%char :: c :: collapse Outside rest.
Proof.
  intros Hc. destruct (collapse_pairs k c rest Hc) as [H1 H2]. split.
  - change (" "%char :: collapse Even (concat (replicate k (str "  ")) ++ c :: rest)
            = " "%char :: c :: collapse Outside rest). by rewrite H1.
  - change (" "%char :: collapse (Odd " ") (concat (replicate k (str "  ")) ++ c :: rest)
            = " "%char :: " "%char :: c :: collapse Outside rest). by rewrite H2.
Qed.

Lemma run_has_newline_no_terminator (s : jsstring) :
  Forall (λ c, is_line_terminator c = false) s → run_has_newline s = false.
Proof.
  induction 1 as [|c s Hc _ IH]; [done|]. simpl. by rewrite Hc, IH, andb_false_r.
Qed.

(** Text without a line terminator has no blank line to remove. *)
Lemma strip_blank_lines_one_line (at_start : bool) (s : jsstring) :
  Forall (λ c, is_line_terminator c = false) s → strip_blank_lines at_start s = s.
Proof.
  intros Hs. revert at_start. induction Hs as [|c s Hc Hs IH]; intros at_start; [done|].
  cbn [strip_blank_lines].
  rewrite (run_has_newline_no_terminator (c :: s)) by by constructor.
  by rewrite andb_false_r, IH.
Qed.

(** *** [collapse] on white space and on words *)

Abbreviation blank := (Forall (λ c : ascii, is_space c = true)).
Abbreviation word := (Forall (λ c : ascii, is_space c = false)).

Lemma collapse_blank (st : trim_state) (ws : jsstring) :
  blank (pending st) → blank ws → blank (collapse st ws).
Proof.
  intros Hst Hws. revert st Hst.
  induction Hws as [|c ws Hc _ IH]; intros st Hst; [done|].
  simpl. rewrite Hc. destruct st; repeat (apply IH || constructor); done.
Qed.

Lemma collapse_word_app (w rest : jsstring) :
  word w → collapse Outside (w ++ rest) = w ++ collapse Outside rest.
Proof. induction 1 as [|c w Hc _ IH]; [done|]. simpl. by rewrite Hc, IH. Qed.

Lemma collapse_word_only (w : jsstring) : word w → collapse Outside w = w.
Proof.
  intros Hw. rewrite <- (app_nil_r w) at 1. rewrite collapse_word_app by done.
  apply app_nil_r.
Qed.

(** White space at the head of a string leaves white space. *)
Lemma collapse_leading (st : trim_state) (ws : jsstring) (c : ascii) (rest : jsstring) :
  blank (pending st) → blank ws → is_space c = false →
  ∃ sp, blank sp ∧ collapse st (ws ++ c :: rest) = sp ++ c :: collapse Outside rest.
Proof.
  intros Hst Hws Hc. revert st Hst.
  induction Hws as [|w ws Hw _ IH]; intros st Hst.
  - exists (pending st). by simpl; rewrite Hc.
  - simpl. rewrite Hw. destruct st.
    + apply IH. by constructor.
    + destruct (IH Even) as (sp & Hsp & ->); [done|].
      exists (" "%char :: sp). split; [by constructor|done].
    + apply IH. by constructor.
    + by apply IH.
Qed.

(** Inside a match, the characters of the run are read in pairs. *)
Lemma collapse_inside (ws : jsstring) (c : ascii) (rest : jsstring) :
  blank ws → is_space c = false →
  collapse Even (ws ++ c :: rest) = odd_one ws ++ c :: collapse Outside rest
  ∧ ∀ w, collapse (Odd w) (ws ++ c :: rest) =
         odd_one (w :: ws) ++ c :: collapse Outside rest.
Proof.
  intros Hws Hc. induction Hws as [|x ws Hx _ [IH1 IH2]].
  - simpl. by rewrite Hc.
  - split; [|intros w]; simpl; by rewrite Hx.
Qed.

(** A run of white space before a word. *)
Lemma collapse_between (ws : jsstring) (c : ascii) (rest : jsstring) :
  blank ws → is_space c = false →
  collapse Outside (ws ++ c :: rest) = collapsed ws ++ c :: collapse Outside rest.
Proof.
  intros Hws Hc. destruct Hws as [|x ws Hx Hws]; [by simpl; rewrite Hc|].
  destruct Hws as [|y ws Hy Hws]; [by simpl; rewrite Hx, Hc|].
  cbn [app collapse]. rewrite Hx, Hy.
  by rewrite (proj1 (collapse_inside ws c rest Hws Hc)).
Qed.

Lemma odd_one_replicate (k : nat) (c : ascii) :
  odd_one (replicate (2 * k) c) = [] ∧ odd_one (replicate (2 * k + 1) c) = [c].
Proof.
  induction k as [|k IH]; [done|].
  by replace (2 * S k) with (S (S (2 * k))) by lia.
Qed.

Lemma word_last (w : jsstring) (c : ascii) : word w → last w = Some c → is_space c = false.
Proof.
  intros Hw Hc. apply last_Some in Hc as [w' ->].
  by apply Forall_app in Hw as [_ [? _]%Forall_cons].
Qed.

Lemma collapse_length (st : trim_state) (s : jsstring) :
  length (collapse st s) ≤ length (pending st) + length s.
Proof.
  revert st. induction s as [|c s IH]; intros st; simpl; [lia|].
  destruct (is_space c).
  - destruct st; simpl; [pose proof (IH (One c))|pose proof (IH Even)
      |pose proof (IH (Odd c))|pose proof (IH Even)]; simpl in *; lia.
  - rewrite length_app. simpl. pose proof (IH Outside). simpl in *. lia.
Qed.

Lemma trim_length (s : jsstring) : length (_trim s) ≤ length s.
Proof.
  unfold _trim. etrans; [apply js_trim_length|]. apply (collapse_length Outside).
Qed.

Lemma unspace_suffix (s1 s2 : jsstring) :
  s1 `suffix_of` s2 → _unspace s1 `suffix_of` _unspace s2.
Proof. intros [k ->]. rewrite unspace_app. by eexists. Qed.

(** Between two words, [_trim] keeps a single white-space character and
    replaces a longer run by one space for its pairs, followed by the last
    character of the run when the run has an odd length. *)
Lemma trim_between (w1 ws w2 : jsstring) :
  word w1 → w1 ≠ [] → blank ws → word w2 → w2 ≠ [] →
  _trim (w1 ++ ws ++ w2) = w1 ++ collapsed ws ++ w2.
Proof.
  intros Hw1 Hne1 Hws Hw2 Hne2. unfold _trim.
  destruct Hw2 as [|c2 w2 Hc2 Hw2]; [done|].
  rewrite collapse_word_app, collapse_between, collapse_word_only by done.
  apply js_trim_id.
  - destruct Hw1 as [|c1 w1 Hc1 _]; [done|]. by intros ? [= <-].
  - intros d. rewrite app_assoc, last_app. cbn [app] in *.
    change (last (c2 :: w2)) with (last ([c2] ++ w2)). rewrite last_app.
    destruct (last w2) as [d'|] eqn:Hd; simpl; intros [= <-]; [|done].
    by apply (word_last w2).
Qed.

(** A word, and two words with one space between them, are left as they
    are. *)
Lemma trim_word (w : jsstring) : word w → _trim w = w.
Proof.
  intros Hw. unfold _trim. rewrite collapse_word_only by done.
  destruct Hw as [|c w Hc Hw]; [done|]. apply js_trim_id; [by intros ? [= <-]|].
  intros d. apply (word_last (c :: w)). by constructor.
Qed.

Lemma trim_two_words (w1 w2 : jsstring) :
  word w1 → w1 ≠ [] → word w2 → w2 ≠ [] →
  _trim (w1 ++ " "%char :: w2) = w1 ++ " "%char :: w2.
Proof.
  intros. apply (trim_between w1 (str " ") w2); try done. by repeat constructor.
Qed.

(** *** [strip_blank_lines] *)

Lemma strip_blank_lines_length (at_start : bool) (s : jsstring) :
  length (strip_blank_lines at_start s) ≤ length s.
Proof.
  revert at_start. induction s as [|c s IH]; intros at_start; [done|].
  cbn [strip_blank_lines].
  destruct (at_start && run_has_newline (c :: s)); simpl.
  - pose proof (IH true). lia.
  - pose proof (IH (is_line_terminator c)). lia.
Qed.

(** The removal of blank lines leaves a text as it is exactly when no
    line of the text starts with white space that reaches a line
    terminator. *)
Lemma strip_blank_lines_fixed (at_start : bool) (s : jsstring) :
  strip_blank_lines at_start s = s ↔ blank_free at_start s = true.
Proof.
  revert at_start. induction s as [|c s IH]; intros at_start; [done|].
  cbn [strip_blank_lines blank_free].
  destruct (at_start && run_has_newline (c :: s)) eqn:E; cbn [negb andb].
  - split; [|done]. intros Heq. apply (f_equal length) in Heq.
    pose proof (strip_blank_lines_length true s). simpl in Heq. lia.
  - rewrite <- IH. split; [by intros [= ?]|by intros ->].
Qed.

(** ** Properties *)

(** [_trim] removes the white space around a word: a directive written
    with any white space around a single word has that word as its
    sentence. *)
Theorem trim_padded_word (ws1 w ws2 : jsstring) :
  blank ws1 → blank ws2 → word w → w ≠ [] →
  _trim (ws1 ++ w ++ ws2) = w.
Proof.
  intros H1 H2 Hw Hne. destruct Hw as [|c w Hc Hw]; [done|]. unfold _trim. cbn [app].
  destruct (collapse_leading Outside ws1 c (w ++ ws2)) as (sp & Hsp & ->); [done..|].
  rewrite collapse_word_app by done.
  apply (js_trim_core sp (c :: w) (collapse Outside ws2)); [done| |by intros ? [= <-]|].
  - by apply collapse_blank.
  - intros d. apply (word_last (c :: w)). by constructor.
Qed.

Lemma trim_padded_word_witness : _trim (str "  name ") = str "name".
Proof. apply (trim_padded_word (str "  ") (str "name") (str " ")); by repeat constructor. Defined.

(** C38: a run of [n] spaces between two words is left by [_trim] as it is
    when [n] is 1, as one space when [n] is even, and as two spaces when
    [n] is odd and at least 3: a run of spaces is not always collapsed
    to a single space. *)
Theorem trim_run (w1 w2 : jsstring) (n : nat) :
  word w1 → w1 ≠ [] → word w2 → w2 ≠ [] → 0 < n →
  _trim (w1 ++ replicate n " "%char ++ w2) =
    w1 ++ replicate (if Nat.even n || (n =? 1) then 1 else 2) " "%char ++ w2.
Proof.
  intros Hw1 Hne1 Hw2 Hne2 Hn.
  rewrite trim_between by (done || by apply Forall_replicate). do 2 f_equal.
  destruct n as [|[|n]]; [lia|done|]. clear Hn. cbn [replicate collapsed].
  destruct (Nat.Even_or_Odd n) as [[k ->]|[k ->]].
  - rewrite (proj1 (odd_one_replicate k _)).
    replace (Nat.even (S (S (2 * k)))) with (Nat.even (2 * k)) by done.
    by rewrite Nat.even_even.
  - rewrite (proj2 (odd_one_replicate k _)).
    replace (Nat.even (S (S (2 * k + 1)))) with (Nat.even (2 * k + 1)) by done.
    by rewrite Nat.even_odd.
Qed.

Lemma trim_run_witness : _trim (str "if   a") = str "if  a".
Proof. apply (trim_run (str "if") (str "a") 3); (by repeat constructor) || lia. Defined.

(** C39: in a text whose lines end with a carriage return and a line feed,
    the line feed that follows a line starting with a character other
    than white space is removed: the removal of blank lines changes a
    text that has no blank line. *)
Theorem strip_blank_lines_crlf (at_start : bool) (c : ascii) (l rest : jsstring) :
  is_space c = false → Forall (λ c, is_line_terminator c = false) l →
  strip_blank_lines at_start (c :: l ++ CR :: LF :: rest) =
    c :: l ++ CR :: strip_blank_lines true rest.
Proof.
  intros Hc Hl. cbn [strip_blank_lines run_has_newline]. rewrite Hc, andb_false_r. f_equal.
  rewrite (not_space_not_terminator c Hc).
  induction Hl as [|x l Hx _ IH]; [done|].
  cbn [app strip_blank_lines]. by rewrite Hx, IH.
Qed.

Lemma strip_blank_lines_crlf_witness :
  strip_blank_lines true (str "a" ++ CR :: LF :: str "b") = str "a" ++ CR :: str "b".
Proof. apply (strip_blank_lines_crlf true "a" [] (str "b")); by repeat constructor. Defined.
