(* ===== verification/Scanner.v ===== *)
(** * Scanner: the directives of a template

    [compile] (line 625 of [src/lib/tangular.ts]) finds the directives with
    [template.matchAll(/(?={{[^{])(.*?)(?<=}})/gm)].  [scan] is the list of
    the matches of that iterator, each with its index:

    - a match starts where the template reads [{{] and then a character
      that is not [{] (the lookahead);
    - it is the shortest string of characters other than line terminators
      (the lazy [.*?]) after which the two characters read last are [}}]
      (the lookbehind), and those two characters may precede the match:
      the match is then empty;
    - the search resumes at the end of a match, or one character further
      when the match is empty. *)

From Stdlib Require Import Ascii String ZArith Lia.
From stdpp Require Import base tactics list option strings.
From S2P Require Import Prelude JsString.

(** ** Definitions *)

(** One element of the iterator: [element.value.index] and
    [element.value[0]]. *)
Record element : Type := mkElement {
  index : nat;
  value : jsstring
}.

#[export] Instance element_eq_dec : EqDecision element.
Proof. solve_decision. Defined.

(** The lookahead [(?={{[^{])] at the head of [s]. *)
Definition opens (s : jsstring) : bool :=
  match s with
  | a :: b :: c :: _ => Ascii.eqb a "{" && Ascii.eqb b "{" && negb (Ascii.eqb c "{")
  | _ => false
  end.

(** The lookbehind [(?<=}})] at the end of the text whose characters,
    last first, are [before]. *)
Definition closed (before : jsstring) : bool :=
  match before with
  | a :: b :: _ => Ascii.eqb a "}" && Ascii.eqb b "}"
  | _ => false
  end.

(** The length of the lazy match [(.*?)(?<=}})] of [s] after the text
    [before] (last character first). *)
Fixpoint lazy_end (before s : jsstring) : option nat :=
  if closed before then Some 0
  else
    match s with
    | [] => None
    | c :: s' =>
        if is_line_terminator c then None
        else S <$> lazy_end (c :: before) s'
    end.

(** The matches in [s], which follows the text [before] (last character
    first) in the template; [skip] characters of [s] are still part of the
    last match. *)
Fixpoint scan_from (skip : nat) (before s : jsstring) : list element :=
  match s with
  | [] => []
  | c :: s' =>
      match skip with
      | S skip' => scan_from skip' (c :: before) s'
      | 0 =>
          match (if opens s then lazy_end before s else None) with
          | Some k =>
              mkElement (length before) (take k s)
              :: scan_from (pred k) (c :: before) s'
          | None => scan_from 0 (c :: before) s'
          end
      end
  end.

(** [template.matchAll(...)], line 625. *)
Definition scan (template : jsstring) : list element :=
  scan_from 0 [] template.

(** Text that holds no opening of a directive. *)
Fixpoint no_opening (s : jsstring) : bool :=
  match s with
  | [] => true
  | _ :: s' => negb (opens s) && no_opening s'
  end.

(** A directive as it is written: an expression between braces. *)
Definition directive (e : jsstring) : jsstring := str "{{" ++ e ++ str "}}".

(** The expressions that the theorems on directives speak of: no closing
    brace, no line terminator, and no opening brace first. *)
Definition is_expression (e : jsstring) : bool :=
  negb (bool_decide (head e = Some "{"%char))
  && forallb (λ c, negb (Ascii.eqb c "}") && negb (is_line_terminator c)) e.

(** A template as it is written: directives, each after some text, and
    the text after the last one. *)
Abbreviation segment := (jsstring * jsstring)%type.

Definition print (segments : list segment) (trailing : jsstring) : jsstring :=
  foldr (λ '(text, e) rest, text ++ directive e ++ rest) trailing segments.

(** The elements of a written template whose first segment starts at
    index [i]. *)
Fixpoint elements_of (i : nat) (segments : list segment) : list element :=
  match segments with
  | [] => []
  | (text, e) :: segments =>
      mkElement (i + length text) (directive e)
      :: elements_of (i + length text + length (directive e)) segments
  end.

(** The texts that the theorems on written templates speak of: no opening
    brace, and no closing brace last. *)
Definition is_text (text : jsstring) : bool :=
  negb (bool_decide ("{"%char ∈ text))
  && negb (bool_decide (last text = Some "}"%char)).

(** The written templates in which every directive can be found: a
    directive follows text that is not empty, except the first one, which
    may start the template. *)
Fixpoint well_written (first : bool) (segments : list segment) : bool :=
  match segments with
  | [] => true
  | (text, e) :: segments =>
      is_text text && is_expression e
      && (first || negb (bool_decide (text = [])))
      && well_written false segments
  end.

(** The indices of the elements grow, and the matches do not overlap: every
    element starts at [from] or later, and the next ones after its end. *)
Fixpoint ordered (from : nat) (elements : list element) : Prop :=
  match elements with
  | [] => True
  | el :: elements =>
      from ≤ index el ∧ ordered (index el + length (value el)) elements
  end.

(** Where an element lies in the text [s] that follows [before] (last
    character first): after a prefix [p] of [s], at an opening, closed by
    two braces read last, without a line terminator, and empty or of four
    characters at least. *)
Definition located (before s : jsstring) (el : element) : Prop :=
  ∃ p q, s = p ++ value el ++ q ∧ index el = length before + length p
         ∧ opens (value el ++ q) = true
         ∧ closed (reverse (value el) ++ reverse p ++ before) = true
         ∧ Forall (λ c, is_line_terminator c = false) (value el)
         ∧ (value el = [] ∨ 4 ≤ length (value el)).

(** ** Lemmas *)

Lemma lazy_end_closed (before s : jsstring) :
  closed before = true → lazy_end before s = Some 0.
Proof. intros Hc. destruct s; simpl; by rewrite Hc. Qed.

Lemma lazy_end_open (before : jsstring) (c : ascii) (s : jsstring) :
  closed before = false → is_line_terminator c = false →
  lazy_end before (c :: s) = S <$> lazy_end (c :: before) s.
Proof. intros Hc Hnl. simpl. by rewrite Hc, Hnl. Qed.

(** The lazy match of an expression without [}] and line terminator,
    closed by [}}]. *)
Lemma lazy_end_expression (e rest before : jsstring) :
  Forall (λ c, c ≠ "}"%char ∧ is_line_terminator c = false) e →
  closed before = false → head before ≠ Some "}"%char ∨ e ≠ [] →
  lazy_end before (e ++ str "}}" ++ rest) = Some (length e + 2).
Proof.
  intros He. revert before.
  induction He as [|c e [Hc Hnl] _ IH]; intros before Hclosed Hprev.
  - destruct Hprev as [Hprev|]; [|done].
    cbn [app str list_ascii_of_string lazy_end length]. rewrite Hclosed.
    change (is_line_terminator "}") with false. cbn iota.
    assert (closed ("}"%char :: before) = false) as ->.
    { destruct before as [|b before]; [done|]. simpl in *.
      apply ascii_eqb_neq. by intros ->. }
    by rewrite lazy_end_closed.
  - cbn [app lazy_end length]. rewrite Hclosed, Hnl.
    rewrite IH; [done| |by left; intros [= ->]].
    simpl. destruct before; [done|]. apply andb_false_intro1.
    by apply ascii_eqb_neq.
Qed.

Lemma lazy_end_length (s before : jsstring) (k : nat) :
  lazy_end before s = Some k → k ≤ length s.
Proof.
  revert before k. induction s as [|c s IH]; intros before k; simpl.
  - destruct (closed before); [intros [= <-]; lia|done].
  - destruct (closed before); [intros [= <-]; lia|].
    destruct (is_line_terminator c); [done|].
    destruct (lazy_end (c :: before) s) as [k'|] eqn:Hk; [|done].
    intros [= <-]. apply IH in Hk. lia.
Qed.

Lemma lazy_end_take (s before : jsstring) (k : nat) :
  lazy_end before s = Some k →
  closed (reverse (take k s) ++ before) = true
  ∧ Forall (λ c, is_line_terminator c = false) (take k s).
Proof.
  revert before k. induction s as [|c s IH]; intros before k; simpl.
  - destruct (closed before) eqn:Hc; [intros [= <-]; by rewrite take_nil|done].
  - destruct (closed before) eqn:Hc; [by intros [= <-]|].
    destruct (is_line_terminator c) eqn:Hnl; [done|].
    destruct (lazy_end (c :: before) s) as [k'|] eqn:Hk; [|done].
    intros [= <-]. destruct (IH _ _ Hk) as [Hclosed Hline].
    cbn [take]. rewrite reverse_cons, <- app_assoc. by split; [|constructor].
Qed.

(** A match that is not empty starts at an opening and spans at least its
    three characters. *)
Lemma lazy_end_opens (s before : jsstring) (k : nat) :
  opens s = true → lazy_end before s = Some k → k = 0 ∨ 4 ≤ k.
Proof.
  intros Hopens Hk. destruct (lazy_end_take _ _ _ Hk) as [Hclosed _].
  destruct s as [|a [|b [|c s]]]; try done.
  apply andb_true_iff in Hopens as [[Ha Hb]%andb_true_iff _].
  apply ascii_eqb_eq in Ha as ->, Hb as ->.
  destruct k as [|[|[|[|k]]]]; [by left| | | |right; lia]; cbn in Hclosed.
  - by destruct before.
  - done.
  - rewrite take_0 in Hclosed. cbn in Hclosed. by rewrite andb_false_r in Hclosed.
Qed.

(** Characters that are still part of the last match are passed over. *)
Lemma scan_from_skip (p rest before : jsstring) :
  scan_from (length p) before (p ++ rest) = scan_from 0 (reverse p ++ before) rest.
Proof.
  revert before. induction p as [|c p IH]; intros before; [by destruct rest|].
  cbn [length app scan_from]. by rewrite IH, reverse_cons, <- app_assoc.
Qed.

(** Text without an opening brace is passed over. *)
Lemma scan_from_text (text rest before : jsstring) :
  "{"%char ∉ text →
  scan_from 0 before (text ++ rest) = scan_from 0 (reverse text ++ before) rest.
Proof.
  revert before. induction text as [|c text IH]; intros before Hc; [done|].
  apply not_elem_of_cons in Hc as [Hc Htext].
  cbn [app scan_from]. assert (opens (c :: text ++ rest) = false) as ->.
  { destruct (text ++ rest) as [|? [|? ?]]; try done. simpl.
    by destruct (Ascii.eqb_spec c "{") as [->|]. }
  by rewrite IH, reverse_cons, <- app_assoc.
Qed.

Lemma no_opening_scan (s before : jsstring) (skip : nat) :
  no_opening s = true → scan_from skip before s = [].
Proof.
  revert before skip. induction s as [|c s IH]; intros before skip; [done|].
  cbn [no_opening scan_from]. intros [Hopens Hs]%andb_true_iff.
  apply negb_true_iff in Hopens. destruct skip; [|by apply IH].
  rewrite Hopens. by apply IH.
Qed.

Lemma no_brace_no_opening (s : jsstring) : "{"%char ∉ s → no_opening s = true.
Proof.
  induction s as [|c s IH]; [done|]. intros [Hc Hs]%not_elem_of_cons.
  cbn [no_opening]. rewrite IH by done. destruct s as [|? [|? ?]]; try done.
  simpl. by destruct (Ascii.eqb_spec c "{") as [->|].
Qed.

(** *** Directives *)

Lemma closed_cons_ne (c : ascii) (before : jsstring) :
  c ≠ "}"%char → closed (c :: before) = false.
Proof.
  intros Hc. destruct before; [done|]. simpl.
  by destruct (Ascii.eqb_spec c "}") as [->|].
Qed.

Lemma is_expression_spec (e : jsstring) :
  is_expression e = true →
  head e ≠ Some "{"%char
  ∧ Forall (λ c, c ≠ "}"%char ∧ is_line_terminator c = false) e.
Proof.
  intros [Hhead He]%andb_true_iff. split.
  - by apply negb_true_iff, bool_decide_eq_false in Hhead.
  - eapply Forall_forallb_impl, He. apply Forall_forall.
    intros c _ [H1%negb_true_iff H2%negb_true_iff]%andb_true_iff.
    by apply ascii_eqb_neq in H1.
Qed.

Lemma directive_length (e : jsstring) : length (directive e) = length e + 4.
Proof. unfold directive. rewrite !length_app. simpl. lia. Qed.

Lemma directive_app (e rest : jsstring) :
  directive e ++ rest = "{"%char :: "{"%char :: e ++ str "}}" ++ rest.
Proof. unfold directive. by rewrite <- !app_assoc. Qed.

Lemma closed_directive (e before : jsstring) :
  closed (reverse (directive e) ++ before) = true.
Proof. unfold directive. by rewrite !reverse_app, <- !app_assoc. Qed.

Lemma opens_directive (e rest : jsstring) :
  is_expression e = true → opens (directive e ++ rest) = true.
Proof.
  intros [Hhead _]%is_expression_spec. destruct e as [|c e]; [done|]. cbn.
  destruct (Ascii.eqb_spec c "{") as [->|]; done.
Qed.

Lemma lazy_end_directive (e rest before : jsstring) :
  is_expression e = true → closed before = false →
  lazy_end before (directive e ++ rest) = Some (length (directive e)).
Proof.
  intros [_ He]%is_expression_spec Hclosed. rewrite directive_length.
  unfold directive. rewrite <- !app_assoc. cbn [str list_ascii_of_string app].
  rewrite lazy_end_open, lazy_end_open by (done || by apply closed_cons_ne).
  rewrite (lazy_end_expression e rest) by (done || by left || by apply closed_cons_ne).
  cbn. f_equal. lia.
Qed.

(** *** One step of the scan *)

Lemma scan_from_match (m rest before : jsstring) :
  m ≠ [] → opens (m ++ rest) = true → lazy_end before (m ++ rest) = Some (length m) →
  scan_from 0 before (m ++ rest) =
    mkElement (length before) m :: scan_from 0 (reverse m ++ before) rest.
Proof.
  intros Hm Hopens Hlazy. destruct m as [|c m]; [done|].
  cbn [app scan_from] in *. rewrite Hopens, Hlazy.
  cbn [length take Nat.pred]. by rewrite take_app_length, scan_from_skip, reverse_cons, <- app_assoc.
Qed.

Lemma scan_from_empty_match (c : ascii) (s before : jsstring) :
  opens (c :: s) = true → closed before = true →
  scan_from 0 before (c :: s) = mkElement (length before) [] :: scan_from 0 (c :: before) s.
Proof. intros Hopens Hclosed. cbn [scan_from]. by rewrite Hopens, lazy_end_closed. Qed.

(** What is left of a directive after its first brace holds no opening. *)
Lemma scan_from_inside (e rest before : jsstring) :
  is_expression e = true → "{"%char ∉ e →
  scan_from 0 before ("{"%char :: e ++ str "}}" ++ rest) =
    scan_from 0 (reverse ("{"%char :: e ++ str "}}") ++ before) rest.
Proof.
  intros [Hhead _]%is_expression_spec Hbrace. cbn [scan_from].
  assert (opens ("{"%char :: e ++ str "}}" ++ rest) = false) as ->.
  { destruct e as [|c e]; [done|]. cbn.
    destruct (Ascii.eqb_spec c "{") as [->|]; [done|]. by destruct (e ++ _). }
  rewrite app_assoc, scan_from_text, reverse_cons, <- !app_assoc; [done|].
  apply not_elem_of_app. split; [done|by_compute].
Qed.

Lemma ordered_mono (from from' : nat) (elements : list element) :
  from ≤ from' → ordered from' elements → ordered from elements.
Proof. destruct elements; [done|]. intros ? [? ?]. split; [lia|done]. Qed.

(** Where an element of the scan lies in the text scanned. *)
Lemma located_cons (c : ascii) (before s : jsstring) (el : element) :
  located (c :: before) s el → located before (c :: s) el.
Proof.
  intros (p & q & -> & Hi & Ho & Hc & Hline & Hlen). exists (c :: p), q.
  rewrite reverse_cons, <- app_assoc. split_and!; try done. simpl in *. lia.
Qed.

Lemma scan_from_located (s before : jsstring) (skip : nat) (el : element) :
  el ∈ scan_from skip before s → located before s el.
Proof.
  revert before skip. induction s as [|c s IH]; intros before skip; [by intros ?%elem_of_nil|].
  assert (∀ skip', el ∈ scan_from skip' (c :: before) s → located before (c :: s) el)
    as Hrest by (intros skip' ?%IH; by apply located_cons).
  cbn [scan_from]. destruct skip as [|skip]; [|apply Hrest].
  destruct (opens (c :: s)) eqn:Hopens; [|apply Hrest].
  destruct (lazy_end before (c :: s)) as [k|] eqn:Hk; [|apply Hrest].
  intros [->|Hel]%elem_of_cons; [|by eapply Hrest].
  destruct (lazy_end_take _ _ _ Hk) as [Hclosed Hline].
  exists [], (drop k (c :: s)). cbn [value index]. rewrite app_nil_l, take_drop.
  split_and!; try done.
  destruct (lazy_end_opens _ _ _ Hopens Hk) as [->|Hk4]; [by left|right].
  pose proof (lazy_end_length _ _ _ Hk). rewrite length_take. lia.
Qed.

Lemma scan_from_ordered (s before : jsstring) (skip : nat) :
  ordered (length before + skip) (scan_from skip before s).
Proof.
  revert before skip. induction s as [|c s IH]; intros before skip; [done|].
  cbn [scan_from]. destruct skip as [|skip].
  - assert (ordered (length before + 0) (scan_from 0 (c :: before) s)) as Hnone.
    { eapply ordered_mono, (IH (c :: before) 0). simpl. lia. }
    destruct (opens (c :: s)); [|done].
    destruct (lazy_end before (c :: s)) as [k|] eqn:Hk; [|done].
    split; [simpl; lia|]. cbn [index value].
    pose proof (lazy_end_length _ _ _ Hk). rewrite length_take.
    eapply ordered_mono, (IH (c :: before) (pred k)). simpl in *. lia.
  - eapply ordered_mono, (IH (c :: before) skip). simpl. lia.
Qed.

(** A directive that follows text without an opening brace is found at
    its index with its full text, braces included, and the scan resumes
    after it. *)
Lemma scan_directive (text e rest before : jsstring) :
  "{"%char ∉ text → closed (reverse text ++ before) = false → is_expression e = true →
  scan_from 0 before (text ++ directive e ++ rest) =
    mkElement (length before + length text) (directive e)
    :: scan_from 0 (reverse (text ++ directive e) ++ before) rest.
Proof.
  intros Htext Hclosed He. rewrite scan_from_text by done.
  rewrite scan_from_match.
  - by rewrite length_app, length_reverse, reverse_app, <- app_assoc, (Nat.add_comm (length text)).
  - by destruct e.
  - by apply opens_directive.
  - by apply lazy_end_directive.
Qed.

(** *** Written templates *)

Lemma is_text_spec (text : jsstring) :
  is_text text = true → ("{"%char ∉ text) ∧ last text ≠ Some "}"%char.
Proof.
  intros [H1 H2]%andb_true_iff.
  by apply negb_true_iff, bool_decide_eq_false in H1, H2.
Qed.

Lemma closed_text (text before : jsstring) :
  last text ≠ Some "}"%char → text ≠ [] ∨ closed before = false →
  closed (reverse text ++ before) = false.
Proof.
  intros Hlast Hne. destruct (reverse text) as [|c r] eqn:Hr.
  - apply (f_equal reverse) in Hr. rewrite reverse_involutive in Hr. subst text.
    by destruct Hne.
  - apply closed_cons_ne. intros ->. apply Hlast.
    by rewrite <- head_reverse, Hr.
Qed.

Lemma scan_from_print (segments : list segment) (trailing before : jsstring)
    (first : bool) :
  well_written first segments = true → "{"%char ∉ trailing →
  (first = true → closed before = false) →
  scan_from 0 before (print segments trailing) = elements_of (length before) segments.
Proof.
  revert before first.
  induction segments as [|[text e] segments IH]; intros before first Hw Htrailing Hfirst.
  { by apply no_opening_scan, no_brace_no_opening. }
  cbn [well_written print foldr elements_of] in *.
  apply andb_true_iff in Hw as [[[[Htext Hlast]%is_text_spec He]%andb_true_iff
    Hne]%andb_true_iff Hw].
  rewrite scan_directive; [|done| |done].
  - f_equal. rewrite (IH _ false) by done.
    by rewrite length_app, length_reverse, length_app, (Nat.add_comm _ (length before)),
      Nat.add_assoc.
  - apply closed_text; [done|]. destruct first; [right; by apply Hfirst|left].
    by apply negb_true_iff, bool_decide_eq_false in Hne.
Qed.

(** ** Properties *)

(** C6: the scan of a written template finds its directives, all of them
    and nothing else, each at its index and with its braces, provided that
    the texts hold no opening brace and do not end in a closing brace, that
    the expressions hold no closing brace and no line terminator, and that
    no directive directly follows another. *)
Theorem scan_print (segments : list segment) (trailing : jsstring) :
  well_written true segments = true → "{"%char ∉ trailing →
  scan (print segments trailing) = elements_of 0 segments.
Proof. intros Hw Htrailing. by apply (scan_from_print segments trailing [] true). Qed.

Lemma scan_print_witness :
  scan (str "Hello {{name}}, {{if c}}yes{{fi}}!") =
    [mkElement 6 (str "{{name}}"); mkElement 16 (str "{{if c}}");
     mkElement 27 (str "{{fi}}")].
Proof.
  refine (scan_print [(str "Hello ", str "name"); (str ", ", str "if c");
                      (str "yes", str "fi")] (str "!") eq_refl _).
  by_compute.
Defined.

(** A template without an opening of a directive has no directive: the
    iterator of [compile] is empty. *)
Theorem scan_no_opening (template : jsstring) :
  no_opening template = true → scan template = [].
Proof. apply no_opening_scan. Qed.

Lemma scan_no_opening_witness : scan (str "a { b }} c") = [].
Proof. by apply (scan_no_opening (str "a { b }} c")). Defined.

(** A directive written directly after the closing braces of another
    one is not found: the scan finds the empty string there, and nothing
    up to the end of the directive. *)
Theorem scan_adjacent (e rest before : jsstring) :
  closed before = true → is_expression e = true → "{"%char ∉ e →
  scan_from 0 before (directive e ++ rest) =
    mkElement (length before) []
    :: scan_from 0 (reverse (directive e) ++ before) rest.
Proof.
  intros Hclosed He Hbrace. pose proof (opens_directive e rest He) as Hopens.
  rewrite directive_app in *. change (directive e) with ("{"%char :: "{"%char :: e ++ str "}}").
  rewrite scan_from_empty_match, scan_from_inside by done.
  f_equal. by rewrite (reverse_cons ("{"%char :: e ++ str "}}")), <- app_assoc.
Qed.

Lemma scan_adjacent_witness :
  scan_from 0 (str "}}a{{") (str "{{b}}!") = [mkElement 5 []].
Proof. exact (scan_adjacent (str "b") (str "!") (str "}}a{{") eq_refl eq_refl ltac:(by_compute)). Defined.

(** C20: of two directives written one directly after the other, the scan
    finds the first and, where the second starts, the empty string. *)
Theorem scan_two_directives (e1 e2 rest : jsstring) :
  is_expression e1 = true → is_expression e2 = true → "{"%char ∉ e2 →
  scan (directive e1 ++ directive e2 ++ rest) =
    mkElement 0 (directive e1) :: mkElement (length (directive e1)) []
    :: scan_from 0 (reverse (directive e1 ++ directive e2)) rest.
Proof.
  intros He1 He2 Hbrace. unfold scan.
  pose proof (scan_directive [] e1 (directive e2 ++ rest) []) as H1.
  cbn [app length] in H1. rewrite H1 by (done || apply not_elem_of_nil).
  rewrite scan_adjacent by (done || apply closed_directive).
  rewrite !length_app, length_reverse, reverse_app, !app_nil_r. simpl.
  by rewrite Nat.add_0_r.
Qed.

Lemma scan_two_directives_witness :
  scan (str "{{a}}{{b}}") = [mkElement 0 (str "{{a}}"); mkElement 5 []].
Proof. exact (scan_two_directives (str "a") (str "b") [] eq_refl eq_refl ltac:(by_compute)). Defined.

(** C19: every element of the iterator is a part of the template, found at
    its index; it opens a directive, ends after two closing braces, holds
    no line terminator, and is empty or of four characters at least. *)
Theorem scan_sound (template : jsstring) (el : element) :
  el ∈ scan template →
  js_substring template (Z.of_nat (index el))
    (Z.of_nat (index el + length (value el))) = value el
  ∧ located [] template el.
Proof.
  intros Hel%scan_from_located. split; [|done].
  destruct Hel as (p & q & -> & -> & _). apply js_substring_middle.
Qed.

Lemma scan_sound_witness :
  js_substring (str "Hello {{name}}!") 6 14 = str "{{name}}"
  ∧ located [] (str "Hello {{name}}!") (mkElement 6 (str "{{name}}")).
Proof. apply (scan_sound (str "Hello {{name}}!") (mkElement 6 (str "{{name}}"))). by_compute. Defined.

(** C40: the elements of the iterator are found from left to right and do
    not overlap: the index of each is at least the end of the one before. *)
Theorem scan_ordered (template : jsstring) : ordered 0 (scan template).
Proof. apply (scan_from_ordered template [] 0). Qed.
