(* ===== verification/Builder.v ===== *)
(** * Builder: from the directives of a template to its tree of blocs

    [_processBuildPrivateKey] (lines 194-352 of [src/lib/tangular.ts])
    consumes the iterator of the scanner and builds the blocs.  It works on
    objects that it changes after it has stored them: a bloc is pushed into
    an array and receives its children later, and the same bloc can be
    pushed twice.  The model therefore builds in a [heap] of bloc objects,
    found by their reference, whose children are references; [reify] reads
    the finished tree out of the heap, every bloc with the reference of its
    object as [TangularBloc.ref].

    The iterator is shared by the nested calls: it is the list of the
    elements not consumed yet, passed in and out with the heap.  The loop
    takes one unit of [fuel] per element, the nested calls included, so
    [length elements + 1] is enough; [None] stands for a call that does not
    return, which also happens when the parser of a header does not. *)

From Stdlib Require Import Ascii String ZArith Lia.
From stdpp Require Import base tactics list option strings.
From S2P Require Import Prelude JsString Syntax ConditionParser Whitespace Scanner.

#[local] Set Warnings "-register-all".

Module Import PK := TangularPrivateKey.

(** ** Definitions *)

(** A bloc object: [TangularBloc] with its children by reference. *)
Module BlocObject.

Record t : Type := mk {
  name : TangularPrivateKey.t;
  children : list nat;
  instruction : node;
  isHTML : bool
}.

End BlocObject.

(** The objects allocated so far; the reference of an object is its
    position. *)
Abbreviation heap := (list BlocObject.t).

(** [object.children.push(child)]. *)
Definition push_child (object child : nat) (h : heap) : heap :=
  alter (λ o, BlocObject.mk (BlocObject.name o) (BlocObject.children o ++ [child])
                (BlocObject.instruction o) (BlocObject.isHTML o)) object h.

(** [blocObject.name] of the object at a reference. *)
Definition name_of (h : heap) (object : nat) : TangularPrivateKey.t :=
  default NONE (BlocObject.name <$> h !! object).

(** What a call returns: the array [blocsObject] (line 351) or the record
    of line 322. *)
Inductive built : Type :=
| Blocs (blocsObject : list nat)
| Nested (lastIndex : nat) (blocsObject : list nat) (blocObject : nat).

(** The alternatives of the regular expression [_privateKeys], line 64. *)
Definition privateKeys : list jsstring :=
  str <$> ["if"; "else"; "fi"; "foreach"; "for"; "end"; "continue"; "break"]%string.

(** [^(if|else|...)\b] at the head of a line [s]: one of the keywords, not
    followed by a word character. *)
Definition keyword_at (s : jsstring) : bool :=
  existsb (λ kw, js_startsWith kw s
                 && negb (default false (is_word_char <$> s !! length kw)))
    privateKeys.

(** The starts of the lines of a string: with the flag [m], [^] matches at
    each of them. *)
Fixpoint line_starts (s : jsstring) : list jsstring :=
  match s with
  | [] => []
  | c :: s' => (if is_line_terminator c then [s'] else []) ++ line_starts s'
  end.

(** [sentence.match(this._privateKeys)], line 230. *)
Definition matches_privateKeys (sentence : jsstring) : bool :=
  existsb keyword_at (sentence :: line_starts sentence).

(** The cases of the [switch] of line 252. *)
Definition case_of (instructionKey : jsstring) : option TangularPrivateKey.t :=
  find (λ k, bool_decide (TangularPrivateKey.to_string k = instructionKey))
    [FOR; FOREACH; IF; ELSE; CONTINUE; BREAK; END; FI].

(** [this._processConditionBuild(conditions)] with the fuel that is enough
    when the call returns; [None] when it does not. *)
Definition parse_condition (conditions : jsstring) : option node :=
  _processConditionBuild (enough_fuel conditions) conditions 0.

(** [instructionKey === IF ? this._processConditionBuild(instructionUnspace)
    : this._processForeachBuild(instruction)], lines 272-274 and 285-287. *)
Definition header (k : TangularPrivateKey.t) (instruction : jsstring) : option node :=
  let instructionUnspace := _unspace instruction in
  if decide (k = IF) then parse_condition instructionUnspace
  else Some (NCondition (_processForeachBuild instruction)).

(** The literals of lines 220-225 and 232-236. *)
Definition text_object (text : jsstring) : BlocObject.t :=
  BlocObject.mk NONE [] (NString text) true.

Definition output_object (sentence : jsstring) : BlocObject.t :=
  BlocObject.mk NONE [] (NString (_unspace sentence)) false.

(** The local variables of a call, [tracking.lastIndex], [blocsObject]
    and [blocObject], with the objects allocated so far. *)
Record state : Type := mkState {
  lastIndex : nat;
  blocsObject : list nat;
  blocObject : nat;
  objects : heap
}.

(** Lines 200-205: the variables of a new call, with the new object that
    is its first [blocObject]. *)
Definition enter (lastIndex : nat) (h : heap) : state :=
  mkState lastIndex [] (length h) (h ++ [BlocObject.mk NONE [] NUndefined false]).

(** [tracking.lastIndex = i]. *)
Definition set_lastIndex (i : nat) (st : state) : state :=
  mkState i (blocsObject st) (blocObject st) (objects st).

(** [(blocObject.name === NONE ? blocsObject : blocObject.children).push(o)]
    for a new object [o], lines 217-225, 231-244 and 340-348. *)
Definition push_here (o : BlocObject.t) (st : state) : state :=
  let r := length (objects st) in
  let h := objects st ++ [o] in
  if decide (name_of h (blocObject st) = NONE)
  then mkState (lastIndex st) (blocsObject st ++ [r]) (blocObject st) h
  else mkState (lastIndex st) (blocsObject st) (blocObject st)
         (push_child (blocObject st) r h).

(** Lines 216-226 and 339-349: the text between the last directive and
    the position [upto]. *)
Definition push_text (template : jsstring) (upto : nat) (st : state) : state :=
  if decide (upto ≠ lastIndex st) then
    push_here (text_object (js_substring template (Z.of_nat (lastIndex st)) (Z.of_nat upto)))
      st
  else st.

(** [blocsObject.push(blocObject)], lines 296, 308 and 328. *)
Definition push_blocObject (st : state) : state :=
  mkState (lastIndex st) (blocsObject st ++ [blocObject st]) (blocObject st) (objects st).

(** [blocObject = o] for a new object [o], lines 282-288, 298-306 and
    329-333. *)
Definition new_blocObject (o : BlocObject.t) (st : state) : state :=
  mkState (lastIndex st) (blocsObject st) (length (objects st)) (objects st ++ [o]).

(** [blocsObject.push(o)] for a new object [o], lines 314-317. *)
Definition push_signal (o : BlocObject.t) (st : state) : state :=
  mkState (lastIndex st) (blocsObject st ++ [length (objects st)]) (blocObject st)
    (objects st ++ [o]).

(** Lines 209-212: the sentence of an element, its text without the
    braces. *)
Definition sentence_of (element : element) : jsstring :=
  let value := Scanner.value element in
  _trim (js_substring value 2 (Z.of_nat (length value) - 2)).

(** Lines 248-251. *)
Definition instructionKey_of (element : element) : jsstring :=
  let sentence := sentence_of element in
  let nextSpace := js_indexOf " " sentence in
  js_substring sentence 0
    (if decide (nextSpace = -1)%Z then Z.of_nat (length (Scanner.value element))
     else nextSpace).

(** Line 256. *)
Definition instruction_of (element : element) : jsstring :=
  js_substring (sentence_of element)
    (Z.of_nat (length (instructionKey_of element)) + 1)
    (Z.of_nat (length (Scanner.value element))).

(** Lines 291-293. *)
Definition instructionelseif_of (element : element) : jsstring :=
  _unspace (js_substring (sentence_of element)
              (Z.of_nat (length (TangularPrivateKey.to_string ELSEIF)))
              (Z.of_nat (length (Scanner.value element)))).

(** The test of lines 258-262. *)
Definition nests (st : state) : bool :=
  bool_decide (name_of (objects st) (blocObject st) ∈ [FOR; FOREACH; IF]).

(** Lines 269-279: the bloc of a nested directive, with the blocs that the
    nested call returned as its children, is pushed into the children of
    [blocObject], and after it the [blocObject] of the nested call when
    that is not the initial one. *)
Definition push_nested (k : TangularPrivateKey.t) (parsed : node)
    (lastIndex' : nat) (blocsObject' : list nat) (blocObject' : nat) (h : heap)
    (st : state) : state :=
  let r := length h in
  let h := h ++ [BlocObject.mk k blocsObject' parsed false] in
  let h := push_child (blocObject st) r h in
  let h :=
    if decide (name_of h blocObject' ≠ NONE)
    then push_child (blocObject st) blocObject' h else h in
  mkState lastIndex' (blocsObject st) (blocObject st) h.

(** Lines 213-227: the text before the element is pushed, and
    [tracking.lastIndex] moves to the end of the element. *)
Definition advance (template : jsstring) (element : element) (st : state) : state :=
  let sentenceLength := length (Scanner.value element) in
  set_lastIndex (Scanner.index element + sentenceLength)
    (push_text template (Scanner.index element) st).

(** What a call of [_processBuildPrivateKey] gives: nothing when it does
    not return, and otherwise what it returns or throws, with the heap and
    the elements left in the iterator. *)
Abbreviation outcome_of I := (option (result (built * heap * I))).
Abbreviation outcome := (outcome_of (list element)).

(** The body of the [while] loop from line 229 on, for the element read
    from the iterator, once the text before it is pushed.  [continue]
    stands for the next turns of the loop and for the nested call: it is
    given [returnNextKeyEnd], the variables and the iterator, of which the
    body makes no other use. *)
Definition on_sentence {I : Type} (continue : bool → state → I → outcome_of I)
    (returnNextKeyEnd : bool) (st : state) (element : element) (elements : I)
    : outcome_of I :=
  let sentence := sentence_of element in
  if negb (matches_privateKeys sentence) then
    continue returnNextKeyEnd (push_here (output_object sentence) st) elements
  else
    match case_of (instructionKey_of element) with
    | Some ((FOR | FOREACH | IF) as k) =>
        if nests st then
          (* lines 263-280: the nested call, which has its own variables *)
          nested ← continue true (enter (lastIndex st) (objects st)) elements;
          match nested with
          | Ok (Nested lastIndex' blocsObject' blocObject', h, elements) =>
              parsed ← header k (instruction_of element);
              continue returnNextKeyEnd
                (push_nested k parsed lastIndex' blocsObject' blocObject' h st)
                elements
          | Ok (Blocs _, _, _) =>
              (* the array has no property [blocObject]: line 276 throws *)
              parsed ← header k (instruction_of element);
              Some (Throw (TypeError
                "Cannot read properties of undefined (reading 'name')"))
          | Throw e => Some (Throw e)
          end
        else
          (* lines 282-288 *)
          parsed ← header k (instruction_of element);
          continue returnNextKeyEnd
            (new_blocObject (BlocObject.mk k [] parsed false) st) elements
    | Some ELSE =>
        if js_startsWith (TangularPrivateKey.to_string ELSEIF) sentence then
          parsed ← parse_condition (instructionelseif_of element);
          continue returnNextKeyEnd
            (push_blocObject
               (new_blocObject (BlocObject.mk ELSEIF [] parsed false)
                  (push_blocObject st)))
            elements
        else
          continue returnNextKeyEnd
            (new_blocObject (BlocObject.mk ELSE [] NUndefined false) st) elements
    | Some ((CONTINUE | BREAK) as k) =>
        continue returnNextKeyEnd
          (push_signal (BlocObject.mk k [] NUndefined false) st) elements
    | Some (END | FI) =>
        if returnNextKeyEnd then
          Some (Ok (Nested (lastIndex st) (blocsObject st) (blocObject st),
                    objects st, elements))
        else
          continue returnNextKeyEnd
            (new_blocObject (BlocObject.mk NONE [] NUndefined false)
               (push_blocObject st))
            elements
    | _ => continue returnNextKeyEnd st elements
    end.

(** The body of the [while] loop, lines 209-335, for the element read
    from the iterator, of which [elements] are left. *)
Definition on_element (continue : bool → state → list element → outcome)
    (template : jsstring) (returnNextKeyEnd : bool) (st : state)
    (element : element) (elements : list Scanner.element) : outcome :=
  on_sentence continue returnNextKeyEnd (advance template element st) element elements.

(** Lines 339-351: after the loop, the text that follows the last
    directive. *)
Definition on_done (template : jsstring) (st : state) : state :=
  if decide (template ≠ []) then push_text template (length template) st else st.

(** [_processBuildPrivateKey], lines 194-352, from the [while] of line 208
    on: one unit of [fuel] per element read. *)
Fixpoint build_loop (fuel : nat) (template : jsstring) (returnNextKeyEnd : bool)
    (st : state) (elements : list element) : outcome :=
  match fuel with
  | 0 => None
  | S fuel =>
      match elements with
      | [] =>
          let st := on_done template st in
          Some (Ok (Blocs (blocsObject st), objects st, []))
      | element :: elements =>
          on_element (build_loop fuel template) template returnNextKeyEnd st
            element elements
      end
  end.

(** [_processBuildPrivateKey], lines 194-352: the variables of lines
    200-205 and the loop. *)
Definition _processBuildPrivateKey (fuel : nat) (template : jsstring)
    (elements : list element) (returnNextKeyEnd : bool) (lastIndex : nat) (h : heap)
    : outcome :=
  build_loop fuel template returnNextKeyEnd (enter lastIndex h) elements.

(** The tree of the object at a reference: the depth is bounded by [fuel],
    and a reference to no object gives nothing. *)
Fixpoint reify (fuel : nat) (h : heap) (r : nat) : option bloc :=
  match fuel with
  | 0 => None
  | S fuel =>
      o ← h !! r;
      children ← mapM (reify fuel h) (BlocObject.children o);
      Some (TangularBloc.mk r (BlocObject.name o) children
              (BlocObject.instruction o) (BlocObject.isHTML o))
  end.

(** The trees of an array of references. *)
Definition reify_all (h : heap) (blocsObject : list nat) : option (list bloc) :=
  mapM (reify (S (length h)) h) blocsObject.

(** The bloc of an object without children. *)
Definition leaf_bloc (r : nat) (o : BlocObject.t) : bloc :=
  TangularBloc.mk r (BlocObject.name o) [] (BlocObject.instruction o) (BlocObject.isHTML o).

Definition is_leaf (o : BlocObject.t) : Prop := BlocObject.children o = [].

(** The fuel that is enough for the iterator of a template. *)
Definition build_fuel (elements : list element) : nat := S (length elements).

(** The elements on whose header the parser of conditions returns: the
    sentence does not end in an opening parenthesis. *)
Definition returns_header (element : element) : bool :=
  negb (bool_decide (last (_unspace (sentence_of element)) = Some "("%char)).

(** The keywords that the [switch] has a case for. *)
Definition keywords : list TangularPrivateKey.t :=
  [IF; ELSE; FI; FOREACH; FOR; END; CONTINUE; BREAK].

(** The objects of a written template that holds output expressions
    only: the text of a segment, when there is one, and its expression. *)
Definition text_objects (text : jsstring) : list BlocObject.t :=
  if decide (text = []) then [] else [text_object text].

Fixpoint flat_objects (segments : list segment) : list BlocObject.t :=
  match segments with
  | [] => []
  | (text, e) :: segments =>
      text_objects text ++ output_object (_trim e) :: flat_objects segments
  end.

Definition is_output (e : jsstring) : bool := negb (matches_privateKeys (_trim e)).

(** No bloc is open: [blocObject] is an object without a name. *)
Definition at_top (st : state) : Prop :=
  (BlocObject.name <$> objects st !! blocObject st) = Some NONE.

(** New objects pushed into [blocsObject]. *)
Definition push_all (os : list BlocObject.t) (st : state) : state :=
  mkState (lastIndex st) (blocsObject st ++ seq (length (objects st)) (length os))
    (blocObject st) (objects st ++ os).

(** The result of a call that has pushed the new objects [os] and
    nothing else. *)
Definition pushed (os : list BlocObject.t) (st : state) : outcome :=
  Some (Ok (Blocs (blocsObject (push_all os st)), objects (push_all os st), [])).

(** A call returns, and what it leaves in the iterator is a part of what
    it was given. *)
Definition returns_within (elements : list element) (res : outcome) : Prop :=
  ∃ r, res = Some r ∧ ∀ b h els, r = Ok (b, h, els) → els `suffix_of` elements.

(** ** Lemmas *)

(** *** The headers *)

Lemma parse_condition_returns (conditions : jsstring) :
  last conditions ≠ Some "("%char → is_Some (parse_condition conditions).
Proof. intros H. apply loop_terminates; [done|]. unfold enough_fuel. lia. Qed.

Lemma sentence_length (element : element) :
  length (sentence_of element) ≤ length (Scanner.value element).
Proof.
  unfold sentence_of. etrans; [apply trim_length|]. apply js_substring_length.
Qed.

(** What follows the keyword in a sentence is parsed when the sentence
    is. *)
Lemma instruction_returns (element : element) (a : Z) :
  returns_header element = true →
  is_Some (parse_condition (_unspace
    (js_substring (sentence_of element) a (Z.of_nat (length (Scanner.value element)))))).
Proof.
  intros Hel%negb_true_iff%bool_decide_eq_false. apply parse_condition_returns.
  intros Hlast. apply Hel. eapply last_suffix, Hlast.
  apply unspace_suffix, js_substring_suffix, sentence_length.
Qed.

Lemma header_returns (k : TangularPrivateKey.t) (element : element) :
  returns_header element = true → is_Some (header k (instruction_of element)).
Proof.
  intros Hel. unfold header. case_decide; [by apply instruction_returns|done].
Qed.

Lemma elseif_returns (element : element) :
  returns_header element = true →
  is_Some (parse_condition (instructionelseif_of element)).
Proof. apply instruction_returns. Qed.

(** *** The sentences of directives *)

Lemma sentence_of_directive (i : nat) (s : jsstring) :
  sentence_of (mkElement i (directive s)) = _trim s.
Proof.
  unfold sentence_of. cbn [value]. f_equal. rewrite directive_length.
  replace (Z.of_nat (length s + 4) - 2)%Z with (Z.of_nat (length (str "{{") + length s)).
  - apply (js_substring_middle (str "{{") s (str "}}")).
  - simpl. lia.
Qed.

Section keyed.
Context (el : element) (kw ins : jsstring).
Hypothesis Hkw : " "%char ∉ kw.

(** The key of a sentence is what precedes its first space, and the
    instruction what follows it. *)
Lemma instructionKey_keyed :
  sentence_of el = kw ++ " "%char :: ins → instructionKey_of el = kw.
Proof.
  intros Hs. unfold instructionKey_of. rewrite Hs, js_indexOf_app by done.
  rewrite decide_False by lia. apply js_substring_prefix.
Qed.

Lemma instruction_keyed :
  sentence_of el = kw ++ " "%char :: ins → instruction_of el = ins.
Proof.
  intros Hs. unfold instruction_of. rewrite instructionKey_keyed by done.
  pose proof (sentence_length el) as Hlen. rewrite Hs in *.
  replace (Z.of_nat (length kw) + 1)%Z with (Z.of_nat (length (kw ++ [" "%char])))
    by (rewrite length_app; simpl; lia).
  rewrite js_substring_drop by done.
  change (kw ++ " "%char :: ins) with (kw ++ [" "%char] ++ ins).
  by rewrite app_assoc, drop_app_length.
Qed.

Lemma instructionKey_bare : sentence_of el = kw → instructionKey_of el = kw.
Proof.
  intros Hs. unfold instructionKey_of. pose proof (sentence_length el) as Hlen.
  rewrite Hs in *. rewrite (proj2 (js_indexOf_absent _ _) Hkw), decide_True by done.
  rewrite (js_substring_drop kw 0) by done. apply drop_0.
Qed.

End keyed.

Lemma keyword_at_keyword (k : TangularPrivateKey.t) (rest : jsstring) :
  k ∈ keywords → default false (is_word_char <$> head rest) = false →
  keyword_at (TangularPrivateKey.to_string k ++ rest) = true.
Proof.
  intros Hk Hrest. apply existsb_exists. exists (TangularPrivateKey.to_string k). split.
  - apply list_elem_of_In. unfold keywords in Hk.
    elem_cases Hk; by_compute.
  - rewrite js_startsWith_app, <- (Nat.add_0_r (length _)), lookup_app_plus.
    by rewrite <- head_lookup, Hrest.
Qed.

Lemma matches_keyword (k : TangularPrivateKey.t) (rest : jsstring) :
  k ∈ keywords → default false (is_word_char <$> head rest) = false →
  matches_privateKeys (TangularPrivateKey.to_string k ++ rest) = true.
Proof.
  intros Hk Hrest. unfold matches_privateKeys. cbn [existsb].
  by rewrite keyword_at_keyword.
Qed.

Lemma case_of_keyword (k : TangularPrivateKey.t) :
  k ∈ keywords → case_of (TangularPrivateKey.to_string k) = Some k.
Proof.
  unfold keywords. intros Hk.
  by elem_cases Hk.
Qed.

Lemma keyword_no_space (k : TangularPrivateKey.t) :
  k ∈ keywords → " "%char ∉ TangularPrivateKey.to_string k.
Proof.
  unfold keywords. intros Hk.
  elem_cases Hk; by_compute.
Qed.

(** *** The body of the loop, directive by directive *)

Section steps.
Context {I : Type} (continue : bool → state → I → outcome_of I).
Context (returnNextKeyEnd : bool) (st : state).
Context (el : element) (els : I).

Lemma keyed_sentence (k : TangularPrivateKey.t) (ins : jsstring) :
  k ∈ keywords → sentence_of el = TangularPrivateKey.to_string k ++ " "%char :: ins →
  matches_privateKeys (sentence_of el) = true
  ∧ case_of (instructionKey_of el) = Some k ∧ instruction_of el = ins.
Proof.
  intros Hk Hs. pose proof (keyword_no_space k Hk).
  rewrite (instructionKey_keyed el _ ins), (instruction_keyed el _ ins) by done.
  rewrite Hs, matches_keyword, case_of_keyword by done. done.
Qed.

Lemma bare_sentence (k : TangularPrivateKey.t) :
  k ∈ keywords → sentence_of el = TangularPrivateKey.to_string k →
  matches_privateKeys (sentence_of el) = true ∧ case_of (instructionKey_of el) = Some k.
Proof.
  intros Hk Hs. pose proof (keyword_no_space k Hk).
  rewrite (instructionKey_bare el _) by done.
  rewrite Hs, case_of_keyword by done. split; [|done].
  rewrite <- (app_nil_r (TangularPrivateKey.to_string k)). by apply matches_keyword.
Qed.

(** An output expression: lines 230-245. *)
Lemma on_sentence_output :
  matches_privateKeys (sentence_of el) = false →
  on_sentence continue returnNextKeyEnd st el els =
    continue returnNextKeyEnd
      (push_here (output_object (sentence_of el)) st) els.
Proof. intros Hs. unfold on_sentence. by rewrite Hs. Qed.

(** [if], [for] and [foreach] where no bloc is open: lines 282-288. *)
Lemma on_sentence_open (k : TangularPrivateKey.t) (ins : jsstring) :
  k ∈ [IF; FOR; FOREACH] →
  sentence_of el = TangularPrivateKey.to_string k ++ " "%char :: ins →
  nests st = false →
  on_sentence continue returnNextKeyEnd st el els =
    parsed ← header k ins;
    continue returnNextKeyEnd
      (new_blocObject (BlocObject.mk k [] parsed false) st) els.
Proof.
  intros Hk Hs Hnests.
  assert (k ∈ keywords) as Hkw by (elem_cases Hk; by_compute).
  destruct (keyed_sentence k ins) as (Hm & Hc & Hi); [done..|].
  unfold on_sentence. rewrite Hm, Hc, Hi, Hnests. cbn [negb].
  by elem_cases Hk.
Qed.

(** [if], [for] and [foreach] inside an open bloc: lines 263-280, when the
    nested call returns at a closing directive. *)
Lemma on_sentence_nested (k : TangularPrivateKey.t) (ins : jsstring)
    (lastIndex' : nat) (blocsObject' : list nat) (blocObject' : nat) (h : heap)
    (els' : I) :
  k ∈ [IF; FOR; FOREACH] →
  sentence_of el = TangularPrivateKey.to_string k ++ " "%char :: ins →
  nests st = true →
  continue true (enter (lastIndex st)
                   (objects st)) els =
    Some (Ok (Nested lastIndex' blocsObject' blocObject', h, els')) →
  on_sentence continue returnNextKeyEnd st el els =
    parsed ← header k ins;
    continue returnNextKeyEnd
      (push_nested k parsed lastIndex' blocsObject' blocObject' h
         st) els'.
Proof.
  intros Hk Hs Hnests Hnested.
  assert (k ∈ keywords) as Hkw by (elem_cases Hk; by_compute).
  destruct (keyed_sentence k ins) as (Hm & Hc & Hi); [done..|].
  unfold on_sentence. rewrite Hm, Hc, Hi, Hnests, Hnested. cbn [negb].
  by elem_cases Hk.
Qed.

(** [else]: lines 290-310 when the sentence is not an [else if]. *)
Lemma on_sentence_else :
  sentence_of el = str "else" →
  on_sentence continue returnNextKeyEnd st el els =
    continue returnNextKeyEnd
      (new_blocObject (BlocObject.mk ELSE [] NUndefined false) st)
      els.
Proof.
  intros Hs. destruct (bare_sentence ELSE) as [Hm Hc]; [by_compute|done|].
  unfold on_sentence. by rewrite Hm, Hc, Hs.
Qed.

(** [else if]: lines 290-310. *)
Lemma on_sentence_elseif (conditions : jsstring) :
  sentence_of el = str "else if " ++ conditions →
  on_sentence continue returnNextKeyEnd st el els =
    parsed ← parse_condition (_unspace conditions);
    continue returnNextKeyEnd
      (push_blocObject
         (new_blocObject (BlocObject.mk ELSEIF [] parsed false)
            (push_blocObject st))) els.
Proof.
  intros Hs.
  destruct (keyed_sentence ELSE (str "if " ++ conditions)) as (Hm & Hc & _);
    [by_compute|done|].
  assert (instructionelseif_of el = _unspace conditions) as Hi.
  { unfold instructionelseif_of. pose proof (sentence_length el) as Hlen.
    rewrite Hs in *. rewrite js_substring_drop by done. done. }
  unfold on_sentence. by rewrite Hm, Hc, Hi, Hs.
Qed.

(** [continue] and [break]: lines 311-318. *)
Lemma on_sentence_signal (k : TangularPrivateKey.t) :
  k ∈ [CONTINUE; BREAK] → sentence_of el = TangularPrivateKey.to_string k →
  on_sentence continue returnNextKeyEnd st el els =
    continue returnNextKeyEnd
      (push_signal (BlocObject.mk k [] NUndefined false) st) els.
Proof.
  intros Hk Hs.
  assert (k ∈ keywords) as Hkw by (elem_cases Hk; by_compute).
  destruct (bare_sentence k) as [Hm Hc]; [done..|].
  unfold on_sentence. rewrite Hm, Hc. cbn [negb].
  by elem_cases Hk.
Qed.

(** [fi] and [end]: lines 319-334. *)
Lemma on_sentence_close (k : TangularPrivateKey.t) :
  k ∈ [END; FI] → sentence_of el = TangularPrivateKey.to_string k →
  on_sentence continue returnNextKeyEnd st el els =
    if returnNextKeyEnd then
      Some (Ok (Nested (lastIndex st)
                  (blocsObject st)
                  (blocObject st),
                objects st, els))
    else
      continue false
        (new_blocObject (BlocObject.mk NONE [] NUndefined false)
           (push_blocObject st)) els.
Proof.
  intros Hk Hs.
  assert (k ∈ keywords) as Hkw by (elem_cases Hk; by_compute).
  destruct (bare_sentence k) as [Hm Hc]; [done..|].
  unfold on_sentence. rewrite Hm, Hc. cbn [negb].
  elem_cases Hk; by destruct returnNextKeyEnd.
Qed.

End steps.

(** *** Written templates of output expressions *)

Lemma name_of_app (h h' : heap) (r : nat) :
  r < length h → name_of (h ++ h') r = name_of h r.
Proof. intros Hr. unfold name_of. by rewrite lookup_app_l. Qed.

Lemma at_top_name (st : state) : at_top st → name_of (objects st) (blocObject st) = NONE.
Proof. unfold at_top, name_of. by intros ->. Qed.

Lemma at_top_lt (st : state) : at_top st → blocObject st < length (objects st).
Proof.
  unfold at_top. intros H. apply lookup_lt_is_Some.
  destruct (objects st !! blocObject st); [done|done].
Qed.

Lemma push_all_nil (st : state) : push_all [] st = st.
Proof. destruct st. unfold push_all. simpl. by rewrite !app_nil_r. Qed.

Lemma push_all_app (os1 os2 : list BlocObject.t) (st : state) :
  push_all os2 (push_all os1 st) = push_all (os1 ++ os2) st.
Proof.
  unfold push_all. cbn. rewrite !length_app, seq_app, <- !app_assoc. done.
Qed.

Lemma at_top_push_all (os : list BlocObject.t) (st : state) :
  at_top st → at_top (push_all os st).
Proof.
  intros H. pose proof (at_top_lt _ H). unfold at_top in *. cbn.
  by rewrite lookup_app_l.
Qed.

Lemma push_here_top (o : BlocObject.t) (st : state) :
  at_top st → push_here o st = push_all [o] st.
Proof.
  intros H. unfold push_here.
  by rewrite name_of_app, at_top_name, decide_True by (done || by apply at_top_lt).
Qed.

Lemma advance_segment (pre text e rest : jsstring) (st : state) :
  lastIndex st = length pre →
  advance (pre ++ text ++ directive e ++ rest)
    (mkElement (length pre + length text) (directive e)) st =
  set_lastIndex (length pre + length text + length (directive e))
    (if decide (text = []) then st else push_here (text_object text) st).
Proof.
  intros Hst. unfold advance, push_text. cbn [index value]. f_equal.
  rewrite Hst. destruct text as [|c text]; [by rewrite decide_False by (simpl; lia)|].
  rewrite decide_True, decide_False by (done || simpl; lia).
  by rewrite js_substring_middle.
Qed.

Lemma advance_segment_top (pre text e rest : jsstring) (st : state) :
  lastIndex st = length pre → at_top st →
  advance (pre ++ text ++ directive e ++ rest)
    (mkElement (length pre + length text) (directive e)) st =
  set_lastIndex (length pre + length text + length (directive e))
    (push_all (text_objects text) st).
Proof.
  intros Hst Htop. rewrite advance_segment by done. unfold text_objects.
  case_decide; [by rewrite push_all_nil|by rewrite push_here_top].
Qed.

Lemma on_done_top (pre trailing : jsstring) (st : state) :
  lastIndex st = length pre → at_top st →
  on_done (pre ++ trailing) st = push_all (text_objects trailing) st.
Proof.
  intros Hst Htop. unfold on_done, push_text, text_objects. rewrite Hst.
  destruct trailing as [|c trailing].
  - rewrite app_nil_r, (decide_False (P := length pre ≠ length pre)) by lia.
    rewrite push_all_nil. by case_decide.
  - rewrite decide_True by by destruct pre.
    rewrite decide_True by (rewrite length_app; simpl; lia).
    rewrite decide_False by done. rewrite push_here_top by done. do 3 f_equal.
    rewrite length_app. rewrite <- (app_nil_r (c :: trailing)) at 1.
    apply (js_substring_middle pre (c :: trailing) []).
Qed.

Lemma pushed_push_all (os1 os2 : list BlocObject.t) (st : state) :
  pushed os2 (push_all os1 st) = pushed (os1 ++ os2) st.
Proof. unfold pushed. by rewrite push_all_app. Qed.

Lemma pushed_set_lastIndex (os : list BlocObject.t) (i : nat) (st : state) :
  pushed os (set_lastIndex i st) = pushed os st.
Proof. done. Qed.

Lemma build_loop_flat (segments : list segment) (trailing pre : jsstring)
    (st : state) (fuel : nat) (b : bool) :
  forallb (λ s, is_output s.2) segments = true →
  lastIndex st = length pre → at_top st → length segments < fuel →
  build_loop fuel (pre ++ print segments trailing) b st
    (elements_of (length pre) segments) =
  pushed (flat_objects segments ++ text_objects trailing) st.
Proof.
  revert pre st fuel.
  induction segments as [|[text e] segments IH]; intros pre st fuel Hout Hst Htop Hfuel;
    (destruct fuel as [|fuel]; [simpl in Hfuel; lia|]).
  - cbn [build_loop elements_of print foldr flat_objects app].
    by rewrite on_done_top.
  - cbn [forallb] in Hout. apply andb_true_iff in Hout as [He%negb_true_iff Hout].
    cbn [build_loop elements_of print foldr flat_objects].
    unfold on_element.
    rewrite on_sentence_output, advance_segment_top, sentence_of_directive;
      [|done..|by rewrite sentence_of_directive].
    set (st1 := set_lastIndex _ _).
    assert (at_top st1) as Htop1 by by apply (at_top_push_all _ st).
    rewrite push_here_top by done.
    rewrite !(app_assoc pre), (app_assoc (pre ++ text)), <- (app_assoc pre).
    replace (length pre + length text + length (directive e))
      with (length (pre ++ text ++ directive e)) by (rewrite !length_app; lia).
    rewrite IH; [|done| |by apply at_top_push_all|simpl in Hfuel; lia].
    + unfold st1. rewrite pushed_push_all, pushed_set_lastIndex, pushed_push_all.
      by rewrite <- app_assoc.
    + unfold st1. cbn [push_all set_lastIndex lastIndex]. rewrite !length_app. lia.
Qed.

(** *** The trees of objects without children *)

Lemma reify_leaf (fuel : nat) (h : heap) (r : nat) (o : BlocObject.t) :
  h !! r = Some o → is_leaf o → reify (S fuel) h r = Some (leaf_bloc r o).
Proof. intros Hr Ho. cbn [reify]. rewrite Hr. cbn. by rewrite Ho. Qed.

Lemma reify_all_leaves (h0 : heap) (os : list BlocObject.t) :
  Forall is_leaf os →
  reify_all (h0 ++ os) (seq (length h0) (length os)) =
    Some (imap (λ i, leaf_bloc (length h0 + i)) os).
Proof.
  intros Hos. unfold reify_all. apply mapM_Some, Forall2_same_length_lookup.
  split; [by rewrite length_seq, length_imap|].
  intros i r b Hr Hb. apply lookup_seq in Hr as [-> Hi].
  apply list_lookup_imap_Some in Hb as (o & Ho & ->).
  apply reify_leaf; [by rewrite lookup_app_r, Nat.add_comm, Nat.add_sub by lia|].
  by eapply Forall_lookup_1 in Hos.
Qed.

Lemma flat_objects_leaves (segments : list segment) (trailing : jsstring) :
  Forall is_leaf (flat_objects segments ++ text_objects trailing).
Proof.
  apply Forall_app. split; [|by unfold text_objects; case_decide; repeat constructor].
  induction segments as [|[text e] segments IH]; [done|]. cbn [flat_objects].
  apply Forall_app. split; [by unfold text_objects; case_decide; repeat constructor|].
  by constructor.
Qed.

Lemma elements_of_length (i : nat) (segments : list segment) :
  length (elements_of i segments) = length segments.
Proof.
  revert i. induction segments as [|[text e] segments IH]; intros i; [done|].
  simpl. by rewrite IH.
Qed.

(** *** Calls where no bloc is open *)

Lemma nests_at_top (st : state) : at_top st → nests st = false.
Proof. intros Htop. unfold nests. by rewrite at_top_name. Qed.

Lemma at_top_enter (i : nat) (h : heap) : at_top (enter i h).
Proof. unfold at_top, enter. cbn. by rewrite lookup_app_r, Nat.sub_diag by lia. Qed.

Lemma at_top_set_lastIndex (i : nat) (st : state) : at_top st → at_top (set_lastIndex i st).
Proof. done. Qed.

(** *** Termination *)

Lemma returns_within_Some (elements : list element)
    (r : result (built * heap * list element)) :
  (∀ b h els, r = Ok (b, h, els) → els `suffix_of` elements) →
  returns_within elements (Some r).
Proof. by exists r. Qed.

Lemma returns_within_bind {A} (elements : list element) (m : option A)
    (k : A → outcome) :
  is_Some m → (∀ a, returns_within elements (k a)) → returns_within elements (m ≫= k).
Proof. intros [a ->] Hk. apply Hk. Qed.

Lemma returns_within_suffix (els' els : list element) (res : outcome) :
  els' `suffix_of` els → returns_within els' res → returns_within els res.
Proof.
  intros Hs (r & -> & Hr). exists r. split; [done|]. intros. by etrans; [eapply Hr|].
Qed.

Lemma returns_within_is_Some (elements : list element) (res : outcome) :
  returns_within elements res → is_Some res.
Proof. intros (r & -> & _). by eexists. Qed.

Section on_element.
Context (continue : bool → state → list element → outcome) (template : jsstring).
Context (element : element) (elements : list Scanner.element).
Hypothesis Hel : returns_header element = true.
Hypothesis Hcontinue :
  ∀ b st els, els `suffix_of` elements → returns_within els (continue b st els).

(** The body of the loop returns when the next turns and the nested call
    do, on what is left of the iterator. *)
Lemma on_element_returns (returnNextKeyEnd : bool) (st : state) :
  returns_within elements
    (on_element continue template returnNextKeyEnd st element elements).
Proof.
  unfold on_element, on_sentence. set (st1 := advance _ _ _).
  assert (∀ b st, returns_within elements (continue b st elements)) as Hnext
    by (intros; by apply Hcontinue).
  destruct (negb _); [done|].
  destruct (case_of _) as [[]|]; try apply Hnext.
  all: try (destruct returnNextKeyEnd; [|done]; apply returns_within_Some;
            by intros ??? [= <- <- <-]).
  all: try (destruct (js_startsWith _ _); [|done];
            by apply returns_within_bind; [apply elseif_returns|]).
  all: destruct (nests _); [|by apply returns_within_bind; [apply header_returns|]].
  all: destruct (Hnext true (enter (lastIndex st1) (objects st1))) as (r & -> & Hr);
    cbn [mbind option_bind]; destruct r as [[[[] hn] eln]|]; [..|by apply returns_within_Some];
    (apply returns_within_bind; [by apply header_returns|intros parsed]);
    [by apply returns_within_Some|].
  all: eapply returns_within_suffix, Hcontinue; by eapply Hr.
Qed.

End on_element.

Lemma build_loop_returns (fuel : nat) (template : jsstring) (returnNextKeyEnd : bool)
    (st : state) (elements : list element) :
  Forall (λ el, returns_header el = true) elements → length elements < fuel →
  returns_within elements (build_loop fuel template returnNextKeyEnd st elements).
Proof.
  revert returnNextKeyEnd st elements.
  induction fuel as [|fuel IH]; intros b st elements Hels Hfuel; [lia|].
  destruct Hels as [|el els Hel Hels]; cbn [build_loop].
  { apply returns_within_Some. by intros ??? [= <- <- <-]. }
  simpl in Hfuel. apply (returns_within_suffix els); [by apply suffix_cons_r|].
  apply on_element_returns; [done|]. intros b' st' els' Hsuffix. apply IH.
  - destruct Hsuffix as [k ->]. by apply Forall_app in Hels as [_ ?].
  - apply suffix_length in Hsuffix. lia.
Qed.

(** A call that is not nested returns an array. *)
Lemma build_loop_top (fuel : nat) (template : jsstring) (st : state)
    (elements : list element) (lastIndex' : nat) (blocsObject' : list nat)
    (blocObject' : nat) (h : heap) (els : list element) :
  build_loop fuel template false st elements ≠
    Some (Ok (Nested lastIndex' blocsObject' blocObject', h, els)).
Proof.
  revert st elements. induction fuel as [|fuel IH]; intros st elements; [done|].
  destruct elements as [|el elements]; cbn [build_loop]; [done|].
  unfold on_element, on_sentence. destruct (negb _); [apply IH|].
  destruct (case_of _) as [[]|]; try apply IH.
  all: try (destruct (js_startsWith _ _); [|apply IH];
            destruct (parse_condition _); [apply IH|done]).
  all: destruct (nests _); [|destruct (header _ _); [apply IH|done]].
  all: destruct (build_loop fuel template true _ elements) as [[[[[] ?] ?]|]|];
    try done; destruct (header _ _); try done; apply IH.
Qed.

(** ** Properties *)

(** C7: [_processBuildPrivateKey] returns, or throws, within one turn of
    its loops per element of the iterator, provided that no sentence ends
    in an opening parenthesis, which is when the parser of conditions
    returns on every header. *)
Theorem processBuildPrivateKey_returns (template : jsstring) (elements : list element)
    (returnNextKeyEnd : bool) (lastIndex : nat) (h : heap) :
  Forall (λ el, returns_header el = true) elements →
  is_Some (_processBuildPrivateKey (build_fuel elements) template elements
             returnNextKeyEnd lastIndex h).
Proof.
  intros Hels. eapply returns_within_is_Some, build_loop_returns; [done|].
  unfold build_fuel. lia.
Qed.

Lemma processBuildPrivateKey_returns_witness :
  is_Some (_processBuildPrivateKey (build_fuel (scan (str "{{if (a)}}x{{fi}}")))
             (str "{{if (a)}}x{{fi}}") (scan (str "{{if (a)}}x{{fi}}")) false 0 []).
Proof. apply processBuildPrivateKey_returns. by_compute. Defined.

Section diverges.
Context (w rest : jsstring).
Hypothesis Hne : w ≠ [].
Hypothesis Hparser : is_word w.
Hypothesis Hword : Forall (λ c, is_space c = false) w.
Hypothesis Hbrace : "}"%char ∉ w.

Lemma header_expression : is_expression (str "if " ++ w ++ str "(") = true.
Proof.
  unfold is_expression. apply andb_true_iff. split; [done|].
  apply forallb_forall. intros c Hc%list_elem_of_In.
  rewrite !elem_of_app in Hc. apply andb_true_iff.
  destruct Hc as [Hc|[Hc|Hc]].
  - elem_cases Hc; done.
  - split; apply negb_true_iff.
    + apply ascii_eqb_neq. by intros ->.
    + apply not_space_not_terminator. by eapply Forall_forall in Hword.
  - elem_cases Hc; done.
Qed.

Lemma header_sentence (i : nat) :
  sentence_of (mkElement i (directive (str "if " ++ w ++ str "("))) =
    str "if" ++ " "%char :: (w ++ str "(").
Proof.
  rewrite sentence_of_directive.
  apply (trim_two_words (str "if") (w ++ str "(")); try done.
  - by repeat constructor.
  - apply Forall_app. split; [done|by repeat constructor].
  - by destruct w.
Qed.

(** C17: [_processBuildPrivateKey] does not return on a template that
    starts with an [if] whose header is a word and an opening parenthesis,
    such as [{{if a(}}], whatever follows: the parser of conditions does not
    return on that header. *)
Theorem processBuildPrivateKey_diverges (fuel : nat) :
  let template := directive (str "if " ++ w ++ str "(") ++ rest in
  _processBuildPrivateKey fuel template (scan template) false 0 [] = None.
Proof.
  cbn zeta. unfold scan. set (e := str "if " ++ w ++ str "(").
  pose proof (scan_directive [] e rest [] (not_elem_of_nil _) eq_refl header_expression)
    as Hscan.
  cbn [app length] in Hscan. rewrite Hscan.
  destruct fuel as [|fuel]; [done|]. unfold _processBuildPrivateKey. cbn [build_loop app length].
  unfold on_element. rewrite (on_sentence_open _ _ _ _ _ IF (w ++ str "(")).
  - unfold header. rewrite decide_True by done.
    rewrite unspace_id by (apply Forall_app; split; [done|by repeat constructor]).
    unfold parse_condition. by rewrite processConditionBuild_diverges.
  - by left.
  - apply header_sentence.
  - apply nests_at_top. pose proof (advance_segment_top [] [] e rest (enter 0 [])) as Ha.
    cbn [app length] in Ha. rewrite Ha by (done || apply at_top_enter).
    apply at_top_set_lastIndex, at_top_push_all, at_top_enter.
Qed.
End diverges.

Lemma processBuildPrivateKey_diverges_witness :
  _processBuildPrivateKey 1000 (str "{{if a(}}x{{fi}}") (scan (str "{{if a(}}x{{fi}}"))
    false 0 [] = None.
Proof.
  apply (processBuildPrivateKey_diverges (str "a") (str "x{{fi}}")); by_compute || done.
Defined.
