(* ===== verification/BuilderHeap.v ===== *)
(** * BuilderHeap: the objects of the builder form trees

    The builder of [Builder] stores references to objects that it changes
    later.  This file shows that what it builds can always be read as
    trees: every call of [_processBuildPrivateKey] leaves the objects that
    it was given as they were, the objects that it allocates refer to
    objects of the same call or of its nested calls only, and none of them
    is reached from itself. *)

From Stdlib Require Import Ascii String ZArith Lia.
From stdpp Require Import base tactics list option strings.
From S2P Require Import Prelude JsString Syntax ConditionParser Whitespace Scanner Builder.

#[local] Set Warnings "-register-all".

Import PK.

(** ** Definitions *)

(** The references of the objects allocated after the first [n0]. *)
Definition own (n0 : nat) (h : heap) (r : nat) : Prop := n0 ≤ r < length h.

(** The objects of [h] after those of [h0] form trees: [h] extends [h0],
    the children of a new object are new objects, and the tree of a new
    object is no deeper than the number of the new objects. *)
Record closed (h0 h : heap) : Prop := mkClosed {
  closed_frame : h0 `prefix_of` h;
  closed_children (r : nat) (o : BlocObject.t) :
    h !! r = Some o → length h0 ≤ r →
    Forall (own (length h0) h) (BlocObject.children o);
  closed_reify (r : nat) :
    own (length h0) h r → is_Some (reify (length h - length h0) h r)
}.

(** No new object has the object at [b] as a child. *)
Definition unshared (n0 : nat) (h : heap) (b : nat) : Prop :=
  ∀ r o, h !! r = Some o → n0 ≤ r → b ∉ BlocObject.children o.

(** The invariant of the variables of a call that was given the objects
    [h0]: [blocObject] and the elements of [blocsObject] are new objects,
    and [blocObject] is not yet a child. *)
Record wf (h0 : heap) (st : state) : Prop := mkWf {
  wf_closed : closed h0 (objects st);
  wf_blocObject : own (length h0) (objects st) (blocObject st);
  wf_blocsObject : Forall (own (length h0) (objects st)) (blocsObject st);
  wf_unshared : unshared (length h0) (objects st) (blocObject st)
}.

(** The invariant of what a call returns. *)
Definition wf_built {I : Type} (h0 : heap) (r : built * heap * I) : Prop :=
  match r with
  | (Blocs blocsObject, h, _) => closed h0 h ∧ Forall (own (length h0) h) blocsObject
  | (Nested lastIndex blocsObject blocObject, h, _) =>
      wf h0 (mkState lastIndex blocsObject blocObject h)
  end.

Definition wf_outcome {I : Type} (h0 : heap) (res : outcome_of I) : Prop :=
  ∀ r, res = Some (Ok r) → wf_built h0 r.

(** ** Lemmas *)

(** *** Reading trees *)

Lemma reify_is_Some (fuel : nat) (h : heap) (r : nat) :
  is_Some (reify (S fuel) h r) ↔
  ∃ o, h !! r = Some o ∧
       Forall (λ c, is_Some (reify fuel h c)) (BlocObject.children o).
Proof.
  cbn [reify]. destruct (h !! r) as [o|]; cbn.
  - pose proof (mapM_is_Some (reify fuel h) (BlocObject.children o)) as Hm.
    unfold compose in Hm. destruct (mapM _ _); cbn; split.
    + intros _. exists o. split; [done|]. by apply Hm.
    + by eexists.
    + by intros [? [=]].
    + intros (? & [= <-] & Hc). by apply Hm in Hc as [? [=]].
  - split; [by intros [? [=]]|by intros (? & [=] & _)].
Qed.

Lemma reify_fuel (fuel fuel' : nat) (h : heap) (r : nat) :
  fuel ≤ fuel' → is_Some (reify fuel h r) → is_Some (reify fuel' h r).
Proof.
  revert fuel' r. induction fuel as [|fuel IH]; intros fuel' r Hle; [by intros [? [=]]|].
  destruct fuel' as [|fuel']; [lia|]. rewrite !reify_is_Some.
  intros (o & Ho & Hc). exists o. split; [done|].
  eapply Forall_impl; [done|]. intros c. apply IH. lia.
Qed.

Lemma reify_app (fuel : nat) (h h' : heap) (r : nat) :
  is_Some (reify fuel h r) → is_Some (reify fuel (h ++ h') r).
Proof.
  revert r. induction fuel as [|fuel IH]; intros r; [by intros [? [=]]|].
  rewrite !reify_is_Some. intros (o & Ho & Hc). exists o.
  split; [by apply lookup_app_l_Some|]. eapply Forall_impl; [done|]. apply IH.
Qed.

(** The tree of an object does not change when a child is pushed into an
    object that it does not reach. *)
Lemma reify_push_child (fuel n0 : nat) (h : heap) (b x r : nat) :
  (∀ r o, h !! r = Some o → n0 ≤ r →
          Forall (λ c, n0 ≤ c ∧ c ≠ b) (BlocObject.children o)) →
  n0 ≤ r → r ≠ b →
  is_Some (reify fuel h r) → is_Some (reify fuel (push_child b x h) r).
Proof.
  intros Hh. revert r. induction fuel as [|fuel IH]; intros r Hr Hb; [by intros [? [=]]|].
  rewrite !reify_is_Some. intros (o & Ho & Hc). exists o.
  split; [by unfold push_child; rewrite list_lookup_alter_ne|].
  specialize (Hh _ _ Ho Hr). rewrite Forall_forall in *.
  intros c Hin. destruct (Hh c Hin). apply IH; auto.
Qed.

(** *** Heaps whose new objects form trees *)

Lemma own_app (n0 : nat) (h h' : heap) (r : nat) : own n0 h r → own n0 (h ++ h') r.
Proof. unfold own. rewrite length_app. lia. Qed.

Lemma own_weaken (n0 n1 : nat) (h : heap) (r : nat) : n0 ≤ n1 → own n1 h r → own n0 h r.
Proof. unfold own. lia. Qed.

Lemma own_push_child (n0 : nat) (h : heap) (b x r : nat) :
  own n0 (push_child b x h) r ↔ own n0 h r.
Proof. unfold own, push_child. by rewrite length_alter. Qed.

Lemma closed_length (h0 h : heap) : closed h0 h → length h0 ≤ length h.
Proof. intros [Hf _ _]. by apply prefix_length. Qed.

Lemma closed_refl (h : heap) : closed h h.
Proof.
  split; [done|..].
  - intros r o Hr%lookup_lt_Some. lia.
  - unfold own. lia.
Qed.

(** A new object whose children are new objects. *)
Lemma closed_alloc (h0 h : heap) (o : BlocObject.t) :
  closed h0 h → Forall (own (length h0) h) (BlocObject.children o) →
  closed h0 (h ++ [o]).
Proof.
  intros Hc Ho. pose proof (closed_length _ _ Hc) as Hlen. destruct Hc as [Hf Hch Hre].
  assert (∀ c, own (length h0) h c →
               is_Some (reify (length h - length h0) (h ++ [o]) c)) as Hold
    by (intros; by apply reify_app, Hre).
  split; [by apply prefix_app_r|..].
  - intros r o' Hr Hle. eapply Forall_impl; [|intros ?; apply own_app].
    apply lookup_app_Some in Hr as [Hr|[_ Hr]]; [by eapply Hch|].
    by apply list_lookup_singleton_Some in Hr as [_ <-].
  - intros r [Hle Hlt]. rewrite length_app in *. cbn [length] in *.
    replace (length h + 1 - length h0) with (S (length h - length h0)) by lia.
    destruct (decide (r = length h)) as [->|].
    + apply reify_is_Some. exists o. split; [by apply list_lookup_middle|].
      eapply Forall_impl; [done|]. apply Hold.
    + apply (reify_fuel (length h - length h0)); [lia|]. apply Hold. unfold own. lia.
Qed.

Lemma closed_trans (h0 h1 h2 : heap) : closed h0 h1 → closed h1 h2 → closed h0 h2.
Proof.
  intros H01 H12. pose proof (closed_length _ _ H01). pose proof (closed_length _ _ H12).
  destruct H01 as [Hf1 Hch1 Hre1], H12 as [[k ->] Hch2 Hre2].
  split; [by apply prefix_app_r|..].
  - intros r o Hr Hle. destruct (decide (r < length h1)).
    + rewrite lookup_app_l in Hr by done.
      eapply Forall_impl; [by eapply Hch1|]. intros ?. apply own_app.
    + eapply Forall_impl; [eapply Hch2; [done|lia]|]. intros ?. by apply own_weaken.
  - intros r [Hle Hlt]. destruct (decide (r < length h1)).
    + apply (reify_fuel (length h1 - length h0)); [lia|]. by apply reify_app, Hre1.
    + apply (reify_fuel (length (h1 ++ k) - length h1)); [lia|]. apply Hre2. unfold own. lia.
Qed.

(** *** Objects that are not children yet *)

Lemma unshared_old (h0 h : heap) (b : nat) :
  closed h0 h → b < length h0 → unshared (length h0) h b.
Proof.
  intros Hc Hb r o Hr Hle Hin.
  eapply Forall_forall in Hin; [|by eapply closed_children]. unfold own in Hin. lia.
Qed.

Lemma unshared_new (h0 h : heap) : closed h0 h → unshared (length h0) h (length h).
Proof.
  intros Hc r o Hr Hle Hin.
  eapply Forall_forall in Hin; [|by eapply closed_children]. unfold own in Hin. lia.
Qed.

Lemma unshared_alloc (n0 : nat) (h : heap) (o : BlocObject.t) (b : nat) :
  unshared n0 h b → b ∉ BlocObject.children o → unshared n0 (h ++ [o]) b.
Proof.
  intros Hu Ho r o' Hr Hle. apply lookup_app_Some in Hr as [Hr|[_ Hr]]; [by eapply Hu|].
  by apply list_lookup_singleton_Some in Hr as [_ <-].
Qed.

Lemma unshared_trans (h0 h1 h2 : heap) (b : nat) :
  closed h1 h2 → length h0 ≤ length h1 → b < length h1 →
  unshared (length h0) h1 b → unshared (length h0) h2 b.
Proof.
  intros Hc Hlen Hb Hu r o Hr Hle. destruct (decide (r < length h1)).
  - destruct Hc as [[k ->] _ _]. rewrite lookup_app_l in Hr by done. by eapply Hu.
  - eapply unshared_old; [done..|lia].
Qed.

Lemma unshared_push_child (n0 : nat) (h : heap) (b x : nat) :
  unshared n0 h b → x ≠ b → unshared n0 (push_child b x h) b.
Proof.
  intros Hu Hx r o Hr Hle. unfold push_child in Hr.
  destruct (decide (r = b)) as [->|]; [|rewrite list_lookup_alter_ne in Hr by done; by eapply Hu].
  rewrite list_lookup_alter_eq in Hr. destruct (h !! b) as [o1|] eqn:Hb; [|by cbn in Hr].
  injection Hr as <-. cbn. rewrite not_elem_of_app, not_elem_of_cons.
  split; [by eapply Hu|]. split; [done|apply not_elem_of_nil].
Qed.

Lemma closed_avoids (h0 h : heap) (b r : nat) (o : BlocObject.t) :
  closed h0 h → unshared (length h0) h b → h !! r = Some o → length h0 ≤ r →
  Forall (λ c, length h0 ≤ c ∧ c ≠ b) (BlocObject.children o).
Proof.
  intros Hc Hu Hr Hle. apply Forall_forall. intros c Hin. split.
  - eapply Forall_forall in Hin; [|by eapply closed_children]. apply Hin.
  - intros ->. by eapply Hu.
Qed.

(** A child pushed into an object that is not a child yet: the child is
    another new object, whose tree leaves room for one more level. *)
Lemma closed_push_child (h0 h : heap) (b x : nat) :
  closed h0 h → unshared (length h0) h b →
  own (length h0) h b → own (length h0) h x → x ≠ b →
  is_Some (reify (length h - length h0 - 1) h x) →
  closed h0 (push_child b x h).
Proof.
  intros Hc Hu Hb Hx Hne Hre.
  assert (∀ fuel r, length h0 ≤ r → r ≠ b → is_Some (reify fuel h r) →
                    is_Some (reify fuel (push_child b x h) r)) as Hkeep
    by (intros; eapply reify_push_child; [intros; by eapply closed_avoids|done..]).
  destruct (lookup_lt_is_Some_2 h b) as [o Ho]; [apply Hb|].
  split.
  - destruct (closed_frame _ _ Hc) as [k ->]. unfold push_child.
    rewrite alter_app_r_alt by apply Hb. by apply prefix_app_r.
  - intros r o' Hr Hle. eapply Forall_impl; [|intros ?; apply own_push_child].
    unfold push_child in Hr. destruct (decide (r = b)) as [->|].
    + rewrite list_lookup_alter_eq, Ho in Hr. injection Hr as <-. cbn.
      apply Forall_app. split; [by eapply closed_children|by apply Forall_singleton].
    + rewrite list_lookup_alter_ne in Hr by done. by eapply closed_children.
  - intros r Hr. rewrite own_push_child in Hr.
    replace (length (push_child b x h)) with (length h)
      by (unfold push_child; by rewrite length_alter).
    destruct (decide (r = b)) as [->|]; [|apply Hkeep; [apply Hr|done|by apply closed_reify]].
    pose proof (closed_reify _ _ Hc b Hb) as Hold.
    replace (length h - length h0) with (S (length h - length h0 - 1)) in Hold |- *
      by (destruct Hb; lia).
    apply reify_is_Some in Hold as (o' & Ho' & Hch). simplify_eq.
    apply reify_is_Some. eexists.
    split; [by unfold push_child; rewrite list_lookup_alter_eq, Ho|].
    cbn. apply Forall_app. split; [|apply Forall_singleton, Hkeep; [apply Hx|done..]].
    pose proof (closed_avoids _ _ _ _ _ Hc Hu Ho (proj1 Hb)) as Hav.
    eapply Forall_impl; [apply Forall_and; split; [exact Hch|exact Hav]|].
    intros c [? []]. by apply Hkeep.
Qed.

(** *** The steps of the builder keep the invariant *)

Lemma wf_length (h0 : heap) (st : state) : wf h0 st → length h0 < length (objects st).
Proof. intros [_ [] _ _]. lia. Qed.

Lemma wf_set_lastIndex (h0 : heap) (i : nat) (st : state) :
  wf h0 st → wf h0 (set_lastIndex i st).
Proof. by intros []. Qed.

Lemma wf_enter (i : nat) (h : heap) : wf h (enter i h).
Proof.
  assert (closed h (h ++ [BlocObject.mk NONE [] NUndefined false])) as Hc
    by by apply closed_alloc; [apply closed_refl|].
  split; cbn; [done|unfold own; rewrite length_app; simpl; lia|done|].
  apply unshared_alloc; [apply unshared_new, closed_refl|apply not_elem_of_nil].
Qed.

(** A child pushed into [blocObject]. *)
Lemma wf_push_child (h0 : heap) (st : state) (x : nat) :
  wf h0 st → own (length h0) (objects st) x → x ≠ blocObject st →
  is_Some (reify (length (objects st) - length h0 - 1) (objects st) x) →
  wf h0 (mkState (lastIndex st) (blocsObject st) (blocObject st)
           (push_child (blocObject st) x (objects st))).
Proof.
  intros [Hc Hb Hbs Hu] Hx Hne Hre.
  split; cbn; [by apply closed_push_child|by apply own_push_child|
               |by apply unshared_push_child].
  eapply Forall_impl; [done|]. intros r Hr. by apply own_push_child.
Qed.

Section leaves.
Context (h0 : heap) (o : BlocObject.t) (st : state).
Hypothesis Hwf : wf h0 st.
Hypothesis Ho : is_leaf o.

Lemma closed_leaf : closed h0 (objects st ++ [o]).
Proof. apply closed_alloc; [apply Hwf|]. by rewrite Ho. Qed.

Lemma own_leaf : own (length h0) (objects st ++ [o]) (length (objects st)).
Proof. pose proof (wf_length _ _ Hwf). unfold own. rewrite length_app. simpl. lia. Qed.

Lemma unshared_leaf : unshared (length h0) (objects st ++ [o]) (blocObject st).
Proof. apply unshared_alloc; [apply Hwf|]. rewrite Ho. apply not_elem_of_nil. Qed.

Lemma wf_new_blocObject : wf h0 (new_blocObject o st).
Proof.
  destruct Hwf as [Hc Hb Hbs Hu].
  split; cbn; [apply closed_leaf|apply own_leaf|by eapply Forall_impl; [|intros ?; apply own_app]|].
  apply unshared_alloc; [by apply unshared_new|]. rewrite Ho. apply not_elem_of_nil.
Qed.

Lemma wf_push_signal : wf h0 (push_signal o st).
Proof.
  destruct Hwf as [Hc Hb Hbs Hu].
  split; cbn; [apply closed_leaf|by apply own_app| |apply unshared_leaf].
  apply Forall_app. split; [|apply Forall_singleton, own_leaf].
  by eapply Forall_impl; [|intros ?; apply own_app].
Qed.

Lemma wf_push_here : wf h0 (push_here o st).
Proof.
  pose proof wf_push_signal as Hs. unfold push_here. case_decide; [done|].
  apply (wf_push_child h0 (mkState (lastIndex st) (blocsObject st) (blocObject st) _)); cbn.
  - split; cbn; [apply closed_leaf|apply own_app, Hwf| |apply unshared_leaf].
    eapply Forall_impl; [apply Hwf|]. intros ?. apply own_app.
  - apply own_leaf.
  - destruct Hwf as [_ [] _ _]. lia.
  - apply (reify_fuel 1); [pose proof (wf_length _ _ Hwf); rewrite length_app; simpl; lia|].
    erewrite reify_leaf; [done|by apply list_lookup_middle|done].
Qed.

End leaves.

Lemma wf_push_blocObject (h0 : heap) (st : state) : wf h0 st → wf h0 (push_blocObject st).
Proof.
  intros [Hc Hb Hbs Hu]. split; cbn; [done..| |done].
  apply Forall_app. split; [done|by apply Forall_singleton].
Qed.

Lemma wf_push_text (h0 : heap) (template : jsstring) (upto : nat) (st : state) :
  wf h0 st → wf h0 (push_text template upto st).
Proof. intros Hwf. unfold push_text. case_decide; [by apply wf_push_here|done]. Qed.

Lemma wf_advance (h0 : heap) (template : jsstring) (element : element) (st : state) :
  wf h0 st → wf h0 (advance template element st).
Proof. intros Hwf. by apply wf_set_lastIndex, wf_push_text. Qed.

Lemma wf_on_done (h0 : heap) (template : jsstring) (st : state) :
  wf h0 st → wf h0 (on_done template st).
Proof. intros Hwf. unfold on_done. case_decide; [by apply wf_push_text|done]. Qed.

(** Lines 269-279: the objects of a nested call become a tree below the
    open bloc of its caller. *)
Lemma wf_push_nested (h0 : heap) (st : state) (k : TangularPrivateKey.t) (parsed : node)
    (lastIndex' : nat) (blocsObject' : list nat) (blocObject' : nat) (h : heap) :
  wf h0 st → wf (objects st) (mkState lastIndex' blocsObject' blocObject' h) →
  wf h0 (push_nested k parsed lastIndex' blocsObject' blocObject' h st).
Proof.
  intros [Hc Hb Hbs Hu] [Hc' Hb' Hbs' _]. cbn in Hc', Hb', Hbs'.
  pose proof (closed_length _ _ Hc). pose proof (closed_length _ _ Hc').
  unfold push_nested. set (o := BlocObject.mk k blocsObject' parsed false).
  set (h1 := objects st) in *. set (b := blocObject st) in *.
  assert (length h0 ≤ b < length h1 ∧ length h1 ≤ blocObject' < length h)
    as [??] by (split; [apply Hb|apply Hb']).
  assert (closed h1 (h ++ [o])) as Hc1 by by apply closed_alloc.
  assert (own (length h1) (h ++ [o]) (length h)) as Hr
    by (unfold own; rewrite length_app; simpl; lia).
  assert (wf h0 (mkState lastIndex' (blocsObject st) b (h ++ [o]))) as Hwf.
  { split; cbn; [by eapply closed_trans|unfold own; rewrite length_app; lia|
                 |by apply (unshared_trans h0 h1); [| |lia|]].
    eapply Forall_impl; [done|]. intros r [??]. unfold own. rewrite length_app. lia. }
  apply (wf_push_child _ _ (length h)) in Hwf;
    cbn [objects blocObject lastIndex blocsObject] in Hwf |- *;
    [|by eapply own_weaken|lia
     |eapply reify_fuel, (closed_reify _ _ Hc1), Hr; rewrite length_app; simpl; lia].
  case_decide; [|done].
  apply (wf_push_child _ _ blocObject') in Hwf;
    cbn [objects blocObject lastIndex blocsObject] in Hwf |- *;
    [done|rewrite own_push_child; unfold own; rewrite length_app; lia|lia|].
  apply (reify_push_child _ (length h1)); [|lia|lia|].
  { intros r' o' ??.
    apply (closed_avoids h1 (h ++ [o]) b r'); [done|apply unshared_old; [done|lia]|done..]. }
  eapply reify_fuel, reify_app, (closed_reify _ _ Hc'), Hb'.
  unfold push_child. rewrite length_alter, length_app. simpl. lia.
Qed.

(** *** The calls keep the invariant *)

Lemma wf_outcome_bind {I A : Type} (h0 : heap) (m : option A) (k : A → outcome_of I) :
  (∀ a, wf_outcome h0 (k a)) → wf_outcome h0 (m ≫= k).
Proof. intros Hk. destruct m; [apply Hk|by intros ?]. Qed.

Lemma wf_outcome_Throw {I : Type} (h0 : heap) (e : js_error) :
  wf_outcome (I := I) h0 (Some (Throw e)).
Proof. by intros ?. Qed.

Lemma wf_outcome_Nested {I : Type} (h0 : heap) (st : state) (els : I) :
  wf h0 st →
  wf_outcome h0
    (Some (Ok (Nested (lastIndex st) (blocsObject st) (blocObject st), objects st, els))).
Proof. intros Hwf r [= <-]. by destruct st. Qed.

Lemma wf_outcome_Blocs {I : Type} (h0 : heap) (st : state) (els : I) :
  wf h0 st → wf_outcome h0 (Some (Ok (Blocs (blocsObject st), objects st, els))).
Proof. intros [] r [= <-]. by split. Qed.

Section on_sentence.
Context {I : Type} (continue : bool → state → I → outcome_of I).
Hypothesis Hcontinue : ∀ b h0 st els, wf h0 st → wf_outcome h0 (continue b st els).

(** The body of the loop keeps the invariant when the next turns and the
    nested call do. *)
Lemma on_sentence_wf (h0 : heap) (returnNextKeyEnd : bool) (st : state)
    (element : element) (elements : I) :
  wf h0 st → wf_outcome h0 (on_sentence continue returnNextKeyEnd st element elements).
Proof.
  intros Hwf. unfold on_sentence.
  destruct (negb _); [by apply Hcontinue, wf_push_here|].
  destruct (case_of _) as [[]|]; try by apply Hcontinue.
  all: try (destruct returnNextKeyEnd; [by apply wf_outcome_Nested|];
            by apply Hcontinue, wf_new_blocObject; [apply wf_push_blocObject|]).
  all: try by apply Hcontinue, wf_push_signal.
  all: try (destruct (js_startsWith _ _); [|by apply Hcontinue, wf_new_blocObject];
            apply wf_outcome_bind; intros parsed;
            by apply Hcontinue, wf_push_blocObject, wf_new_blocObject;
              [apply wf_push_blocObject|]).
  all: destruct (nests _);
    [|apply wf_outcome_bind; intros parsed; by apply Hcontinue, wf_new_blocObject].
  all: pose proof (Hcontinue true _ _ elements (wf_enter (lastIndex st) (objects st)))
    as Hnested;
    destruct (continue true _ elements) as [[[[[] hn] eln]|]|]; cbn [mbind option_bind];
    [..|apply wf_outcome_Throw|by intros ?];
    (apply wf_outcome_bind; intros parsed); [apply wf_outcome_Throw|].
  all: by apply Hcontinue, wf_push_nested, (Hnested _ eq_refl).
Qed.

End on_sentence.

Lemma build_loop_wf (fuel : nat) (template : jsstring) (returnNextKeyEnd : bool)
    (h0 : heap) (st : state) (elements : list element) :
  wf h0 st → wf_outcome h0 (build_loop fuel template returnNextKeyEnd st elements).
Proof.
  revert returnNextKeyEnd h0 st elements.
  induction fuel as [|fuel IH]; intros b h0 st elements Hwf; [by intros ?|].
  destruct elements as [|element elements]; cbn [build_loop].
  - by apply wf_outcome_Blocs, wf_on_done.
  - by apply on_sentence_wf, wf_advance.
Qed.

(** The blocs of a heap whose objects form trees can be read. *)
Lemma reify_all_closed (h0 h : heap) (blocsObject : list nat) :
  closed h0 h → Forall (own (length h0) h) blocsObject →
  is_Some (reify_all h blocsObject).
Proof.
  intros Hc Hbs. unfold reify_all. apply mapM_is_Some.
  eapply Forall_impl; [done|]. intros r Hr.
  eapply reify_fuel, closed_reify; [|done..]. lia.
Qed.

Lemma processBuildPrivateKey_heap (fuel : nat) (template : jsstring)
    (elements : list element) (returnNextKeyEnd : bool) (lastIndex : nat) (h : heap) :
  wf_outcome h
    (_processBuildPrivateKey fuel template elements returnNextKeyEnd lastIndex h).
Proof. apply build_loop_wf, wf_enter. Qed.

(** ** Properties *)

(** C9: when a call of [_processBuildPrivateKey] returns an array, the
    objects that it was given are unchanged, the blocs of the array are
    objects that the call has allocated, and each of them is read out of
    the heap as a finite tree, although the builder changes objects after
    it has stored them and stores some of them twice. *)
Theorem processBuildPrivateKey_trees (fuel : nat) (template : jsstring)
    (elements : list element) (returnNextKeyEnd : bool) (lastIndex : nat)
    (h h' : heap) (blocsObject : list nat) (els : list element) :
  _processBuildPrivateKey fuel template elements returnNextKeyEnd lastIndex h =
    Some (Ok (Blocs blocsObject, h', els)) →
  h `prefix_of` h'
  ∧ Forall (own (length h) h') blocsObject
  ∧ is_Some (reify_all h' blocsObject).
Proof.
  intros Heq. destruct (processBuildPrivateKey_heap _ _ _ _ _ _ _ Heq) as [Hc Hbs].
  split; [apply Hc|]. split; [done|]. by eapply reify_all_closed.
Qed.

Lemma processBuildPrivateKey_trees_witness :
  ∃ blocsObject h',
    _processBuildPrivateKey 4 (str "{{if a}}x{{else if b}}y{{fi}}")
      (scan (str "{{if a}}x{{else if b}}y{{fi}}")) false 0 [] =
      Some (Ok (Blocs blocsObject, h', []))
    ∧ [] `prefix_of` h'
    ∧ Forall (own 0 h') blocsObject
    ∧ is_Some (reify_all h' blocsObject).
Proof.
  eexists _, _. split; [vm_compute; reflexivity|].
  apply (processBuildPrivateKey_trees 4 (str "{{if a}}x{{else if b}}y{{fi}}")
           (scan (str "{{if a}}x{{else if b}}y{{fi}}")) false 0 [] _ _ []).
  vm_compute. reflexivity.
Defined.
