(* ===== verification/JsValue.v ===== *)
(** * JsValue: the values of a payload and the operators applied to them

    The payload of a render is any JavaScript value.  [value] is the part of
    that universe a template can observe: primitives, arrays, plain objects
    (as the list of their own properties in insertion order) and functions
    (by identity).  The operators defined here are the ECMAScript abstract
    operations that the expressions of [src/lib/tangular.ts] apply to such
    values: [ToBoolean] for [!x], [x && y], [x || y]; property access
    [object[key]]; [ToString] for [template += x]; [==], [===], [<] and
    their negations; [for (n in value)] and the object spread.

    What an embedder supplies is the interface [Host]: calling a function
    of the payload, converting between numbers and strings, and telling
    whether two object values are one object.

    Not represented: inherited properties (a key is looked up among own
    properties only), symbols, BigInts, getters, sparse arrays, and objects
    that redefine [toString] or [valueOf]. *)

From Stdlib Require Import Ascii String ZArith Lia Floats.
From Stdlib Require Import DecimalString DecimalNat DecimalFacts.
From stdpp Require Import base tactics list option strings sorting.
From S2P Require Import Prelude JsString.

#[local] Set Warnings "-register-all".

(** ** Definitions *)

Inductive value : Type :=
| VUndefined
| VNull
| VBoolean (b : bool)
| VNumber (n : float)
| VString (s : jsstring)
| VArray (items : list value)
| VObject (props : list (jsstring * value))
| VFunction (f : nat).

(** What the embedder of the engine supplies. *)
Class Host : Type := {
  (** [f(...arguments)] for the function object [f]: its result or the
      exception it throws. *)
  call : nat → list value → result value;
  (** [Number.prototype.toString] and [StringToNumber]. *)
  number_to_string : float → jsstring;
  string_to_number : jsstring → float;
  (** [Function.prototype.toString]. *)
  function_to_string : nat → jsstring;
  (** Whether two array or object values are the same object. *)
  same_object : value → value → bool
}.

(** The ECMAScript type of a value. *)
Inductive jstype : Type :=
| TUndefined | TNull | TBoolean | TNumber | TString | TObject.

#[export] Instance jstype_eq_dec : EqDecision jstype.
Proof. solve_decision. Defined.

Definition type_of (v : value) : jstype :=
  match v with
  | VUndefined => TUndefined
  | VNull => TNull
  | VBoolean _ => TBoolean
  | VNumber _ => TNumber
  | VString _ => TString
  | VArray _ | VObject _ | VFunction _ => TObject
  end.

(** [ToBoolean]. *)
Definition to_boolean (v : value) : bool :=
  match v with
  | VUndefined | VNull => false
  | VBoolean b => b
  | VNumber n => negb (PrimFloat.eqb n 0 || PrimFloat.is_nan n)
  | VString s => bool_decide (s ≠ [])
  | VArray _ | VObject _ | VFunction _ => true
  end.

(** The number of a length or an index. *)
Definition float_of_nat (n : nat) : float :=
  PrimFloat.of_uint63 (Uint63.of_Z (Z.of_nat n)).

(** The canonical string of an array index, and the index a property key
    denotes when it is such a string. *)
Definition index_to_string (n : nat) : jsstring :=
  str (NilZero.string_of_uint (Nat.to_uint n)).

Definition string_to_index (key : jsstring) : option nat :=
  u ← NilZero.uint_of_string (string_of_list_ascii key);
  let n := Nat.of_uint u in
  if decide (index_to_string n = key) then Some n else None.

(** The value of an own property of an object. *)
Fixpoint assoc (key : jsstring) (props : list (jsstring * value)) : option value :=
  match props with
  | [] => None
  | (k, v) :: props => if decide (k = key) then Some v else assoc key props
  end.

(** [object[key]]: a [TypeError] on [undefined] and [null], [undefined]
    where there is no such own property. *)
Definition get_prop (object : value) (key : jsstring) : result value :=
  match object with
  | VUndefined | VNull =>
      Throw (TypeError "Cannot read properties of undefined or null")
  | VString s =>
      if decide (key = str "length") then Ok (VNumber (float_of_nat (length s)))
      else Ok (default VUndefined
                 (i ← string_to_index key; c ← s !! i; Some (VString [c])))
  | VArray items =>
      if decide (key = str "length") then Ok (VNumber (float_of_nat (length items)))
      else Ok (default VUndefined (i ← string_to_index key; items !! i))
  | VObject props => Ok (default VUndefined (assoc key props))
  | VBoolean _ | VNumber _ | VFunction _ => Ok VUndefined
  end.

(** [ToString], as [template += v] applies it. *)
Fixpoint to_string `{Host} (v : value) : jsstring :=
  match v with
  | VUndefined => str "undefined"
  | VNull => str "null"
  | VBoolean b => if b then str "true" else str "false"
  | VNumber n => number_to_string n
  | VString s => s
  | VArray items =>
      js_join ","
        (map (λ x, match x with
                   | VUndefined | VNull => []
                   | _ => to_string x
                   end) items)
  | VObject _ => str "[object Object]"
  | VFunction f => function_to_string f
  end.

(** [ToPrimitive]: an object is converted by its [toString]. *)
Definition to_primitive `{Host} (v : value) : value :=
  match v with
  | VArray _ | VObject _ | VFunction _ => VString (to_string v)
  | _ => v
  end.

(** [ToNumber]. *)
Definition to_number `{Host} (v : value) : float :=
  match to_primitive v with
  | VNull => 0%float
  | VBoolean b => if b then 1%float else 0%float
  | VNumber n => n
  | VString s => string_to_number s
  | _ => PrimFloat.nan
  end.

(** [a === b]. *)
Definition strict_equals `{Host} (a b : value) : bool :=
  match a, b with
  | VUndefined, VUndefined | VNull, VNull => true
  | VBoolean x, VBoolean y => bool_decide (x = y)
  | VNumber x, VNumber y => PrimFloat.eqb x y
  | VString x, VString y => bool_decide (x = y)
  | VFunction f, VFunction g => bool_decide (f = g)
  | (VArray _ | VObject _), (VArray _ | VObject _) => same_object a b
  | _, _ => false
  end.

(** The comparison of two primitives of different types, neither
    [undefined] nor [null]: two strings as strings, anything else as
    numbers. *)
Definition loose_primitives `{Host} (p q : value) : bool :=
  match p, q with
  | VString x, VString y => bool_decide (x = y)
  | _, _ => PrimFloat.eqb (to_number p) (to_number q)
  end.

(** [a == b]. *)
Definition loose_equals `{Host} (a b : value) : bool :=
  if decide (type_of a = type_of b) then strict_equals a b
  else
    match a, b with
    | (VUndefined | VNull), (VUndefined | VNull) => true
    | (VUndefined | VNull), _ | _, (VUndefined | VNull) => false
    | _, _ => loose_primitives (to_primitive a) (to_primitive b)
    end.

(** The order of strings by code units. *)
Fixpoint string_lt (x y : jsstring) : bool :=
  match x, y with
  | _, [] => false
  | [], _ :: _ => true
  | a :: x, b :: y =>
      (nat_of_ascii a <? nat_of_ascii b)%nat
      || (Ascii.eqb a b && string_lt x y)
  end.

(** [a < b] and [a <= b]; [a > b] is [b < a] and [a >= b] is [b <= a]. *)
Definition less_than `{Host} (a b : value) : bool :=
  match to_primitive a, to_primitive b with
  | VString x, VString y => string_lt x y
  | p, q => PrimFloat.ltb (to_number p) (to_number q)
  end.

Definition less_or_equal `{Host} (a b : value) : bool :=
  match to_primitive a, to_primitive b with
  | VString x, VString y => negb (string_lt y x)
  | p, q => PrimFloat.leb (to_number p) (to_number q)
  end.

(** The keys [for (n in value)] visits: the indices of a string or an
    array; of an object, the keys that are array indices in ascending order
    and then the others in insertion order. *)
Definition own_keys (v : value) : list jsstring :=
  match v with
  | VString s => index_to_string <$> seq 0 (length s)
  | VArray items => index_to_string <$> seq 0 (length items)
  | VObject props =>
      (index_to_string <$> merge_sort (≤) (omap string_to_index props.*1))
      ++ filter (λ k, string_to_index k = None) props.*1
  | _ => []
  end.

(** Assignment of an own property: in place when the key exists, at the
    end when it does not. *)
Fixpoint obj_set (key : jsstring) (v : value) (props : list (jsstring * value))
    : list (jsstring * value) :=
  match props with
  | [] => [(key, v)]
  | (k, w) :: props =>
      if decide (k = key) then (k, v) :: props
      else (k, w) :: obj_set key v props
  end.

(** The properties [{...v}] copies. *)
Definition spread (v : value) : list (jsstring * value) :=
  match v with
  | VString s => imap (λ i c, (index_to_string i, VString [c])) s
  | VArray items => imap (λ i x, (index_to_string i, x)) items
  | VObject props =>
      omap (λ k, v ← assoc k props; Some (k, v)) (own_keys v)
  | _ => []
  end.

(** The natural number a float is, when it is one. *)
Definition nat_of_float (n : float) : option nat :=
  match Prim2SF n with
  | S754_zero _ => Some 0
  | S754_finite false m e =>
      if (0 <=? e)%Z then Some (Z.to_nat (Z.pos m * 2 ^ e))
      else if (Z.pos m mod 2 ^ (- e) =? 0)%Z
           then Some (Z.to_nat (Z.pos m / 2 ^ (- e)))
           else None
  | _ => None
  end.

(** A host for closed examples: it has no function objects, any two
    objects are distinct, and its conversions are those of JavaScript on
    the natural numbers only (every other number is printed as [NaN], and
    every other string is read as [NaN]). *)
Definition example_host : Host := {|
  call := λ _ _, Throw (HostError "no such function");
  number_to_string := λ n,
    match nat_of_float n with
    | Some k => index_to_string k
    | None => str "NaN"
    end;
  string_to_number := λ s,
    match string_to_index s with
    | Some k => float_of_nat k
    | None => if decide (s = []) then 0%float else PrimFloat.nan
    end;
  function_to_string := λ _, str "function () { [native code] }";
  same_object := λ _ _, false
|}.

(** Induction on values with the hypothesis for every element of an array
    and every property of an object. *)
Section value_ind.
Context (P : value → Prop).
Context (Hundef : P VUndefined) (Hnull : P VNull).
Context (Hbool : ∀ b, P (VBoolean b)) (Hnum : ∀ n, P (VNumber n)).
Context (Hstr : ∀ s, P (VString s)) (Hfun : ∀ f, P (VFunction f)).
Context (Harr : ∀ items, Forall P items → P (VArray items)).
Context (Hobj : ∀ props, Forall (λ kv, P kv.2) props → P (VObject props)).

Fixpoint value_ind' (v : value) : P v :=
  match v with
  | VUndefined => Hundef
  | VNull => Hnull
  | VBoolean b => Hbool b
  | VNumber n => Hnum n
  | VString s => Hstr s
  | VFunction f => Hfun f
  | VArray items =>
      Harr items
        ((fix go (l : list value) : Forall P l :=
            match l with
            | [] => Forall_nil_2 P
            | x :: l' => Forall_cons_2 P x l' (value_ind' x) (go l')
            end) items)
  | VObject props =>
      Hobj props
        ((fix go (l : list (jsstring * value)) : Forall (λ kv, P kv.2) l :=
            match l with
            | [] => Forall_nil_2 _
            | kv :: l' => Forall_cons_2 (λ kv, P kv.2) kv l' (value_ind' kv.2) (go l')
            end) props)
  end.

End value_ind.

(** ** Lemmas *)

Lemma to_uint_nonnil (n : nat) : Nat.to_uint n ≠ Decimal.Nil.
Proof.
  rewrite <- (Unsigned.of_to n) at 1. rewrite Unsigned.to_of.
  apply unorm_nonnil.
Qed.

Lemma string_to_index_to_string (n : nat) :
  string_to_index (index_to_string n) = Some n.
Proof.
  unfold string_to_index, index_to_string, str.
  rewrite string_of_list_ascii_of_string.
  rewrite NilZero.usu by apply to_uint_nonnil.
  simpl. rewrite Unsigned.of_to, decide_True; done.
Qed.

Lemma string_to_index_Some (key : jsstring) (n : nat) :
  string_to_index key = Some n → key = index_to_string n.
Proof.
  unfold string_to_index. intros H.
  destruct (NilZero.uint_of_string _); simplify_eq/=.
  case_decide; by simplify_eq.
Qed.

Lemma index_to_string_inj : Inj (=) (=) index_to_string.
Proof.
  intros n m H. apply (inj Some).
  by rewrite <- !string_to_index_to_string, H.
Qed.

Lemma index_to_string_not_length (n : nat) : index_to_string n ≠ str "length".
Proof.
  intros Heq. pose proof (string_to_index_to_string n) as Hn.
  by rewrite Heq in Hn.
Qed.

(** A property that was assigned is read back, and the other properties
    are untouched. *)
Lemma assoc_obj_set (key : jsstring) (v : value) (props : list (jsstring * value)) :
  assoc key (obj_set key v props) = Some v.
Proof.
  induction props as [|[k w] props IH]; simpl.
  - by rewrite decide_True.
  - case_decide; simpl; [by rewrite decide_True|by rewrite decide_False].
Qed.

Lemma assoc_obj_set_ne (key key' : jsstring) (v : value)
    (props : list (jsstring * value)) :
  key ≠ key' → assoc key' (obj_set key v props) = assoc key' props.
Proof.
  intros Hne. induction props as [|[k w] props IH]; simpl.
  - by rewrite decide_False.
  - repeat (case_decide; simplify_eq/=); done.
Qed.

Lemma obj_set_keys_in (key : jsstring) (v : value) (props : list (jsstring * value)) :
  key ∈ props.*1 → (obj_set key v props).*1 = props.*1.
Proof.
  induction props as [|[k w] props IH]; simpl; [by rewrite elem_of_nil|].
  rewrite elem_of_cons. intros [Hin|Hin]; case_decide; simplify_eq/=; try done.
  f_equal. by apply IH.
Qed.

Lemma obj_set_keys_notin (key : jsstring) (v : value) (props : list (jsstring * value)) :
  key ∉ props.*1 → (obj_set key v props).*1 = props.*1 ++ [key].
Proof.
  induction props as [|[k w] props IH]; simpl; [done|].
  rewrite not_elem_of_cons. intros [Hne Hin].
  rewrite decide_False by done. simpl. f_equal. by apply IH.
Qed.

(** Reading a property of a truthy value never throws. *)
Lemma get_prop_truthy (object : value) (key : jsstring) :
  to_boolean object = true → is_Ok (get_prop object key).
Proof.
  destruct object; simpl; try done; intros _; try case_decide; by eexists.
Qed.

Lemma own_keys_array (items : list value) :
  length (own_keys (VArray items)) = length items.
Proof. simpl. by rewrite length_fmap, length_seq. Qed.

Lemma own_keys_array_lookup (items : list value) (i : nat) (x : value) :
  items !! i = Some x →
  own_keys (VArray items) !! i = Some (index_to_string i)
  ∧ get_prop (VArray items) (index_to_string i) = Ok x.
Proof.
  intros Hx. split.
  - simpl. rewrite list_lookup_fmap, lookup_seq_lt; [done|].
    by eapply lookup_lt_Some.
  - simpl. rewrite decide_False by apply index_to_string_not_length.
    by rewrite string_to_index_to_string; simpl; rewrite Hx.
Qed.

(** The keys of an object that [for (n in ...)] visits are its keys. *)
Lemma elem_of_own_keys (k : jsstring) (props : list (jsstring * value)) :
  k ∈ own_keys (VObject props) ↔ k ∈ props.*1.
Proof.
  simpl. rewrite elem_of_app, list_elem_of_fmap, list_elem_of_filter. split.
  - intros [(i & -> & Hi)|[_ ?]]; [|done].
    rewrite merge_sort_Permutation in Hi. apply list_elem_of_omap in Hi.
    destruct Hi as (k & Hk & Hi). by rewrite <- (string_to_index_Some k i Hi).
  - intros Hk. destruct (string_to_index k) as [i|] eqn:Hi; [left|by right].
    exists i. split; [by apply string_to_index_Some|].
    rewrite merge_sort_Permutation. apply list_elem_of_omap. eauto.
Qed.

Lemma assoc_None (k : jsstring) (props : list (jsstring * value)) :
  assoc k props = None ↔ k ∉ props.*1.
Proof.
  induction props as [|[k' v] props IH]; simpl.
  { split; [intros _; apply not_elem_of_nil|done]. }
  rewrite not_elem_of_cons. destruct (decide (k' = k)) as [->|Hne].
  - split; [done|by intros [? _]].
  - rewrite IH. split; [by intros ?; split|by intros [_ ?]].
Qed.

(** The copy of the properties of an object holds each key with its
    value. *)
Section copy.
Context (props : list (jsstring * value)).

#[local] Abbreviation copy := (omap (λ k', v ← assoc k' props; Some (k', v))).

Lemma assoc_copy_notin (k : jsstring) (keys : list jsstring) :
  k ∉ keys ∨ assoc k props = None → assoc k (copy keys) = None.
Proof.
  intros Hk. induction keys as [|k' keys IH]; simpl; [done|].
  destruct (assoc k' props) as [v|] eqn:Hv; simpl.
  - rewrite decide_False; [apply IH|].
    + destruct Hk as [[_ ?]%not_elem_of_cons|?]; auto.
    + intros ->. destruct Hk as [[? _]%not_elem_of_cons|?]; [done|congruence].
  - apply IH. destruct Hk as [[_ ?]%not_elem_of_cons|?]; auto.
Qed.

Lemma assoc_copy_in (k : jsstring) (keys : list jsstring) :
  k ∈ keys → assoc k (copy keys) = assoc k props.
Proof.
  induction keys as [|k' keys IH]; [by intros ?%elem_of_nil|].
  intros Hk. simpl. destruct (decide (k' = k)) as [->|Hne].
  - destruct (assoc k props) as [v|] eqn:Hv; simpl; [by rewrite decide_True|].
    apply assoc_copy_notin. by right.
  - apply elem_of_cons in Hk as [->|Hk]; [done|].
    destruct (assoc k' props); simpl; [rewrite decide_False by done|]; by apply IH.
Qed.

End copy.

Lemma assoc_spread (k : jsstring) (props : list (jsstring * value)) :
  assoc k (spread (VObject props)) = assoc k props.
Proof.
  unfold spread. destruct (decide (k ∈ own_keys (VObject props))) as [Hk|Hk].
  - by apply assoc_copy_in.
  - rewrite assoc_copy_notin by by left.
    symmetry. apply assoc_None. by rewrite <- elem_of_own_keys.
Qed.

Section operators.
Context `{Host}.

Lemma to_primitive_primitive (v : value) :
  type_of (to_primitive v) ≠ TObject.
Proof. by destruct v. Qed.

Lemma to_primitive_idemp (v : value) :
  to_primitive (to_primitive v) = to_primitive v.
Proof. by destruct v. Qed.

Lemma to_string_String (s : jsstring) : to_string (VString s) = s.
Proof. done. Qed.

(** Strict equality of two strings is equality, and so is loose equality. *)
Lemma strict_equals_String (x y : jsstring) :
  strict_equals (VString x) (VString y) = bool_decide (x = y).
Proof. done. Qed.

Lemma loose_equals_String (x y : jsstring) :
  loose_equals (VString x) (VString y) = bool_decide (x = y).
Proof. done. Qed.

Lemma strict_equals_type (a b : value) :
  strict_equals a b = true → type_of a = type_of b.
Proof. by destruct a, b. Qed.

(** Strict equality implies loose equality. *)
Lemma strict_loose_equals (a b : value) :
  strict_equals a b = true → loose_equals a b = true.
Proof.
  intros Hs. unfold loose_equals.
  by rewrite decide_True by by apply strict_equals_type.
Qed.

(** [undefined] and [null] are loosely equal to each other and to nothing
    else. *)
Lemma loose_equals_undefined (b : value) :
  loose_equals VUndefined b = true ↔ b = VUndefined ∨ b = VNull.
Proof.
  destruct b; unfold loose_equals; simpl;
    (split; [try discriminate; auto|by intros [|]]).
Qed.

Lemma string_lt_irrefl (x : jsstring) : string_lt x x = false.
Proof.
  induction x as [|a x IH]; [done|]. simpl.
  by rewrite Nat.ltb_irrefl, IH, andb_false_r.
Qed.

Lemma string_lt_asym (x y : jsstring) :
  string_lt x y = true → string_lt y x = false.
Proof.
  revert y. induction x as [|a x IH]; intros [|b y]; simpl; try done.
  rewrite orb_true_iff, andb_true_iff, orb_false_iff, andb_false_iff.
  rewrite Nat.ltb_lt, Nat.ltb_ge, ascii_eqb_eq.
  intros [Hlt|[-> Hlt]]; split; try lia.
  - left. apply ascii_eqb_neq. intros ->. lia.
  - right. by apply IH.
Qed.

End operators.

#[export] Hint Rewrite string_to_index_to_string assoc_obj_set assoc_spread : tangular.
