(* ===== verification/Helpers.v ===== *)
(** * Helpers: the helper registry of an instance

    The field [_helpers] of the class [Tangular], the two helpers its
    constructor installs ([raw] and [encode], lines 67-84 of
    [src/lib/tangular.ts]) and [register] (lines 643-646).  A helper is a
    function of the list of arguments it is called with; the registry is a
    finite map from names to helpers. *)

From Stdlib Require Import Ascii String ZArith Lia.
From stdpp Require Import base tactics list option strings gmap.
From S2P Require Import Prelude JsString JsValue.

#[local] Set Warnings "-register-all".

(** ** Definitions *)

(** A callback: the result, or the exception, of calling it with a list of
    arguments. *)
Abbreviation helper := (list value → result value).

(** The instance, with its field [_helpers]. *)
Record Tangular : Type := mkTangular {
  _helpers : gmap jsstring helper
}.

(** A positional parameter: [undefined] when the argument was not passed. *)
Definition parameter (n : nat) (arguments : list value) : value :=
  default VUndefined (arguments !! n).

(** [raw], line 68: the identity. *)
Definition raw : helper := λ arguments, Ok (parameter 0 arguments).

(** The character class of the regular expression of line 72: [<], [>],
    [&] and the double quote. *)
Definition encoded_class (c : ascii) : bool :=
  bool_decide (c ∈ ["<"; ">"; "&"; dquote]%char).

(** The replacer of lines 73-80. *)
Definition encode_character (character : ascii) : jsstring :=
  match character with
  | "&"%char => str "&amp;"
  | "<"%char => str "&lt;"
  | ">"%char => str "&gt;"
  | "034"%char => str "&quot;"
  | _ => [character]
  end.

(** [value.replace(..., ...)] of lines 71-82. *)
Definition escape (s : jsstring) : jsstring :=
  js_replace_class encoded_class encode_character s.

(** [encode], lines 69-83:
    [(typeof value === 'string' && value.replace(...)) || value]. *)
Definition encode : helper := λ arguments,
  let value := parameter 0 arguments in
  let replaced :=
    match value with
    | VString s => VString (escape s)
    | _ => VBoolean false
    end in
  Ok (if to_boolean replaced then replaced else value).

(** The constructor, lines 67-84. *)
Definition new_Tangular : Tangular :=
  mkTangular (<[str "encode" := encode]> (<[str "raw" := raw]> ∅)).

(** [register], lines 643-646; the instance it returns is the instance it
    updated. *)
Definition register (name : jsstring) (callback : helper) (this : Tangular)
    : Tangular :=
  mkTangular (<[name := callback]> (_helpers this)).

(** A string that holds none of [<], [>] and the double quote, and holds
    [&] only where it starts one of the four entities. *)
Fixpoint escaped (s : jsstring) : bool :=
  match s with
  | [] => true
  | c :: s' =>
      if Ascii.eqb c "&" then
        (js_startsWith (str "amp;") s' || js_startsWith (str "lt;") s'
         || js_startsWith (str "gt;") s' || js_startsWith (str "quot;") s')
        && escaped s'
      else negb (bool_decide (c ∈ ["<"; ">"; dquote]%char)) && escaped s'
  end.

(** The inverse of [escape]: the four entities read back. *)
Fixpoint unescape_fuel (fuel : nat) (s : jsstring) : jsstring :=
  match fuel, s with
  | 0, _ | _, [] => []
  | S fuel, c :: s' =>
      if Ascii.eqb c "&" then
        if js_startsWith (str "amp;") s' then "&"%char :: unescape_fuel fuel (drop 4 s')
        else if js_startsWith (str "lt;") s' then "<"%char :: unescape_fuel fuel (drop 3 s')
        else if js_startsWith (str "gt;") s' then ">"%char :: unescape_fuel fuel (drop 3 s')
        else if js_startsWith (str "quot;") s' then dquote :: unescape_fuel fuel (drop 5 s')
        else c :: unescape_fuel fuel s'
      else c :: unescape_fuel fuel s'
  end.

Definition unescape (s : jsstring) : jsstring := unescape_fuel (length s) s.

(** ** Lemmas *)

Lemma escape_app (s1 s2 : jsstring) : escape (s1 ++ s2) = escape s1 ++ escape s2.
Proof. apply js_replace_class_app. Qed.

Lemma escape_cons (c : ascii) (s : jsstring) :
  escape (c :: s) = (if encoded_class c then encode_character c else [c]) ++ escape s.
Proof. done. Qed.

Lemma escape_nil : escape [] = [].
Proof. done. Qed.

Lemma encoded_class_cases (c : ascii) :
  encoded_class c = true → c = "<"%char ∨ c = ">"%char ∨ c = "&"%char ∨ c = dquote.
Proof.
  intros Hc. apply bool_decide_eq_true in Hc.
  rewrite !elem_of_cons, elem_of_nil in Hc. tauto.
Qed.

Lemma encoded_class_amp (c : ascii) :
  encoded_class c = false → Ascii.eqb c "&" = false.
Proof.
  intros Hc. apply ascii_eqb_neq. intros ->. done.
Qed.

Lemma encoded_class_markup (c : ascii) :
  encoded_class c = false → bool_decide (c ∈ ["<"; ">"; dquote]%char) = false.
Proof.
  intros Hc. apply bool_decide_eq_false. apply bool_decide_eq_false in Hc.
  rewrite !elem_of_cons, elem_of_nil in *. tauto.
Qed.

(** A string is empty exactly when its escaped form is. *)
Lemma escape_nil_inv (s : jsstring) : escape s = [] → s = [].
Proof.
  destruct s as [|c s]; [done|]. rewrite escape_cons.
  destruct (encoded_class c) eqn:Hc; [|done].
  by destruct (encoded_class_cases c Hc) as [->|[->|[->| ->]]].
Qed.

Lemma escape_length (s : jsstring) : length s ≤ length (escape s).
Proof.
  induction s as [|c s IH]; [done|]. rewrite escape_cons, length_app. simpl.
  destruct (encoded_class c) eqn:Hc; [|simpl; lia].
  destruct (encoded_class_cases c Hc) as [->|[->|[->| ->]]]; simpl; lia.
Qed.

Lemma escaped_escape (s : jsstring) : escaped (escape s) = true.
Proof.
  induction s as [|c s IH]; [done|]. rewrite escape_cons.
  destruct (encoded_class c) eqn:Hc.
  - destruct (encoded_class_cases c Hc) as [->|[->|[->| ->]]]; simpl; by rewrite IH.
  - simpl. by rewrite (encoded_class_amp c), (encoded_class_markup c), IH.
Qed.

Lemma unescape_fuel_other (c : ascii) (s : jsstring) (fuel : nat) :
  encoded_class c = false →
  unescape_fuel (S fuel) (c :: s) = c :: unescape_fuel fuel s.
Proof. intros Hc. cbn [unescape_fuel]. by rewrite encoded_class_amp. Qed.

Lemma unescape_fuel_escape (s : jsstring) (fuel : nat) :
  length (escape s) ≤ fuel → unescape_fuel fuel (escape s) = s.
Proof.
  revert fuel. induction s as [|c s IH]; intros fuel Hfuel.
  { by destruct fuel. }
  rewrite escape_cons in *. destruct (encoded_class c) eqn:Hc.
  - destruct (encoded_class_cases c Hc) as [->|[->|[->| ->]]];
      (destruct fuel as [|fuel]; simpl in *; [lia|]; f_equal; apply IH; lia).
  - destruct fuel as [|fuel]; simpl in Hfuel; [lia|].
    change ([c] ++ escape s) with (c :: escape s).
    rewrite unescape_fuel_other by done. f_equal. apply IH. lia.
Qed.

Lemma parameter_cons (v : value) (arguments : list value) :
  parameter 0 (v :: arguments) = v.
Proof. done. Qed.

Lemma lookup_register (name : jsstring) (callback : helper) (this : Tangular) :
  _helpers (register name callback this) !! name = Some callback.
Proof. apply lookup_insert_eq. Qed.

Lemma lookup_register_ne (name name' : jsstring) (callback : helper) (this : Tangular) :
  name ≠ name' →
  _helpers (register name callback this) !! name' = _helpers this !! name'.
Proof. intros. by apply lookup_insert_ne. Qed.

Lemma lookup_new_raw : _helpers new_Tangular !! str "raw" = Some raw.
Proof. done. Qed.

Lemma lookup_new_encode : _helpers new_Tangular !! str "encode" = Some encode.
Proof. done. Qed.

(** [encode] on a string. *)
Lemma encode_string_eq (s : jsstring) (arguments : list value) :
  encode (VString s :: arguments) = Ok (VString (escape s)).
Proof.
  unfold encode. rewrite parameter_cons. simpl. case_bool_decide as Hs; [done|].
  by rewrite (escape_nil_inv s Hs).
Qed.

Lemma encode_other_eq (v : value) (arguments : list value) :
  type_of v ≠ TString → encode (v :: arguments) = Ok v.
Proof. by destruct v. Qed.

#[export] Instance escape_inj : Inj (=) (=) escape.
Proof.
  intros s1 s2 Heq.
  rewrite <- (unescape_fuel_escape s1 (length (escape s1))) by done.
  rewrite Heq. by apply unescape_fuel_escape.
Qed.

#[export] Hint Rewrite escape_app escape_nil lookup_register parameter_cons : tangular.
#[export] Hint Rewrite encode_string_eq : tangular.

(** ** Theorems *)

(** [encode] replaces, in a string, every [&], [<], [>] and double
    quote by its entity and leaves every other character; the extra
    arguments of the call are ignored. *)
Theorem encode_string (s : jsstring) (arguments : list value) :
  encode (VString s :: arguments) = Ok (VString (escape s)).
Proof. apply encode_string_eq. Qed.

(** [encode] returns a value that is not a string as it is. *)
Theorem encode_not_string (v : value) (arguments : list value) :
  type_of v ≠ TString → encode (v :: arguments) = Ok v.
Proof. apply encode_other_eq. Qed.

Lemma encode_not_string_witness :
  encode [VArray [VNull]; VString (str "x")] = Ok (VArray [VNull]).
Proof. apply (encode_not_string (VArray [VNull]) [VString (str "x")]). done. Defined.

(** C24: the string [encode] returns holds no [<], no [>] and no double
    quote, and every [&] in it starts one of the entities [&amp;], [&lt;],
    [&gt;], [&quot;]. *)
Theorem encode_escaped (s : jsstring) (arguments : list value) :
  ∃ s', encode (VString s :: arguments) = Ok (VString s') ∧ escaped s' = true.
Proof. eexists. split; [apply encode_string_eq|apply escaped_escape]. Qed.

(** C25: reading the four entities back gives the string that was encoded:
    [encode] loses nothing. *)
Theorem unescape_escape (s : jsstring) : unescape (escape s) = s.
Proof. by apply unescape_fuel_escape. Qed.

(** A helper registered under the name of another one, built-in
    [encode] included, replaces it, and any other name keeps its helper. *)
Theorem register_overrides (name name' : jsstring) (f g : helper) (this : Tangular) :
  _helpers (register name g (register name f this)) !! name' =
    if decide (name = name') then Some g else _helpers this !! name'.
Proof.
  case_decide as Hn; [subst; apply lookup_register|].
  by rewrite !lookup_register_ne.
Qed.
