(* ===== verification/Sentence.v ===== *)
(** * Sentence: the evaluator of output expressions

    [_processSentence] (lines 354-389 of [src/lib/tangular.ts]): a sentence
    is split at [|] into stages, the stage [encode] is added unless the last
    stage is [raw], and the stages are folded from the left over an
    accumulator that starts as the empty string.  The callback of that fold
    is [stage]; the inner fold that follows a dotted path through the
    payload is [deep_object]. *)

From Stdlib Require Import Ascii String ZArith Lia Floats.
From stdpp Require Import base tactics list option strings gmap.
From S2P Require Import Prelude JsString JsValue Syntax Helpers.

#[local] Set Warnings "-register-all".

(** ** Definitions *)

Section sentence.
Context `{Host} (this : Tangular).

(** [keys[keys.length - 1] !== 'raw'] and the [push] of lines 356-358. *)
Definition with_encode (keys : list jsstring) : list jsstring :=
  if decide (last keys = Some (str "raw")) then keys else keys ++ [str "encode"].

(** The test of line 360: the stage starts with a double or a single
    quote. *)
Definition is_literal (cval : jsstring) : bool :=
  bool_decide (cval !! 0 = Some dquote ∨ cval !! 0 = Some "'"%char).

(** The callback of the inner [reduce], line 370: [object && object[key]]. *)
Definition deep_step (object : value) (key : jsstring) : result value :=
  if to_boolean object then get_prop object key else Ok object.

(** Lines 367-371: the value at the end of a dotted path. *)
Definition deep_object (safeVal : jsstring) (payload : value) : result value :=
  foldlM deep_step payload (js_split "." safeVal).

(** [deepObject(...[accumulator, ...parameters])], lines 383-386. *)
Definition call_value (deepObject : value) (arguments : list value) : result value :=
  match deepObject with
  | VFunction f => call f arguments
  | _ => Throw (TypeError "deepObject is not a function")
  end.

(** [this._helpers[safeVal] && this._helpers[safeVal](...)], lines 377-380. *)
Definition call_helper (safeVal : jsstring) (arguments : list value) : result value :=
  match _helpers this !! safeVal with
  | Some callback => callback arguments
  | None => Ok VUndefined
  end.

(** The callback of the outer [reduce], lines 359-388. *)
Definition stage (payload : value) (accumulator : value) (cval : jsstring)
    : result value :=
  let size := Z.of_nat (length cval) in
  if is_literal cval then Ok (VString (js_substring cval 1 (size - 1)))
  else
    let isFunction := js_indexOf "(" cval in
    let safeVal :=
      js_substring cval 0 (if decide (isFunction = -1)%Z then size else isFunction) in
    deepObject ← deep_object safeVal payload;
    let parameters :=
      if decide (isFunction ≠ -1)%Z
      then VString <$> js_split "," (js_substring cval (isFunction + 1) (size - 1))
      else [] in
    if negb (to_boolean deepObject) then call_helper safeVal (accumulator :: parameters)
    else if decide (isFunction ≠ -1)%Z then call_value deepObject (accumulator :: parameters)
    else Ok deepObject.

(** [_processSentence], lines 354-389.  The argument is typed [string] but
    the callers pass what a field of the tree holds: on anything that has
    no method [split] the call of line 355 throws. *)
Definition _processSentence (sentence : node) (payload : value) : result value :=
  match sentence with
  | NString sentence =>
      foldlM (stage payload) (VString []) (with_encode (js_split "|" sentence))
  | _ => Throw (TypeError "Cannot read properties of undefined (reading 'split')")
  end.

End sentence.

(** What a path resolves to in a payload: the value at the path when it is
    truthy. *)
Definition resolves (cval : jsstring) (payload : value) : option value :=
  match deep_object cval payload with
  | Ok v => if to_boolean v then Some v else None
  | Throw _ => None
  end.

(** A stage that is a plain dotted path: no quote in front, no parenthesis,
    no separator of stages. *)
Definition is_path (cval : jsstring) : Prop :=
  is_literal cval = false ∧ ("("%char ∉ cval) ∧ ("|"%char ∉ cval).

#[export] Instance is_path_dec (cval : jsstring) : Decision (is_path cval).
Proof. unfold is_path. apply _. Defined.

(** ** Lemmas *)

Section lemmas.
Context `{Host} (this : Tangular).

Lemma with_encode_raw (keys : list jsstring) :
  with_encode (keys ++ [str "raw"]) = keys ++ [str "raw"].
Proof. unfold with_encode. by rewrite last_snoc, decide_True. Qed.

Lemma with_encode_other (keys : list jsstring) (key : jsstring) :
  key ≠ str "raw" → with_encode (keys ++ [key]) = (keys ++ [key]) ++ [str "encode"].
Proof.
  intros Hkey. unfold with_encode. rewrite last_snoc, decide_False; [done|].
  by intros [=].
Qed.

Lemma with_encode_single (key : jsstring) :
  key ≠ str "raw" → with_encode [key] = [key; str "encode"].
Proof. apply (with_encode_other []). Qed.

(** A stage that is a path: the value at the path when it is truthy, and
    otherwise the helper of that name applied to the accumulator. *)
Lemma stage_path (payload accumulator : value) (cval : jsstring) :
  is_path cval →
  stage this payload accumulator cval =
    deepObject ← deep_object cval payload;
    if to_boolean deepObject then Ok deepObject
    else call_helper this cval [accumulator].
Proof.
  intros (Hlit & Hpar & _). unfold stage. rewrite Hlit. cbv zeta.
  pose proof (proj2 (js_indexOf_absent "(" cval) Hpar) as Hidx.
  destruct (decide (js_indexOf "(" cval = -1)%Z) as [_|]; [|done].
  destruct (decide (js_indexOf "(" cval ≠ -1)%Z) as [|_]; [done|].
  rewrite js_substring_full.
  destruct (deep_object cval payload) as [v|e]; simpl; [|done].
  by destruct (to_boolean v).
Qed.

(** A stage that is the name of a helper the payload does not define. *)
Lemma stage_helper (payload accumulator : value) (cval : jsstring) (callback : helper) :
  is_path cval → deep_object cval payload = Ok VUndefined →
  _helpers this !! cval = Some callback →
  stage this payload accumulator cval = callback [accumulator].
Proof.
  intros Hpath Hdeep Hcb. rewrite stage_path by done.
  rewrite Hdeep, bind_Ok. unfold call_helper. by rewrite Hcb.
Qed.

(** The path of one key of an object payload. *)
Lemma deep_object_key (key : jsstring) (props : list (jsstring * value)) :
  "."%char ∉ key →
  deep_object key (VObject props) = Ok (default VUndefined (assoc key props)).
Proof. intros Hkey. unfold deep_object. by rewrite js_split_plain. Qed.

(** A path through a property that is missing, or falsy, stops there. *)
Lemma foldlM_deep_step_falsy (object : value) (keys : list jsstring) :
  to_boolean object = false → foldlM deep_step object keys = Ok object.
Proof.
  intros Hobj. induction keys as [|key keys IH]; [done|].
  simpl. unfold deep_step at 2. by rewrite Hobj.
Qed.

Lemma deep_object_dot (key rest : jsstring) (payload : value) :
  "."%char ∉ key →
  deep_object (key ++ "."%char :: rest) payload =
    object ← deep_step payload key; deep_object rest object.
Proof. intros Hkey. unfold deep_object. by rewrite js_split_word. Qed.

(** Following a path never throws: a property is only read from a truthy
    value. *)
Lemma foldlM_deep_step_Ok (object : value) (keys : list jsstring) :
  is_Ok (foldlM deep_step object keys).
Proof.
  revert object. induction keys as [|key keys IH]; intros object; simpl.
  { by eexists. }
  unfold deep_step at 2. destruct (to_boolean object) eqn:Hobj; [|apply IH].
  destruct (get_prop_truthy object key Hobj) as [v ->]. apply IH.
Qed.

Lemma deep_object_Ok (safeVal : jsstring) (payload : value) :
  is_Ok (deep_object safeVal payload).
Proof. apply foldlM_deep_step_Ok. Qed.

(** A stage that is a path, by what the path resolves to. *)
Lemma stage_resolves (payload accumulator : value) (cval : jsstring) :
  is_path cval →
  stage this payload accumulator cval =
    match resolves cval payload with
    | Some v => Ok v
    | None => call_helper this cval [accumulator]
    end.
Proof.
  intros Hpath. rewrite stage_path by done. unfold resolves.
  destruct (deep_object_Ok cval payload) as [v ->]. rewrite bind_Ok.
  by destruct (to_boolean v).
Qed.

Lemma is_literal_call (name rest : jsstring) :
  is_literal (name ++ "("%char :: rest) = is_literal name.
Proof.
  destruct name as [|c name]; [|done].
  apply bool_decide_eq_false. by intros [[=]|[=]].
Qed.

Lemma is_path_raw : is_path (str "raw").
Proof. by_compute. Qed.

Lemma is_path_encode : is_path (str "encode").
Proof. by_compute. Qed.

(** The stages of a sentence. *)
Lemma processSentence_stages (keys : list jsstring) (payload : value) :
  keys ≠ [] → Forall (λ k, "|"%char ∉ k) keys →
  _processSentence this (NString (js_join "|" keys)) payload =
    foldlM (stage this payload) (VString []) (with_encode keys).
Proof. intros. unfold _processSentence. by rewrite js_split_join. Qed.

(** A sentence of one path stage, by what the path and the name [encode]
    resolve to. *)
Lemma processSentence_single (cval : jsstring) (payload : value) :
  is_path cval → cval ≠ str "raw" →
  _processSentence this (NString cval) payload =
    accumulator ← stage this payload (VString []) cval;
    match resolves (str "encode") payload with
    | Some u => Ok u
    | None => call_helper this (str "encode") [accumulator]
    end.
Proof.
  intros Hpath Hraw. unfold _processSentence.
  rewrite js_split_plain by apply Hpath. rewrite with_encode_single by done.
  rewrite foldlM_cons.
  destruct (stage this payload (VString []) cval) as [a|e]; [|done].
  by rewrite !bind_Ok, foldlM_singleton, stage_resolves by apply is_path_encode.
Qed.

(** A sentence of one path stage in a payload that does not redefine
    [encode], on an instance whose helper [encode] is the built-in one. *)
Lemma processSentence_path (cval : jsstring) (payload : value) :
  is_path cval → cval ≠ str "raw" →
  resolves (str "encode") payload = None →
  _helpers this !! str "encode" = Some encode →
  _processSentence this (NString cval) payload =
    match resolves cval payload with
    | Some v => encode [v]
    | None => accumulator ← call_helper this cval [VString []]; encode [accumulator]
    end.
Proof.
  intros Hpath Hraw Hshadow Henc.
  rewrite processSentence_single, stage_resolves, Hshadow by done.
  unfold call_helper at 1. rewrite Henc. by destruct (resolves cval payload).
Qed.

(** [encode] keeps a truthy value truthy and a falsy value as it is. *)
Lemma encode_truthy (v : value) :
  to_boolean v = true → ∃ v', encode [v] = Ok v' ∧ to_boolean v' = true.
Proof.
  intros Hv. destruct (decide (type_of v = TString)) as [Hs|Hs].
  - destruct v; try done. rewrite encode_string_eq. eexists. split; [done|].
    simpl in *. apply bool_decide_eq_true. apply bool_decide_eq_true in Hv.
    by intros ?%escape_nil_inv.
  - exists v. by rewrite encode_other_eq.
Qed.

Lemma encode_falsy (v : value) :
  to_boolean v = false → encode [v] = Ok v.
Proof.
  intros Hv. destruct v; try done. rewrite encode_string_eq. simpl in Hv.
  apply bool_decide_eq_false in Hv. apply dec_stable in Hv. by subst.
Qed.

End lemmas.

#[export] Hint Resolve is_path_raw is_path_encode : tangular.

(** ** Theorems *)

Section theorems.
Context `{Host} (this : Tangular).

(** Following a dotted path through a payload never throws: a property
    is read from a truthy value only, and the path stops at the first value
    that is not. *)
Theorem deep_object_total (safeVal : jsstring) (payload : value) :
  ∃ v, deep_object safeVal payload = Ok v.
Proof. apply deep_object_Ok. Qed.

(** C23: an output expression that is one path to a truthy value of the
    payload evaluates to that value passed through [encode], provided the
    payload has no truthy property named [encode]. *)
Theorem processSentence_encodes (cval : jsstring) (payload v : value) :
  is_path cval → cval ≠ str "raw" →
  resolves cval payload = Some v →
  resolves (str "encode") payload = None →
  _helpers this !! str "encode" = Some encode →
  _processSentence this (NString cval) payload = encode [v].
Proof.
  intros Hpath Hraw Hv Hshadow Henc.
  rewrite processSentence_single, stage_resolves, Hv, bind_Ok, Hshadow by done.
  unfold call_helper. by rewrite Henc.
Qed.

(** C32: an output expression [path|raw] evaluates to the value at the
    path, unescaped, provided the payload has no truthy property named
    [raw]. *)
Theorem processSentence_raw (cval : jsstring) (payload v : value) :
  is_path cval →
  resolves cval payload = Some v →
  resolves (str "raw") payload = None →
  _helpers this !! str "raw" = Some raw →
  _processSentence this (NString (cval ++ str "|raw")) payload = Ok v.
Proof.
  intros Hpath Hv Hshadow Hraw.
  rewrite (processSentence_stages this [cval; str "raw"]); [|done|].
  2:{ repeat constructor; [apply Hpath|by_compute]. }
  change [cval; str "raw"] with ([cval] ++ [str "raw"]).
  rewrite with_encode_raw. change ([cval] ++ [str "raw"]) with [cval; str "raw"].
  rewrite foldlM_cons, stage_resolves, Hv, bind_Ok by done.
  rewrite foldlM_singleton, stage_resolves, Hshadow by apply is_path_raw.
  unfold call_helper. by rewrite Hraw.
Qed.

(** C33: a path to a value that is falsy ([0], the empty string, [false],
    [null], a missing property) does not evaluate to that value: when no
    helper has the name of the path, the expression evaluates to
    [undefined]. *)
Theorem processSentence_falsy (cval : jsstring) (payload : value) :
  is_path cval → cval ≠ str "raw" →
  resolves cval payload = None →
  _helpers this !! cval = None →
  resolves (str "encode") payload = None →
  _helpers this !! str "encode" = Some encode →
  _processSentence this (NString cval) payload = Ok VUndefined.
Proof.
  intros Hpath Hraw Hv Hhelper Hshadow Henc.
  rewrite processSentence_single, stage_resolves, Hv by done.
  unfold call_helper. by rewrite Hhelper, bind_Ok, Hshadow, Henc.
Qed.

(** C36: a truthy property of the payload named [encode] takes the place of
    the helper: every expression of one path then evaluates to that
    property, whatever the path resolves to, and nothing is escaped. *)
Theorem processSentence_shadowed_encode (cval : jsstring) (payload v u : value) :
  is_path cval → cval ≠ str "raw" →
  resolves cval payload = Some v →
  resolves (str "encode") payload = Some u →
  _processSentence this (NString cval) payload = Ok u.
Proof.
  intros Hpath Hraw Hv Hu.
  by rewrite processSentence_single, stage_resolves, Hv, bind_Ok, Hu.
Qed.

(** A stage that starts with a quote is a literal: it evaluates to the
    stage without its first and its last character, whatever the last
    character is, and the accumulator is dropped. *)
Theorem stage_literal (q q' : ascii) (text : jsstring) (payload accumulator : value) :
  q = dquote ∨ q = "'"%char →
  stage this payload accumulator (q :: text ++ [q']) = Ok (VString text).
Proof.
  intros Hq. unfold stage.
  assert (is_literal (q :: text ++ [q']) = true) as ->.
  { apply bool_decide_eq_true. destruct Hq as [-> | ->]; auto. }
  do 2 f_equal. replace (Z.of_nat (length (q :: text ++ [q'])) - 1)%Z
    with (Z.of_nat (length [q] + length text)) by len.
  apply (js_substring_middle [q] text [q']).
Qed.

(** C35: a stage [name(arguments)] calls what [name] resolves to in the
    payload, or else the helper of that name, with the accumulator and the
    pieces of [arguments] between commas, as strings; the last character of
    the stage is dropped whatever it is. *)
Theorem stage_call (name arguments : jsstring) (q : ascii)
    (payload accumulator : value) :
  is_literal name = false → "("%char ∉ name →
  stage this payload accumulator (name ++ "("%char :: arguments ++ [q]) =
    let parameters := VString <$> js_split "," arguments in
    match resolves name payload with
    | Some deepObject => call_value deepObject (accumulator :: parameters)
    | None => call_helper this name (accumulator :: parameters)
    end.
Proof.
  intros Hlit Hname. unfold stage. rewrite is_literal_call, Hlit. cbv zeta.
  rewrite js_indexOf_app by done.
  destruct (decide (Z.of_nat (length name) = -1)%Z) as [|_]; [lia|].
  destruct (decide (Z.of_nat (length name) ≠ -1)%Z) as [_|]; [|lia].
  rewrite js_substring_prefix.
  replace (js_substring _ _ _) with arguments.
  2:{ symmetry. replace (Z.of_nat (length name) + 1)%Z
        with (Z.of_nat (length (name ++ ["("%char]))) by len.
      replace (Z.of_nat (length (name ++ "("%char :: arguments ++ [q])) - 1)%Z
        with (Z.of_nat (length (name ++ ["("%char]) + length arguments)) by len.
      rewrite (cons_middle "("%char name), (assoc_L (++)) by apply _.
      apply js_substring_middle. }
  unfold resolves. destruct (deep_object_Ok name payload) as [v ->].
  rewrite bind_Ok. by destruct (to_boolean v).
Qed.

End theorems.

(** ** The theorems at concrete inputs *)

Lemma processSentence_encodes_witness :
  _processSentence (H := example_host) new_Tangular (NString (str "name"))
    (VObject [(str "name", VString (str "<b>world</b>"))]) =
  Ok (VString (str "&lt;b&gt;world&lt;/b&gt;")).
Proof.
  refine (processSentence_encodes (H := example_host) new_Tangular (str "name")
            (VObject [(str "name", VString (str "<b>world</b>"))])
            (VString (str "<b>world</b>")) _ _ _ _ _);
    solve [by_compute | reflexivity].
Defined.

Lemma processSentence_raw_witness :
  _processSentence (H := example_host) new_Tangular (NString (str "name|raw"))
    (VObject [(str "name", VString (str "<b>world</b>"))]) =
  Ok (VString (str "<b>world</b>")).
Proof.
  refine (processSentence_raw (H := example_host) new_Tangular (str "name")
            (VObject [(str "name", VString (str "<b>world</b>"))])
            (VString (str "<b>world</b>")) _ _ _ _);
    solve [by_compute | reflexivity].
Defined.

Lemma processSentence_falsy_witness :
  _processSentence (H := example_host) new_Tangular (NString (str "count"))
    (VObject [(str "count", VNumber 0%float)]) = Ok VUndefined.
Proof.
  refine (processSentence_falsy (H := example_host) new_Tangular (str "count")
            (VObject [(str "count", VNumber 0%float)]) _ _ _ _ _ _);
    solve [by_compute | reflexivity].
Defined.

Lemma processSentence_shadowed_encode_witness :
  _processSentence (H := example_host) new_Tangular (NString (str "name"))
    (VObject [(str "name", VString (str "<b>"));
              (str "encode", VString (str "<i>"))]) =
  Ok (VString (str "<i>")).
Proof.
  refine (processSentence_shadowed_encode (H := example_host) new_Tangular
            (str "name") _ (VString (str "<b>")) (VString (str "<i>")) _ _ _ _);
    solve [by_compute | reflexivity].
Defined.

Lemma stage_literal_witness :
  stage (H := example_host) new_Tangular VNull (VString (str "dropped"))
    (str "'a<b)") = Ok (VString (str "a<b")).
Proof.
  refine (stage_literal (H := example_host) new_Tangular "'" ")" (str "a<b")
            VNull (VString (str "dropped")) _).
  by right.
Defined.

Lemma stage_call_witness :
  stage (H := example_host) new_Tangular (VObject []) (VString (str "acc"))
    (str "raw(1, 2)") = Ok (VString (str "acc")).
Proof.
  refine (stage_call (H := example_host) new_Tangular (str "raw") (str "1, 2")
            ")" (VObject []) (VString (str "acc")) _ _);
    by_compute.
Defined.
