(* ===== verification/Condition.v ===== *)
(** * Condition: the evaluator of [if] headers

    [_processInstruction] (lines 391-472 of [src/lib/tangular.ts]) evaluates
    a comparison leaf or a bare expression, [_processCondition] (lines
    474-495) a tree of them.

    [_processCondition] removes the first value of a condition without
    operator ([condition.values.shift()], line 489): it changes the tree it
    evaluates.  The model returns, with the result or the exception, the
    tree as the call leaves it. *)

From Stdlib Require Import Ascii String ZArith Lia Floats.
From stdpp Require Import base tactics list option strings gmap.
From S2P Require Import Prelude JsString JsValue Syntax Helpers Sentence.

#[local] Set Warnings "-register-all".

Module Import TO := TangularOperator.

(** ** Definitions *)

(** An optional field of an instruction, as the value read from it. *)
Definition field (v : option jsstring) : node :=
  match v with
  | Some s => NString s
  | None => NUndefined
  end.

(** The fold [values.reduce((acc, cval) => acc || f(cval), false)] of lines
    480-482, and the one with [&&] and [true] of lines 484-486: [absorbing]
    is the value of the accumulator at which the callback does not call
    [f].  The list returned holds the values as the calls left them. *)
Section reduce.
Context (f : node → result bool * node) (absorbing : bool).

Fixpoint reduce_values (values : list node) (acc : bool)
    : result bool * list node :=
  match values with
  | [] => (Ok acc, [])
  | cval :: values' =>
      if bool_decide (acc = absorbing) then
        let '(r, values'') := reduce_values values' acc in (r, cval :: values'')
      else
        match f cval with
        | (Ok b, cval') =>
            let '(r, values'') := reduce_values values' b in (r, cval' :: values'')
        | (Throw e, cval') => (Throw e, cval' :: values')
        end
  end.

End reduce.

Section condition.
Context `{Host} (this : Tangular) (payload : value).

(** The two sentences of a binary comparison, left first. *)
Definition binary (f : value → value → bool) (leftValue rightValue : node)
    : result bool :=
  l ← _processSentence this leftValue payload;
  r ← _processSentence this rightValue payload;
  Ok (f l r).

(** The [switch] of lines 398-471 on the fields of its argument. *)
Definition switch_operator (operator : TangularOperator.t)
    (leftValue rightValue : node) : result bool :=
  match operator with
  | EQUAL | DOUBLE_EQUAL => binary loose_equals leftValue rightValue
  | STRICT_EQUAL => binary strict_equals leftValue rightValue
  | NOT =>
      r ← _processSentence this rightValue payload;
      Ok (negb (to_boolean r))
  | NOT_EQUAL => binary (λ l r, negb (loose_equals l r)) leftValue rightValue
  | STRICT_NOT_EQUAL => binary (λ l r, negb (strict_equals l r)) leftValue rightValue
  | LESS_THAN => binary less_than leftValue rightValue
  | GREATER_THAN => binary (λ l r, less_than r l) leftValue rightValue
  | LESS_OR_EQUAL => binary less_or_equal leftValue rightValue
  | GREATER_OR_EQUAL => binary (λ l r, less_or_equal r l) leftValue rightValue
  | _ => Ok false
  end.

(** [_processInstruction], lines 391-472.  A condition that reaches it
    (line 493) has an operator and no [leftValue] or [rightValue]. *)
Definition _processInstruction (instruction : node) : result bool :=
  match instruction with
  | NUndefined | NString _ =>
      to_boolean <$> _processSentence this instruction payload
  | NInstruction i =>
      switch_operator (TangularInstruction.operator i)
        (field (TangularInstruction.leftValue i))
        (field (TangularInstruction.rightValue i))
  | NCondition c =>
      switch_operator (TangularCondition.operator c) NUndefined NUndefined
  end.

(** [_processCondition], lines 474-495: the result, and the argument as
    the call leaves it.  A string has no property [operator] and an
    instruction no property [values]. *)
Fixpoint _processCondition (condition : node) : result bool * node :=
  match condition with
  | NUndefined =>
      (Throw (TypeError "Cannot read properties of undefined (reading 'operator')"),
       condition)
  | NString _ => (_processInstruction condition, condition)
  | NInstruction i =>
      match TangularInstruction.operator i with
      | OR | AND =>
          (Throw (TypeError "Cannot read properties of undefined (reading 'reduce')"),
           condition)
      | NONE =>
          (Throw (TypeError "Cannot read properties of undefined (reading 'shift')"),
           condition)
      | _ => (_processInstruction condition, condition)
      end
  | NCondition c =>
      let updated values :=
        NCondition (TangularCondition.mk values (TangularCondition.operator c)
                      (TangularCondition.index c)) in
      match TangularCondition.operator c with
      | OR =>
          let '(r, values) :=
            reduce_values _processCondition true (TangularCondition.values c) false in
          (r, updated values)
      | AND =>
          let '(r, values) :=
            reduce_values _processCondition false (TangularCondition.values c) true in
          (r, updated values)
      | NONE =>
          match TangularCondition.values c with
          | [] =>
              (Throw (TypeError "Cannot read properties of undefined (reading 'operator')"),
               condition)
          | first :: values => ((_processCondition first).1, updated values)
          end
      | _ => (_processInstruction condition, condition)
      end
  end.

End condition.

(** A tree that [_processCondition] evaluates without reaching a [shift]
    or a missing property: strings, comparison leaves, and conditions under
    [AND] or [OR] of such trees. *)
Fixpoint shift_free (n : node) : bool :=
  match n with
  | NUndefined => false
  | NString _ => true
  | NInstruction i => TangularOperator.is_comparison (TangularInstruction.operator i)
  | NCondition c =>
      match TangularCondition.operator c with
      | AND | OR => forallb shift_free (TangularCondition.values c)
      | _ => false
      end
  end.

(** The reference evaluation of a shift-free tree: a function of the tree
    that changes nothing, with [||] and [&&] as sequential disjunction and
    conjunction. *)
Section reference.
Context `{Host} (this : Tangular) (payload : value).

Fixpoint junction (f : node → result bool) (absorbing : bool) (values : list node)
    (acc : bool) : result bool :=
  match values with
  | [] => Ok acc
  | cval :: values' =>
      if bool_decide (acc = absorbing) then Ok acc
      else b ← f cval; junction f absorbing values' b
  end.

Fixpoint eval_condition (n : node) : result bool :=
  match n with
  | NCondition c =>
      match TangularCondition.operator c with
      | OR => junction eval_condition true (TangularCondition.values c) false
      | AND => junction eval_condition false (TangularCondition.values c) true
      | _ => _processInstruction this payload n
      end
  | _ => _processInstruction this payload n
  end.

End reference.

(** ** Lemmas *)

Section lemmas.
Context `{Host} (this : Tangular) (payload : value).

Lemma reduce_values_absorbed (f : node → result bool * node) (absorbing : bool)
    (values : list node) :
  reduce_values f absorbing values absorbing = (Ok absorbing, values).
Proof.
  induction values as [|cval values IH]; simpl; [done|].
  by rewrite bool_decide_eq_true_2, IH.
Qed.

Lemma reduce_values_cons (f : node → result bool * node) (absorbing : bool)
    (cval : node) (values : list node) :
  reduce_values f absorbing (cval :: values) (negb absorbing) =
    match f cval with
    | (Ok b, cval') =>
        let '(r, values') := reduce_values f absorbing values b in
        (r, cval' :: values')
    | (Throw e, cval') => (Throw e, cval' :: values)
    end.
Proof. simpl. rewrite bool_decide_eq_false_2; [done|by destruct absorbing]. Qed.

Lemma junction_absorbed (f : node → result bool) (absorbing : bool) (values : list node) :
  junction f absorbing values absorbing = Ok absorbing.
Proof. destruct values; simpl; [done|]. by rewrite bool_decide_eq_true_2. Qed.

(** When [f] leaves the values of a list as they are and agrees with [g]
    on them, the fold leaves the list as it is and agrees with the
    junction by [g]. *)
Lemma reduce_values_junction (f : node → result bool * node)
    (g : node → result bool) (absorbing : bool) (values : list node) (acc : bool) :
  Forall (λ v, f v = (g v, v)) values →
  reduce_values f absorbing values acc = (junction g absorbing values acc, values).
Proof.
  intros Hall. revert acc.
  induction Hall as [|cval values Hf _ IH]; intros acc; simpl; [done|].
  case_bool_decide as Hacc.
  - subst. by rewrite reduce_values_absorbed.
  - rewrite Hf. destruct (g cval) as [b|e]; simpl; [|done]. by rewrite IH.
Qed.

(** A bare path as a condition, in a payload that does not redefine
    [encode]: whether the path resolves. *)
Lemma processInstruction_path (cval : jsstring) :
  is_path cval → cval ≠ str "raw" →
  resolves (str "encode") payload = None →
  _helpers this !! str "encode" = Some encode →
  _helpers this !! cval = None →
  _processInstruction this payload (NString cval) =
    Ok (bool_decide (is_Some (resolves cval payload))).
Proof.
  intros Hpath Hraw Hshadow Henc Hcval. unfold _processInstruction.
  rewrite processSentence_path by done. unfold call_helper. rewrite Hcval.
  destruct (resolves cval payload) as [v|] eqn:Hv; [|done].
  unfold resolves in Hv. destruct (deep_object cval payload) as [w|]; [|done].
  destruct (to_boolean w) eqn:Hw; simplify_eq.
  destruct (encode_truthy v Hw) as (v' & -> & Hv').
  simpl. by rewrite Hv'.
Qed.

(** The right side of a comparison is a sentence, not a literal: when
    it is a name that resolves to nothing in the payload, a number for
    instance, [l === r] compares with [undefined], and is true exactly when
    [l] does not resolve either. *)
Lemma processInstruction_unresolved_right (l r : jsstring) (index : nat) :
  is_path l → l ≠ str "raw" → is_path r → r ≠ str "raw" →
  resolves (str "encode") payload = None →
  _helpers this !! str "encode" = Some encode →
  _helpers this !! l = None → _helpers this !! r = None →
  resolves r payload = None →
  _processInstruction this payload
    (NInstruction (TangularInstruction.mk (Some l) (Some r) STRICT_EQUAL index)) =
  Ok (bool_decide (resolves l payload = None)).
Proof.
  intros Hl Hl' Hr Hr' Hshadow Henc Hhl Hhr Hres. simpl. unfold binary.
  rewrite !processSentence_path by done. rewrite Hres.
  unfold call_helper. rewrite Hhl, Hhr, !bind_Ok.
  destruct (resolves l payload) as [v|] eqn:Hv; [|done].
  unfold resolves in Hv. destruct (deep_object l payload) as [w|]; [|done].
  destruct (to_boolean w) eqn:Hw; simplify_eq.
  destruct (encode_truthy v Hw) as (v' & -> & Hv').
  rewrite bind_Ok. simpl. by destruct v'.
Qed.

(** A comparison is a leaf of the evaluation: it is not changed. *)
Lemma processCondition_instruction (i : TangularInstruction.t) :
  TangularOperator.is_comparison (TangularInstruction.operator i) = true →
  _processCondition this payload (NInstruction i) =
    (_processInstruction this payload (NInstruction i), NInstruction i).
Proof. intros Hop. cbn [_processCondition]. by destruct (TangularInstruction.operator i). Qed.

(** A path is a leaf too. *)
Lemma processCondition_string (cval : jsstring) :
  _processCondition this payload (NString cval) =
    (_processInstruction this payload (NString cval), NString cval).
Proof. done. Qed.

End lemmas.

(** ** Theorems *)

Section theorems.
Context `{Host} (this : Tangular) (payload : value).

(** C4: on a tree without a node without operator, [_processCondition] is
    the reference evaluation [eval_condition], and it leaves the tree as it
    was. *)
Theorem processCondition_shift_free (n : node) :
  shift_free n = true →
  _processCondition this payload n = (eval_condition this payload n, n).
Proof.
  induction n as [| s | i | c IH] using node_ind'; intros Hn; try done.
  { simpl in *. by destruct (TangularInstruction.operator i). }
  destruct c as [values op index]. simpl in *.
  destruct op; try done;
    by rewrite (reduce_values_junction _ (eval_condition this payload))
      by by apply (Forall_forallb_impl _ shift_free).
Qed.

(** C22: [||] and [&&] are sequential: when the first value of a
    disjunction is true, or the first value of a conjunction false, that is
    the result and the other values are not evaluated, and so neither
    changed nor able to throw. *)
Theorem processCondition_short_circuit (op : TangularOperator.t) (b : bool)
    (first first' : node) (rest : list node) (index : nat) :
  (op = OR ∧ b = true) ∨ (op = AND ∧ b = false) →
  _processCondition this payload first = (Ok b, first') →
  _processCondition this payload
    (NCondition (TangularCondition.mk (first :: rest) op index)) =
  (Ok b, NCondition (TangularCondition.mk (first' :: rest) op index)).
Proof.
  intros [[-> ->]|[-> ->]] Hfirst; simpl; rewrite Hfirst;
    by rewrite reduce_values_absorbed.
Qed.

(** A condition without operator gives up its value when it is
    evaluated: the first evaluation of the wrapper of one value is the
    evaluation of that value, it leaves the wrapper empty, and the second
    evaluation throws a [TypeError]. *)
Lemma processCondition_wrapper_once (first : node) (index : nat) :
  let wrapper := NCondition (TangularCondition.mk [first] NONE index) in
  let empty := NCondition (TangularCondition.mk [] NONE index) in
  _processCondition this payload wrapper =
    ((_processCondition this payload first).1, empty)
  ∧ ∃ what, _processCondition this payload empty = (Throw (TypeError what), empty).
Proof. split; [done|]. by eexists. Qed.

(** A bare path as a condition is true exactly when the path
    resolves to a truthy value, provided no helper has its name. *)
Theorem processCondition_path (cval : jsstring) :
  is_path cval → cval ≠ str "raw" →
  resolves (str "encode") payload = None →
  _helpers this !! str "encode" = Some encode →
  _helpers this !! cval = None →
  _processCondition this payload (NString cval) =
    (Ok (bool_decide (is_Some (resolves cval payload))), NString cval).
Proof.
  intros. change (_processCondition this payload (NString cval))
    with (_processInstruction this payload (NString cval), NString cval).
  by rewrite processInstruction_path.
Qed.

(** C34: a comparison of two paths that resolve to strings compares the
    escaped strings: [===] is equality of the strings all the same, and [<]
    is the order of the escaped strings. *)
Theorem processInstruction_strings (l r sl sr : jsstring) (index : nat) :
  is_path l → l ≠ str "raw" → is_path r → r ≠ str "raw" →
  resolves (str "encode") payload = None →
  _helpers this !! str "encode" = Some encode →
  resolves l payload = Some (VString sl) →
  resolves r payload = Some (VString sr) →
  _processInstruction this payload
    (NInstruction (TangularInstruction.mk (Some l) (Some r) STRICT_EQUAL index)) =
    Ok (bool_decide (sl = sr))
  ∧ _processInstruction this payload
      (NInstruction (TangularInstruction.mk (Some l) (Some r) LESS_THAN index)) =
    Ok (string_lt (escape sl) (escape sr)).
Proof.
  intros Hl Hl' Hr Hr' Hshadow Henc Hsl Hsr. simpl. unfold binary.
  rewrite !processSentence_path by done. rewrite Hsl, Hsr, !encode_string_eq.
  rewrite !bind_Ok. split; [|done]. f_equal. simpl.
  apply bool_decide_ext. split; [apply escape_inj|by intros ->].
Qed.

End theorems.

(** ** The theorems at concrete inputs *)

Lemma processCondition_shift_free_witness :
  _processCondition (H := example_host) new_Tangular
    (VObject [(str "a", VBoolean true)])
    (NCondition (TangularCondition.mk [NString (str "a"); NString (str "b")] AND 1)) =
  (Ok false,
   NCondition (TangularCondition.mk [NString (str "a"); NString (str "b")] AND 1)).
Proof.
  exact (processCondition_shift_free (H := example_host) new_Tangular
           (VObject [(str "a", VBoolean true)])
           (NCondition (TangularCondition.mk [NString (str "a"); NString (str "b")] AND 1))
           eq_refl).
Defined.

Lemma processCondition_short_circuit_witness :
  _processCondition (H := example_host) new_Tangular
    (VObject [(str "a", VBoolean true)])
    (NCondition (TangularCondition.mk [NString (str "a"); NUndefined] OR 1)) =
  (Ok true, NCondition (TangularCondition.mk [NString (str "a"); NUndefined] OR 1)).
Proof.
  refine (processCondition_short_circuit (H := example_host) new_Tangular
            (VObject [(str "a", VBoolean true)]) OR true
            (NString (str "a")) (NString (str "a")) [NUndefined] 1 _ _);
    [by left|reflexivity].
Defined.

Lemma processCondition_path_witness :
  _processCondition (H := example_host) new_Tangular
    (VObject [(str "a", VString [])]) (NString (str "a")) =
  (Ok false, NString (str "a")).
Proof.
  refine (processCondition_path (H := example_host) new_Tangular
            (VObject [(str "a", VString [])]) (str "a") _ _ _ _ _);
    solve [by_compute | reflexivity].
Defined.

Lemma processInstruction_strings_witness :
  _processInstruction (H := example_host) new_Tangular
    (VObject [(str "a", VString (str ">")); (str "b", VString (str "5"))])
    (NInstruction (TangularInstruction.mk (Some (str "a")) (Some (str "b"))
                     LESS_THAN 1)) = Ok true
  ∧ less_than (H := example_host) (VString (str ">")) (VString (str "5")) = false.
Proof.
  split; [|reflexivity].
  refine (proj2 (processInstruction_strings (H := example_host) new_Tangular
            (VObject [(str "a", VString (str ">")); (str "b", VString (str "5"))])
            (str "a") (str "b") (str ">") (str "5") 1 _ _ _ _ _ _ _ _));
    solve [by_compute | reflexivity].
Defined.
