(* ===== verification/Render.v ===== *)
(** * Render: the evaluator of blocs

    [_processBloc] (lines 534-622 of [src/lib/tangular.ts]) walks a list of
    blocs against a payload and returns the text produced with a control
    signal; [_processEach] (lines 497-532) runs the body of a loop once per
    key of a collection.

    The blocs of a compiled template outlive a render, and the evaluation
    of a condition can change the condition (see [Condition]).  A render
    therefore runs in a [store] that records, for the blocs whose
    [instruction] was changed, what it is now; a bloc is found in the store
    by its [ref], so two occurrences of one object read and write the same
    entry.  [walk A] is a computation that reads and writes the store and
    returns an [A] or throws. *)

From Stdlib Require Import Ascii String ZArith Lia Floats.
From stdpp Require Import base tactics list option strings gmap sorting.
From S2P Require Import Prelude JsString JsValue Syntax Helpers Sentence Condition.

#[local] Set Warnings "-register-all".

Module Import PK := TangularPrivateKey.

(** ** Definitions *)

(** The instructions of the blocs that were changed, by [ref]. *)
Abbreviation store := (gmap nat node).

(** [bloc.instruction], read in a store. *)
Definition instruction_at (h : store) (b : bloc) : node :=
  default (TangularBloc.instruction b) (h !! TangularBloc.ref b).

(** A computation in a store. *)
Definition walk (A : Type) : Type := store → result A * store.

#[export] Instance walk_ret : MRet walk := λ A a h, (Ok a, h).

#[export] Instance walk_bind : MBind walk := λ A B f m h,
  match m h with
  | (Ok a, h') => f a h'
  | (Throw e, h') => (Throw e, h')
  end.

(** A computation that does not touch the store. *)
Definition lift {A} (r : result A) : walk A := λ h, (r, h).

(** The local object [process] of [_processBloc], lines 538-541. *)
Record process_object : Type := mkProcess {
  lastOperator : TangularPrivateKey.t;
  lastReponse : bool
}.

(** A node where a string is expected: the conversion that [+] and a
    computed property key apply. *)
Definition node_to_string (n : node) : jsstring :=
  match n with
  | NString s => s
  | NUndefined => str "undefined"
  | NInstruction _ | NCondition _ => str "[object Object]"
  end.

(** [(pBloc.operator !== NONE && pBloc.operator) || processBloc.operator],
    lines 559, 575 and 584. *)
Definition merge_operator (inner outer : TangularPrivateKey.t) : TangularPrivateKey.t :=
  if decide (inner ≠ NONE) then inner else outer.

(** The two assignments of lines 558-559: the text and the signal of the
    children are merged into the accumulator. *)
Definition merge (processBloc pBloc : TangularProcessBloc.t) : TangularProcessBloc.t :=
  TangularProcessBloc.mk
    (TangularProcessBloc.template processBloc ++ TangularProcessBloc.template pBloc)
    (merge_operator (TangularProcessBloc.operator pBloc)
       (TangularProcessBloc.operator processBloc)).

(** [processBloc.template += text]. *)
Definition append (processBloc : TangularProcessBloc.t) (text : jsstring)
    : TangularProcessBloc.t :=
  TangularProcessBloc.mk (TangularProcessBloc.template processBloc ++ text)
    (TangularProcessBloc.operator processBloc).

(** [processBloc.operator = signal]. *)
Definition signal (processBloc : TangularProcessBloc.t) (k : TangularPrivateKey.t)
    : TangularProcessBloc.t :=
  TangularProcessBloc.mk (TangularProcessBloc.template processBloc) k.

(** The payload of an iteration, lines 515-519:
    [{...payload, [key]: item, '$index': n}]. *)
Definition scope (payload : value) (key : jsstring) (item : value) (n : jsstring)
    : value :=
  VObject (obj_set (str "$index") (VString n) (obj_set key item (spread payload))).

(** The accumulator [blocs.reduce] starts from, lines 617-620, and the
    initial [process]. *)
Definition empty_bloc : TangularProcessBloc.t := TangularProcessBloc.mk [] NONE.

Definition new_process : process_object := mkProcess NONE false.

(** [blocs.reduce(callback, ...)] with the local [process] threaded beside
    the accumulator. *)
Section reduce.
Context (callback : TangularProcessBloc.t * process_object → bloc →
                    walk (TangularProcessBloc.t * process_object)).

Fixpoint reduce_blocs (blocs : list bloc) (acc : TangularProcessBloc.t * process_object)
    : walk (TangularProcessBloc.t * process_object) :=
  match blocs with
  | [] => mret acc
  | b :: blocs' => acc' ← callback acc b; reduce_blocs blocs' acc'
  end.

End reduce.

(** The loop [for (const n in value)] of lines 512-526, from the key [n] on:
    [body] is the walk of the children. *)
Section each.
Context (body : value → walk TangularProcessBloc.t).
Context (payload : value) (key : jsstring) (value : value).

Fixpoint each_loop (keys : list jsstring) (tpl : jsstring) : walk jsstring :=
  match keys with
  | [] => mret tpl
  | n :: keys' =>
      item ← lift (get_prop value n);
      pBloc ← body (scope payload key item n);
      let tpl := tpl ++ TangularProcessBloc.template pBloc in
      if decide (TangularProcessBloc.operator pBloc = BREAK) then mret tpl
      else each_loop keys' tpl
  end.

End each.

Section render.
Context `{Host} (this : Tangular).

(** [this._processCondition(bloc.instruction, payload)] on the bloc [b]:
    the condition is read in the store and, changed, written back. *)
Definition condition_of (b : bloc) (payload : value) : walk bool := λ h,
  let '(r, n) := _processCondition this payload (instruction_at h b) in
  (r, <[TangularBloc.ref b := n]> h).

(** [_processEach], lines 497-532, over the walk of the children. *)
Definition each (body : value → walk TangularProcessBloc.t)
    (instruction : node) (payload : value) : walk (option jsstring) :=
  match instruction with
  | NCondition condition =>
      let key := default NUndefined (TangularCondition.values condition !! 0) in
      let instruction := default NUndefined (TangularCondition.values condition !! 1) in
      value ← lift (_processSentence this
                      (NString (node_to_string instruction ++ str "|raw")) payload);
      match TangularCondition.operator condition with
      | TangularOperator.IN =>
          tpl ← each_loop body payload (node_to_string key) value (own_keys value) [];
          mret (Some tpl)
      | _ => mret None
      end
  | _ => lift (Throw (TypeError "Cannot read properties of undefined (reading '0')"))
  end.

(** The branch taken when a condition holds, or for [else], lines 557-559:
    the children are walked and merged. *)
Definition branch (body : walk TangularProcessBloc.t)
    (processBloc : TangularProcessBloc.t) : walk TangularProcessBloc.t :=
  pBloc ← body; mret (merge processBloc pBloc).

(** The callback of [blocs.reduce], lines 543-616, on the bloc [b];
    [children] is the walk [this._processBloc(bloc.children, _)]. *)
Definition reducer (children : value → walk TangularProcessBloc.t)
    (b : bloc) (payload : value) (acc : TangularProcessBloc.t * process_object)
    : walk (TangularProcessBloc.t * process_object) :=
  let '(processBloc, process) := acc in
  if decide (TangularProcessBloc.operator processBloc ≠ NONE) then mret acc
  else
    let done processBloc lastReponse :=
      mret (processBloc, mkProcess (TangularBloc.name b) lastReponse) in
    match TangularBloc.name b with
    | IF =>
        responseCondIf ← condition_of b payload;
        if (responseCondIf : bool) then
          processBloc ← branch (children payload) processBloc;
          done processBloc responseCondIf
        else done processBloc responseCondIf
    | ELSEIF =>
        if lastReponse process then done processBloc (lastReponse process)
        else
          responseCondElseIf ← condition_of b payload;
          if (responseCondElseIf : bool) then
            processBloc ← branch (children payload) processBloc;
            done processBloc responseCondElseIf
          else done processBloc responseCondElseIf
    | ELSE =>
        if lastReponse process then done processBloc (lastReponse process)
        else
          processBloc ← branch (children payload) processBloc;
          done processBloc (lastReponse process)
    | FOREACH | FOR =>
        r3 ← (λ h, each children (instruction_at h b) payload h);
        done (append processBloc (default (str "undefined") r3)) (lastReponse process)
    | CONTINUE => done (signal processBloc CONTINUE) (lastReponse process)
    | BREAK => done (signal processBloc BREAK) (lastReponse process)
    | _ =>
        response ← (λ h,
          if TangularBloc.isHTML b then (Ok (node_to_string (instruction_at h b)), h)
          else (JsValue.to_string <$> _processSentence this (instruction_at h b) payload, h));
        done (append processBloc response) (lastReponse process)
    end.

(** The walk of the blocs of a list from an accumulator: [reduce] with
    [reducer] over the walk of the children of each bloc. *)
Fixpoint bloc_step (b : bloc) (payload : value)
    (acc : TangularProcessBloc.t * process_object) {struct b}
    : walk (TangularProcessBloc.t * process_object) :=
  reducer
    (λ payload,
       acc ← reduce_blocs (λ acc b', bloc_step b' payload acc)
               (TangularBloc.children b) (empty_bloc, new_process);
       mret acc.1)
    b payload acc.

(** [_processBloc], lines 534-622. *)
Definition _processBloc (blocs : list bloc) (payload : value)
    : walk TangularProcessBloc.t :=
  acc ← reduce_blocs (λ acc b, bloc_step b payload acc) blocs (empty_bloc, new_process);
  mret acc.1.

(** [_processEach], lines 497-532. *)
Definition _processEach (b : bloc) (payload : value) : walk (option jsstring) := λ h,
  each (_processBloc (TangularBloc.children b)) (instruction_at h b) payload h.

End render.

(** The walk of a list of blocs from an accumulator. *)
Definition walk_from `{Host} (this : Tangular) (payload : value) (blocs : list bloc)
    (acc : TangularProcessBloc.t * process_object)
    : walk (TangularProcessBloc.t * process_object) :=
  reduce_blocs (λ acc b, bloc_step this b payload acc) blocs acc.

(** The outputs of the iterations that a loop runs: those up to the first
    one that ends with the signal [BREAK], that one included. *)
Fixpoint upto_break (outs : list TangularProcessBloc.t) : list TangularProcessBloc.t :=
  match outs with
  | [] => []
  | o :: outs' =>
      if decide (TangularProcessBloc.operator o = BREAK) then [o]
      else o :: upto_break outs'
  end.

(** What an [if] chain means: the children of the first bloc whose
    condition holds, the conditions being evaluated in order up to that
    one, and [otherwise] when none holds. *)
Fixpoint first_true `{Host} (this : Tangular) (conds : list bloc) (otherwise : list bloc)
    (payload : value) : walk TangularProcessBloc.t :=
  match conds with
  | [] => _processBloc this otherwise payload
  | b :: conds' =>
      r ← condition_of this b payload;
      if (r : bool) then _processBloc this (TangularBloc.children b) payload
      else first_true this conds' otherwise payload
  end.

(** A condition without operator whose value was taken. *)
Definition emptied (index : nat) : node :=
  NCondition (TangularCondition.mk [] TangularOperator.NONE index).

(** A property of stores that a computation maintains. *)
Definition preserves {A} (Q : store → Prop) (m : walk A) : Prop :=
  ∀ h, Q h → Q (m h).2.

(** Blocs and a payload for the closed examples. *)
Module Examples.

Definition text (ref : nat) (s : string) : bloc :=
  TangularBloc.mk ref NONE [] (NString (str s)) true.

Definition output (ref : nat) (s : string) : bloc :=
  TangularBloc.mk ref NONE [] (NString (str s)) false.

Definition marker (ref : nat) (k : TangularPrivateKey.t) : bloc :=
  TangularBloc.mk ref k [] NUndefined false.

Definition conditional (ref : nat) (k : TangularPrivateKey.t) (condition : node)
    (children : list bloc) : bloc :=
  TangularBloc.mk ref k children condition false.

Definition loop_in (ref : nat) (v e : string) (children : list bloc) : bloc :=
  TangularBloc.mk ref FOREACH children
    (NCondition (TangularCondition.mk [NString (str v); NString (str e)]
                   TangularOperator.IN 0)) false.

Definition payload : value :=
  VObject [(str "a", VBoolean true);
           (str "items", VArray [VString (str "x"); VString (str "<"); VString (str "z")])].

End Examples.

(** ** Lemmas *)

Lemma walk_bind_unfold {A B} (m : walk A) (f : A → walk B) (h : store) :
  (m ≫= f) h =
    match m h with
    | (Ok a, h') => f a h'
    | (Throw e, h') => (Throw e, h')
    end.
Proof. done. Qed.

Lemma walk_bind_Ok {A B} (m : walk A) (f : A → walk B) (h h' : store) (a : A) :
  m h = (Ok a, h') → (m ≫= f) h = f a h'.
Proof. intros Hm. by rewrite walk_bind_unfold, Hm. Qed.

Lemma walk_bind_Throw {A B} (m : walk A) (f : A → walk B) (h h' : store) (e : js_error) :
  m h = (Throw e, h') → (m ≫= f) h = (Throw e, h').
Proof. intros Hm. by rewrite walk_bind_unfold, Hm. Qed.

Lemma walk_ret_unfold {A} (a : A) (h : store) : (mret a : walk A) h = (Ok a, h).
Proof. done. Qed.

Lemma merge_operator_NONE (k : TangularPrivateKey.t) : merge_operator k NONE = k.
Proof. unfold merge_operator. by case_decide. Qed.

Lemma merge_empty (pBloc : TangularProcessBloc.t) : merge empty_bloc pBloc = pBloc.
Proof. destruct pBloc. unfold merge. simpl. by rewrite merge_operator_NONE. Qed.

Lemma preserves_ret {A} (Q : store → Prop) (a : A) : preserves Q (mret a : walk A).
Proof. by intros h. Qed.

Lemma preserves_lift {A} (Q : store → Prop) (r : result A) : preserves Q (lift r).
Proof. by intros h. Qed.

Lemma preserves_bind {A B} (Q : store → Prop) (m : walk A) (f : A → walk B) :
  preserves Q m → (∀ a, preserves Q (f a)) → preserves Q (m ≫= f).
Proof.
  intros Hm Hf h Hh. rewrite walk_bind_unfold. specialize (Hm h Hh).
  destruct (m h) as [[a|e] h']; [by apply Hf|done].
Qed.

Lemma preserves_reduce_blocs (Q : store → Prop)
    (callback : TangularProcessBloc.t * process_object → bloc →
                walk (TangularProcessBloc.t * process_object))
    (blocs : list bloc) (acc : TangularProcessBloc.t * process_object) :
  Forall (λ b, ∀ acc, preserves Q (callback acc b)) blocs →
  preserves Q (reduce_blocs callback blocs acc).
Proof.
  intros Hall. revert acc. induction Hall as [|b blocs Hb _ IH]; intros acc.
  - apply preserves_ret.
  - simpl. by apply preserves_bind.
Qed.

Lemma preserves_each_loop (Q : store → Prop) (body : value → walk TangularProcessBloc.t)
    (payload : value) (key : jsstring) (v : value) (keys : list jsstring) (tpl : jsstring) :
  (∀ payload', preserves Q (body payload')) →
  preserves Q (each_loop body payload key v keys tpl).
Proof.
  intros Hbody. revert tpl. induction keys as [|n keys IH]; intros tpl; simpl.
  - apply preserves_ret.
  - apply preserves_bind; [apply preserves_lift|]. intros item.
    apply preserves_bind; [apply Hbody|]. intros pBloc.
    case_decide; [apply preserves_ret|apply IH].
Qed.

Section lemmas.
Context `{Host} (this : Tangular).

(** One step of the walk is the callback over [_processBloc] on the
    children: the recursion of the source. *)
Lemma bloc_step_reducer (b : bloc) (payload : value)
    (acc : TangularProcessBloc.t * process_object) :
  bloc_step this b payload acc =
    reducer this (_processBloc this (TangularBloc.children b)) b payload acc.
Proof. by destruct b. Qed.

Lemma processBloc_walk_from (blocs : list bloc) (payload : value) (h : store) :
  _processBloc this blocs payload h =
    match walk_from this payload blocs (empty_bloc, new_process) h with
    | (Ok acc, h') => (Ok acc.1, h')
    | (Throw e, h') => (Throw e, h')
    end.
Proof. done. Qed.

Lemma walk_from_cons (payload : value) (b : bloc) (blocs : list bloc)
    (acc : TangularProcessBloc.t * process_object) (h : store) :
  walk_from this payload (b :: blocs) acc h =
    (bloc_step this b payload acc ≫= walk_from this payload blocs) h.
Proof. done. Qed.

Lemma walk_from_app (payload : value) (l1 l2 : list bloc)
    (acc : TangularProcessBloc.t * process_object) (h : store) :
  walk_from this payload (l1 ++ l2) acc h =
    (walk_from this payload l1 acc ≫= walk_from this payload l2) h.
Proof.
  revert acc h. induction l1 as [|b l1 IH]; intros acc h; [done|].
  rewrite <- app_comm_cons, walk_from_cons, !walk_bind_unfold, walk_from_cons.
  rewrite walk_bind_unfold.
  destruct (bloc_step this b payload acc h) as [[acc'|e] h']; [|done].
  by rewrite IH, walk_bind_unfold.
Qed.

(** Line 544: once a signal is set, a bloc is skipped. *)
Lemma reducer_signalled (children : value → walk TangularProcessBloc.t) (b : bloc)
    (payload : value) (pb : TangularProcessBloc.t) (pr : process_object) (h : store) :
  TangularProcessBloc.operator pb ≠ NONE →
  reducer this children b payload (pb, pr) h = (Ok (pb, pr), h).
Proof. intros Hop. unfold reducer. by rewrite decide_True. Qed.

Lemma walk_from_signalled (payload : value) (blocs : list bloc)
    (pb : TangularProcessBloc.t) (pr : process_object) (h : store) :
  TangularProcessBloc.operator pb ≠ NONE →
  walk_from this payload blocs (pb, pr) h = (Ok (pb, pr), h).
Proof.
  intros Hop. induction blocs as [|b blocs IH]; [done|].
  by rewrite walk_from_cons, walk_bind_unfold, bloc_step_reducer, reducer_signalled.
Qed.

(** The store is written by the evaluation of conditions only: a property
    of stores that [condition_of] maintains is maintained by every walk. *)
Section preserves.
Context (Q : store → Prop).
Context (Hcondition : ∀ b payload, preserves Q (condition_of this b payload)).

Lemma preserves_each (body : value → walk TangularProcessBloc.t)
    (instruction : node) (payload : value) :
  (∀ payload', preserves Q (body payload')) →
  preserves Q (each this body instruction payload).
Proof.
  intros Hbody. destruct instruction as [| | |c]; try apply preserves_lift.
  unfold each. apply preserves_bind; [apply preserves_lift|]. intros v.
  destruct (TangularCondition.operator c); try apply preserves_ret.
  apply preserves_bind; [by apply preserves_each_loop|].
  intros tpl. apply preserves_ret.
Qed.

Lemma preserves_branch (body : walk TangularProcessBloc.t)
    (processBloc : TangularProcessBloc.t) :
  preserves Q body → preserves Q (branch body processBloc).
Proof. intros. apply preserves_bind; [done|]. intros. apply preserves_ret. Qed.

Lemma preserves_reducer (children : value → walk TangularProcessBloc.t) (b : bloc)
    (payload : value) (acc : TangularProcessBloc.t * process_object) :
  (∀ payload', preserves Q (children payload')) →
  preserves Q (reducer this children b payload acc).
Proof.
  intros Hchildren. destruct acc as [processBloc process]. unfold reducer.
  case_decide; [apply preserves_ret|].
  destruct (TangularBloc.name b);
    repeat first
      [ apply preserves_ret | apply Hcondition | apply preserves_branch
      | apply Hchildren
      | apply preserves_bind; [|intros ?]
      | match goal with |- context [if ?c then _ else _] => destruct c end
      | intros h Hh; by apply preserves_each
      | intros h Hh; by destruct (TangularBloc.isHTML b) ].
Qed.

Lemma preserves_bloc_step (b : bloc) :
  ∀ payload acc, preserves Q (bloc_step this b payload acc).
Proof.
  induction b as [b IH] using bloc_ind'. intros payload acc.
  rewrite bloc_step_reducer. apply preserves_reducer. intros payload'.
  apply preserves_bind; [|intros; apply preserves_ret].
  apply preserves_reduce_blocs. eapply Forall_impl; [exact IH|]. auto.
Qed.

Lemma preserves_processBloc (blocs : list bloc) (payload : value) :
  preserves Q (_processBloc this blocs payload).
Proof.
  apply preserves_bind; [|intros; apply preserves_ret].
  apply preserves_reduce_blocs, Forall_forall. intros b _ acc.
  apply preserves_bloc_step.
Qed.

End preserves.

End lemmas.

Section steps.
Context `{Host} (this : Tangular).

(** The callback on an [if] bloc, and on an [else if] bloc when no branch
    of the chain was taken. *)
Lemma reducer_conditional (children : value → walk TangularProcessBloc.t) (b : bloc)
    (payload : value) (pb : TangularProcessBloc.t) (k : TangularPrivateKey.t) (h : store) :
  TangularBloc.name b = IF ∨ TangularBloc.name b = ELSEIF →
  TangularProcessBloc.operator pb = NONE →
  reducer this children b payload (pb, mkProcess k false) h =
    (r ← condition_of this b payload;
     if (r : bool) then
       pb' ← branch (children payload) pb;
       mret (pb', mkProcess (TangularBloc.name b) r)
     else mret (pb, mkProcess (TangularBloc.name b) r)) h.
Proof.
  intros Hname Hop. unfold reducer. rewrite decide_False by (by intros ?).
  by destruct Hname as [-> | ->].
Qed.

(** The callback on an [else if] or [else] bloc after a branch was taken. *)
Lemma reducer_taken (children : value → walk TangularProcessBloc.t) (b : bloc)
    (payload : value) (pb : TangularProcessBloc.t) (k : TangularPrivateKey.t) (h : store) :
  TangularBloc.name b = ELSEIF ∨ TangularBloc.name b = ELSE →
  ∃ k', reducer this children b payload (pb, mkProcess k true) h =
          (Ok (pb, mkProcess k' true), h).
Proof.
  intros Hname. unfold reducer. case_decide; [by eexists|].
  destruct Hname as [-> | ->]; by eexists.
Qed.

(** The callback on an [else] bloc when no branch was taken. *)
Lemma reducer_else (children : value → walk TangularProcessBloc.t) (b : bloc)
    (payload : value) (pb : TangularProcessBloc.t) (k : TangularPrivateKey.t) (h : store) :
  TangularBloc.name b = ELSE →
  TangularProcessBloc.operator pb = NONE →
  reducer this children b payload (pb, mkProcess k false) h =
    (pb' ← branch (children payload) pb; mret (pb', mkProcess ELSE false)) h.
Proof.
  intros Hname Hop. unfold reducer. rewrite decide_False by (by intros ?).
  by rewrite Hname.
Qed.

(** The callback on a [break] or [continue] marker. *)
Lemma reducer_marker (children : value → walk TangularProcessBloc.t) (b : bloc)
    (payload : value) (pb : TangularProcessBloc.t) (pr : process_object) (h : store) :
  TangularBloc.name b = BREAK ∨ TangularBloc.name b = CONTINUE →
  TangularProcessBloc.operator pb = NONE →
  reducer this children b payload (pb, pr) h =
    (Ok (signal pb (TangularBloc.name b),
         mkProcess (TangularBloc.name b) (lastReponse pr)), h).
Proof.
  intros Hname Hop. unfold reducer. rewrite decide_False by (by intros ?).
  by destruct Hname as [-> | ->].
Qed.

(** The callback on a bloc of literal text. *)
Lemma reducer_text (children : value → walk TangularProcessBloc.t) (b : bloc)
    (payload : value) (pb : TangularProcessBloc.t) (pr : process_object) (h : store) :
  TangularBloc.name b = NONE → TangularBloc.isHTML b = true →
  TangularProcessBloc.operator pb = NONE →
  reducer this children b payload (pb, pr) h =
    (Ok (append pb (node_to_string (instruction_at h b)),
         mkProcess NONE (lastReponse pr)), h).
Proof.
  intros Hname Hhtml Hop. unfold reducer. rewrite decide_False by (by intros ?).
  rewrite Hname. by rewrite walk_bind_unfold, Hhtml.
Qed.

(** The callback on an output expression. *)
Lemma reducer_output (children : value → walk TangularProcessBloc.t) (b : bloc)
    (payload : value) (pb : TangularProcessBloc.t) (pr : process_object) (h : store) :
  TangularBloc.name b = NONE → TangularBloc.isHTML b = false →
  TangularProcessBloc.operator pb = NONE →
  reducer this children b payload (pb, pr) h =
    match _processSentence this (instruction_at h b) payload with
    | Ok v => (Ok (append pb (JsValue.to_string v), mkProcess NONE (lastReponse pr)), h)
    | Throw e => (Throw e, h)
    end.
Proof.
  intros Hname Hhtml Hop. unfold reducer. rewrite decide_False by (by intros ?).
  rewrite Hname. rewrite walk_bind_unfold, Hhtml.
  by destruct (_processSentence _ _ _).
Qed.

(** The callback on a loop. *)
Lemma reducer_each (b : bloc) (payload : value) (pb : TangularProcessBloc.t)
    (pr : process_object) (h : store) :
  TangularBloc.name b = FOREACH ∨ TangularBloc.name b = FOR →
  TangularProcessBloc.operator pb = NONE →
  reducer this (_processBloc this (TangularBloc.children b)) b payload (pb, pr) h =
    (r3 ← _processEach this b payload;
     mret (append pb (default (str "undefined") r3),
           mkProcess (TangularBloc.name b) (lastReponse pr))) h.
Proof.
  intros Hname Hop. unfold reducer. rewrite decide_False by (by intros ?).
  by destruct Hname as [-> | ->].
Qed.

Lemma processBloc_nil (payload : value) (h : store) :
  _processBloc this [] payload h = (Ok empty_bloc, h).
Proof. done. Qed.

(** A list of one bloc. *)
Lemma processBloc_singleton (b : bloc) (payload : value) (h : store) :
  _processBloc this [b] payload h =
    match reducer this (_processBloc this (TangularBloc.children b)) b payload
            (empty_bloc, new_process) h with
    | (Ok acc, h') => (Ok acc.1, h')
    | (Throw e, h') => (Throw e, h')
    end.
Proof.
  rewrite processBloc_walk_from, walk_from_cons, walk_bind_unfold, bloc_step_reducer.
  by destruct (reducer _ _ _ _ _ _) as [[acc|e] h'].
Qed.

End steps.

Section chains.
Context `{Host} (this : Tangular) (payload : value).

(** After a branch of a chain was taken, the [else if] and [else] blocs
    that follow change neither the output nor the store. *)
Lemma walk_from_taken (elifs : list bloc) (pb : TangularProcessBloc.t)
    (k : TangularPrivateKey.t) (h : store) :
  Forall (λ b, TangularBloc.name b = ELSEIF ∨ TangularBloc.name b = ELSE) elifs →
  ∃ k', walk_from this payload elifs (pb, mkProcess k true) h =
          (Ok (pb, mkProcess k' true), h).
Proof.
  intros Hall. revert k. induction Hall as [|b elifs Hb _ IH]; intros k.
  { by eexists. }
  rewrite walk_from_cons, walk_bind_unfold, bloc_step_reducer.
  destruct (reducer_taken this (_processBloc this (TangularBloc.children b))
              b payload pb k h Hb) as [k' ->].
  apply IH.
Qed.

(** A chain in which no branch was taken yet. *)
Lemma walk_from_pending (conds : list bloc) (bElse : bloc)
    (k : TangularPrivateKey.t) (h : store) :
  Forall (λ b, TangularBloc.name b = IF ∨ TangularBloc.name b = ELSEIF) conds →
  Forall (λ b, TangularBloc.name b = ELSEIF ∨ TangularBloc.name b = ELSE) (tail conds) →
  TangularBloc.name bElse = ELSE →
  (acc ← walk_from this payload (conds ++ [bElse]) (empty_bloc, mkProcess k false);
   mret acc.1) h =
  first_true this conds (TangularBloc.children bElse) payload h.
Proof.
  intros Hconds Htail Helse. revert k h Htail.
  induction Hconds as [|b conds Hb _ IH]; intros k h Htail.
  - simpl app. rewrite walk_bind_unfold, walk_from_cons, walk_bind_unfold.
    rewrite bloc_step_reducer, reducer_else by done.
    unfold branch. rewrite !walk_bind_unfold. simpl first_true.
    destruct (_processBloc this (TangularBloc.children bElse) payload h)
      as [[pBloc|e] h']; [|done].
    by rewrite !walk_ret_unfold, merge_empty.
  - simpl in Htail. rewrite <- app_comm_cons.
    rewrite walk_bind_unfold, walk_from_cons, walk_bind_unfold.
    rewrite bloc_step_reducer, reducer_conditional by done.
    simpl first_true. rewrite !walk_bind_unfold.
    destruct (condition_of this b payload h) as [[[|]|e] h1]; [| |done].
    + unfold branch. rewrite !walk_bind_unfold.
      destruct (_processBloc this (TangularBloc.children b) payload h1)
        as [[pBloc|e] h2]; [|done].
      rewrite !walk_ret_unfold, merge_empty.
      destruct (walk_from_taken (conds ++ [bElse]) pBloc (TangularBloc.name b) h2)
        as [k' ->]; [|done].
      apply Forall_app. split; [done|]. constructor; [by right|done].
    + rewrite <- (IH (TangularBloc.name b) h1); [by rewrite walk_bind_unfold|].
      destruct conds; [done|]. by apply Forall_inv_tail in Htail.
Qed.

(** A chain [if], [else if]..., [else] as a list of blocs. *)
Lemma processBloc_chain (conds : list bloc) (bElse : bloc) (h : store) :
  Forall (λ b, TangularBloc.name b = IF ∨ TangularBloc.name b = ELSEIF) conds →
  Forall (λ b, TangularBloc.name b = ELSEIF ∨ TangularBloc.name b = ELSE) (tail conds) →
  TangularBloc.name bElse = ELSE →
  _processBloc this (conds ++ [bElse]) payload h =
    first_true this conds (TangularBloc.children bElse) payload h.
Proof. apply walk_from_pending. Qed.

End chains.

Section loops.
Context `{Host} (this : Tangular) (payload : value).

Lemma get_prop_index (items : list value) (i : nat) (item : value) :
  items !! i = Some item → get_prop (VArray items) (index_to_string i) = Ok item.
Proof. intros Hi. by apply own_keys_array_lookup. Qed.

(** The loop over the indices of an array from [k] on, when the walk of the
    body leaves the store as it is: the outputs of the iterations in order,
    up to the first [BREAK]. *)
Lemma each_loop_seq (body : value → walk TangularProcessBloc.t) (key : jsstring)
    (all items : list value) (out : nat → value → TangularProcessBloc.t) (h : store) :
  ∀ (k : nat) (tpl : jsstring),
  (∀ j item, items !! j = Some item →
     all !! (k + j) = Some item
     ∧ body (scope payload key item (index_to_string (k + j))) h =
         (Ok (out (k + j) item), h)) →
  each_loop body payload key (VArray all)
    (index_to_string <$> seq k (length items)) tpl h =
  (Ok (tpl ++ concat (TangularProcessBloc.template <$>
                        upto_break (imap (λ j, out (k + j)) items))), h).
Proof.
  induction items as [|item items IH]; intros k tpl Hbody.
  { simpl. by rewrite app_nil_r. }
  destruct (Hbody 0 item eq_refl) as [Hitem Hout]. rewrite Nat.add_0_r in *.
  cbn [length seq fmap list_fmap each_loop imap upto_break].
  rewrite walk_bind_unfold. unfold lift. rewrite (get_prop_index all k item Hitem).
  rewrite walk_bind_unfold, Hout, Nat.add_0_r.
  case_decide as Hbreak.
  - simpl. by rewrite app_nil_r.
  - rewrite (IH (S k)).
    + simpl. rewrite <- (assoc_L (++)). do 3 f_equal.
      rewrite (imap_ext (λ j, out (S (k + j))) ((λ j, out (k + j)) ∘ S)); [done|].
      intros j x _. simpl. f_equal. lia.
    + intros j x Hj. specialize (Hbody (S j) x Hj).
      by replace (S k + j) with (k + S j) by lia.
Qed.

(** [_processEach] over an array whose body leaves the store as it is. *)
Lemma processEach_seq (b : bloc) (v e : jsstring) (index : nat)
    (items : list value) (out : nat → value → TangularProcessBloc.t) (h : store) :
  instruction_at h b =
    NCondition (TangularCondition.mk [NString v; NString e] TangularOperator.IN index) →
  _processSentence this (NString (e ++ str "|raw")) payload = Ok (VArray items) →
  (∀ i item, items !! i = Some item →
     _processBloc this (TangularBloc.children b)
       (scope payload v item (index_to_string i)) h = (Ok (out i item), h)) →
  _processEach this b payload h =
    (Ok (Some (concat (TangularProcessBloc.template <$> upto_break (imap out items)))), h).
Proof.
  intros Hinstr Hvalue Hbody. unfold _processEach. rewrite Hinstr. unfold each.
  cbn [TangularCondition.values TangularCondition.operator lookup list_lookup
       from_option id node_to_string].
  rewrite walk_bind_unfold. unfold lift. rewrite Hvalue, walk_bind_unfold.
  cbn [own_keys].
  rewrite (each_loop_seq _ v items items out h 0 []); [done|].
  intros j item Hj. split; [done|]. by apply Hbody.
Qed.

(** No iteration ends with [break]: the loop runs them all. *)
Lemma upto_break_all (outs : list TangularProcessBloc.t) :
  Forall (λ o, TangularProcessBloc.operator o ≠ BREAK) outs → upto_break outs = outs.
Proof.
  induction 1 as [|o outs Ho _ IH]; [done|]. cbn [upto_break].
  by rewrite decide_False, IH.
Qed.

End loops.

Section stores.
Context `{Host} (this : Tangular).

Lemma bind_establishes {A B} (Q : store → Prop) (m : walk A) (f : A → walk B) (h : store) :
  Q (m h).2 → (∀ a, preserves Q (f a)) → Q ((m ≫= f) h).2.
Proof.
  intros Hm Hf. rewrite walk_bind_unfold.
  destruct (m h) as [[a|e] h']; [by apply Hf|done].
Qed.

Lemma processBloc_singleton_store (b : bloc) (payload : value) (h : store) :
  (_processBloc this [b] payload h).2 =
    (reducer this (_processBloc this (TangularBloc.children b)) b payload
       (empty_bloc, new_process) h).2.
Proof.
  rewrite processBloc_singleton.
  by destruct (reducer _ _ _ _ _ _) as [[acc|e] h'].
Qed.

Lemma processCondition_emptied (payload : value) (index : nat) :
  _processCondition this payload (emptied index) =
    (Throw (TypeError "Cannot read properties of undefined (reading 'operator')"),
     emptied index).
Proof. done. Qed.

Lemma instruction_at_empty (b : bloc) : instruction_at ∅ b = TangularBloc.instruction b.
Proof. unfold instruction_at. by rewrite lookup_empty. Qed.

Lemma instruction_at_Some (h : store) (b : bloc) (n : node) :
  h !! TangularBloc.ref b = Some n → instruction_at h b = n.
Proof. intros Hh. unfold instruction_at. by rewrite Hh. Qed.

(** An emptied condition stays in the store: evaluating it throws and
    writes it back. *)
Lemma condition_of_emptied (r index : nat) (b : bloc) (payload : value) :
  preserves (λ h, h !! r = Some (emptied index)) (condition_of this b payload).
Proof.
  intros h Hh. unfold condition_of.
  destruct (decide (TangularBloc.ref b = r)) as [<-|Hne].
  - rewrite (instruction_at_Some h b _ Hh), processCondition_emptied.
    apply lookup_insert_eq.
  - destruct (_processCondition _ _ _) as [r' n]. cbn [snd].
    by rewrite lookup_insert_ne.
Qed.

Lemma condition_of_emptied_throws (index : nat) (b : bloc) (payload : value) (h : store) :
  h !! TangularBloc.ref b = Some (emptied index) →
  ∃ what h', condition_of this b payload h = (Throw (TypeError what), h').
Proof.
  intros Hh. unfold condition_of.
  rewrite (instruction_at_Some h b _ Hh), processCondition_emptied. by do 2 eexists.
Qed.

(** A walk of literal blocs from an accumulator. *)
Lemma walk_from_literals (payload : value) (blocs : list bloc) (h : store) :
  Forall (λ b, TangularBloc.name b = NONE ∧ TangularBloc.isHTML b = true) blocs →
  ∀ pb pr, TangularProcessBloc.operator pb = NONE →
  ∃ pr', walk_from this payload blocs (pb, pr) h =
    (Ok (append pb (concat ((λ b, node_to_string (instruction_at h b)) <$> blocs)), pr'), h).
Proof.
  induction 1 as [|b blocs [Hname Hhtml] _ IH]; intros pb pr Hop.
  { exists pr. destruct pb. unfold append. simpl. by rewrite app_nil_r. }
  rewrite walk_from_cons, walk_bind_unfold, bloc_step_reducer, reducer_text by done.
  destruct (IH (append pb (node_to_string (instruction_at h b)))
              (mkProcess NONE (lastReponse pr)) Hop) as [pr' ->].
  exists pr'. unfold append. simpl. by rewrite (assoc_L (++)).
Qed.

(** A list of literal blocs renders to the concatenation of their
    texts, with no signal, and leaves the store as it is. *)
Lemma processBloc_literals (payload : value) (blocs : list bloc) (h : store) :
  Forall (λ b, TangularBloc.name b = NONE ∧ TangularBloc.isHTML b = true) blocs →
  _processBloc this blocs payload h =
    (Ok (TangularProcessBloc.mk
           (concat ((λ b, node_to_string (instruction_at h b)) <$> blocs)) NONE), h).
Proof.
  intros Hall. rewrite processBloc_walk_from.
  by destruct (walk_from_literals payload blocs h Hall
                 empty_bloc new_process eq_refl) as [pr' ->].
Qed.

Lemma instruction_at_insert_ne (h : store) (b : bloc) (r : nat) (n : node) :
  TangularBloc.ref b ≠ r → instruction_at (<[r := n]> h) b = instruction_at h b.
Proof. intros Hr. unfold instruction_at. by rewrite lookup_insert_ne. Qed.

(** A compiled [if] whose condition is a wrapper without operator
    renders once: the first walk takes the value out of the wrapper, and
    every later walk of the same bloc, with any payload, throws a
    [TypeError]. *)
Lemma processBloc_wrapper_second_render (b : bloc) (first : node) (index : nat)
    (payload payload' : value) (h : store) :
  TangularBloc.name b = IF →
  instruction_at h b =
    NCondition (TangularCondition.mk [first] TangularOperator.NONE index) →
  ∃ what,
    (_processBloc this [b] payload' (_processBloc this [b] payload h).2).1 =
      Throw (TypeError what).
Proof.
  intros Hname Hinstr.
  assert ((_processBloc this [b] payload h).2 !! TangularBloc.ref b =
          Some (emptied index)) as Hemptied.
  { rewrite processBloc_singleton_store. unfold new_process.
    rewrite reducer_conditional by (by left || done).
    apply (bind_establishes (λ h, h !! TangularBloc.ref b = Some (emptied index))).
    - unfold condition_of. rewrite Hinstr. apply lookup_insert_eq.
    - intros [|]; [|apply preserves_ret].
      apply preserves_bind; [|intros; apply preserves_ret].
      apply preserves_branch, preserves_processBloc.
      intros. apply condition_of_emptied. }
  rewrite processBloc_singleton. unfold new_process.
  rewrite reducer_conditional by (by left || done).
  rewrite walk_bind_unfold.
  destruct (condition_of_emptied_throws index b payload' _ Hemptied)
    as (what & h' & ->). by exists what.
Qed.

(** The condition of a bloc that is a comparison or a path: the store
    keeps the condition as it was. *)
Lemma condition_of_leaf (b : bloc) (payload : value) (h : store) :
  match instruction_at h b with
  | NInstruction i => TangularOperator.is_comparison (TangularInstruction.operator i) = true
  | NString _ => True
  | _ => False
  end →
  condition_of this b payload h =
    (_processInstruction this payload (instruction_at h b),
     <[TangularBloc.ref b := instruction_at h b]> h).
Proof.
  unfold condition_of. destruct (instruction_at h b) as [| |i|]; try done.
  intros Hi. by rewrite processCondition_instruction.
Qed.

End stores.

(** ** Theorems *)

Section theorems.
Context `{Host} (this : Tangular) (payload : value).

(** C21: once a bloc has set a signal, [break] or [continue], the blocs
    that follow it in the list are skipped: the walk of the list is the walk
    of its part up to that bloc. *)
Theorem processBloc_signal_skips (blocs1 blocs2 : list bloc)
    (pb : TangularProcessBloc.t) (h h' : store) :
  _processBloc this blocs1 payload h = (Ok pb, h') →
  TangularProcessBloc.operator pb ≠ NONE →
  _processBloc this (blocs1 ++ blocs2) payload h = (Ok pb, h').
Proof.
  rewrite !processBloc_walk_from, walk_from_app, walk_bind_unfold.
  destruct (walk_from this payload blocs1 _ h) as [[[pb1 pr1]|e] h1]; [|done].
  intros [= -> ->] Hop. by rewrite walk_from_signalled.
Qed.

(** C2: in a chain [if], [else if]..., [else], the conditions are
    evaluated in order up to the first one that holds; the output of the
    chain is the output of the children of that bloc alone, or of the
    children of the [else] bloc when no condition holds. *)
Theorem if_chain_exclusive (bIf : bloc) (elifs : list bloc) (bElse : bloc) (h : store) :
  TangularBloc.name bIf = IF →
  Forall (λ b, TangularBloc.name b = ELSEIF) elifs →
  TangularBloc.name bElse = ELSE →
  _processBloc this (bIf :: elifs ++ [bElse]) payload h =
    first_true this (bIf :: elifs) (TangularBloc.children bElse) payload h.
Proof.
  intros Hif Helifs Helse.
  apply (walk_from_pending this payload (bIf :: elifs) bElse NONE h); [| |done].
  - constructor; [by left|]. eapply Forall_impl; [done|]. by right.
  - simpl. eapply Forall_impl; [done|]. by left.
Qed.

(** C3: a loop over an array whose body leaves the store as it is runs the
    body once per element, in order, with the loop variable bound to the
    element and [$index] to its position; its output is the concatenation
    of the outputs of the iterations up to the first one that ends with
    [break], that one included.  The signal [continue] does not end the
    loop. *)
Theorem processEach_array (b : bloc) (v e : jsstring) (index : nat)
    (items : list value) (out : nat → value → TangularProcessBloc.t) (h : store) :
  instruction_at h b =
    NCondition (TangularCondition.mk [NString v; NString e] TangularOperator.IN index) →
  _processSentence this (NString (e ++ str "|raw")) payload = Ok (VArray items) →
  (∀ i item, items !! i = Some item →
     _processBloc this (TangularBloc.children b)
       (scope payload v item (index_to_string i)) h = (Ok (out i item), h)) →
  _processEach this b payload h =
    (Ok (Some (concat (TangularProcessBloc.template <$> upto_break (imap out items)))), h).
Proof. apply processEach_seq. Qed.

(** C37: an output expression whose path resolves to nothing, when no
    helper has its name, renders the text [undefined]. *)
Theorem processBloc_unresolved_output (b : bloc) (cval : jsstring) (h : store) :
  TangularBloc.name b = NONE → TangularBloc.isHTML b = false →
  instruction_at h b = NString cval →
  is_path cval → cval ≠ str "raw" →
  resolves cval payload = None → _helpers this !! cval = None →
  resolves (str "encode") payload = None →
  _helpers this !! str "encode" = Some encode →
  _processBloc this [b] payload h =
    (Ok (TangularProcessBloc.mk (str "undefined") NONE), h).
Proof.
  intros Hname Hhtml Hinstr Hpath Hraw Hres Hhelper Hshadow Henc.
  rewrite processBloc_singleton, reducer_output, Hinstr by done.
  rewrite processSentence_path, Hres by done.
  unfold call_helper. by rewrite Hhelper.
Qed.

(** A loop absorbs the signal of its body: after a [foreach] or [for]
    bloc the signal of the enclosing list is still unset, so the blocs that
    follow the loop are walked. *)
Theorem processBloc_loop_absorbs_signal (b : bloc) (pb : TangularProcessBloc.t)
    (h h' : store) :
  TangularBloc.name b = FOREACH ∨ TangularBloc.name b = FOR →
  _processBloc this [b] payload h = (Ok pb, h') →
  TangularProcessBloc.operator pb = NONE.
Proof.
  intros Hname. rewrite processBloc_singleton, reducer_each by done.
  rewrite walk_bind_unfold.
  destruct (_processEach this b payload h) as [[r3|e] h1]; [|done].
  by intros [= <- _].
Qed.

(** The payload of an iteration binds [$index] to the key and the loop
    variable to the element, unless the loop variable is itself named
    [$index]; every other property of an object payload is visible in it
    with its value. *)
Theorem scope_binds (props : list (jsstring * value)) (key n k : jsstring) (item : value) :
  key ≠ str "$index" → k ≠ key → k ≠ str "$index" →
  get_prop (scope (VObject props) key item n) (str "$index") = Ok (VString n)
  ∧ get_prop (scope (VObject props) key item n) key = Ok item
  ∧ get_prop (scope (VObject props) key item n) k = get_prop (VObject props) k.
Proof.
  intros Hkey Hk Hk'. unfold scope, get_prop. split_and!.
  - by rewrite assoc_obj_set.
  - by rewrite assoc_obj_set_ne, assoc_obj_set.
  - by rewrite !assoc_obj_set_ne, assoc_spread.
Qed.

End theorems.

(** ** The theorems at concrete inputs *)


Import Examples.

Lemma processBloc_signal_skips_witness :
  _processBloc (H := example_host) new_Tangular
    ([text 0 "a"; marker 1 BREAK] ++ [text 2 "b"]) payload ∅ =
  (Ok (TangularProcessBloc.mk (str "a") BREAK), ∅).
Proof.
  refine (processBloc_signal_skips (H := example_host) new_Tangular payload
            [text 0 "a"; marker 1 BREAK] [text 2 "b"]
            (TangularProcessBloc.mk (str "a") BREAK) ∅ ∅ _ _);
    [reflexivity|done].
Defined.

Lemma if_chain_exclusive_witness :
  (_processBloc (H := example_host) new_Tangular
     (conditional 0 IF (NString (str "b")) [text 1 "A"]
      :: [conditional 2 ELSEIF (NString (str "a")) [text 3 "B"]]
      ++ [conditional 4 ELSE NUndefined [text 5 "C"]]) payload ∅).1 =
  Ok (TangularProcessBloc.mk (str "B") NONE).
Proof.
  rewrite (if_chain_exclusive (H := example_host) new_Tangular payload
             (conditional 0 IF (NString (str "b")) [text 1 "A"])
             [conditional 2 ELSEIF (NString (str "a")) [text 3 "B"]]
             (conditional 4 ELSE NUndefined [text 5 "C"]) ∅);
    [reflexivity|done|by repeat constructor|done].
Defined.

Lemma processEach_array_witness :
  _processEach (H := example_host) new_Tangular
    (loop_in 0 "it" "items" [output 1 "$index"; text 2 ":"; output 3 "it"; text 4 ";"])
    payload ∅ =
  (Ok (Some (str "0:x;1:&lt;;2:z;")), ∅).
Proof.
  refine (processEach_array (H := example_host) new_Tangular payload
            (loop_in 0 "it" "items" [output 1 "$index"; text 2 ":"; output 3 "it"; text 4 ";"])
            (str "it") (str "items") 0
            [VString (str "x"); VString (str "<"); VString (str "z")]
            (λ i item, TangularProcessBloc.mk
               (index_to_string i ++ str ":"
                ++ JsValue.to_string (H := example_host)
                     (default VUndefined
                        (match encode [item] with Ok v => Some v | Throw _ => None end))
                ++ str ";") NONE)
            ∅ _ _ _);
    [reflexivity|reflexivity|].
  intros [|[|[|i]]] item [= <-]; reflexivity.
Defined.

Lemma processBloc_unresolved_output_witness :
  _processBloc (H := example_host) new_Tangular [output 0 "missing"] payload ∅ =
  (Ok (TangularProcessBloc.mk (str "undefined") NONE), ∅).
Proof.
  refine (processBloc_unresolved_output (H := example_host) new_Tangular payload
            (output 0 "missing") (str "missing") ∅ _ _ _ _ _ _ _ _ _);
    solve [by_compute | reflexivity].
Defined.

Lemma processBloc_loop_absorbs_signal_witness :
  _processBloc (H := example_host) new_Tangular
    [loop_in 0 "it" "items" [text 1 "x"; marker 2 BREAK; text 3 "y"]] payload ∅ =
    (Ok (TangularProcessBloc.mk (str "x") NONE), ∅)
  ∧ TangularProcessBloc.operator (TangularProcessBloc.mk (str "x") NONE) = NONE.
Proof.
  split; [reflexivity|].
  refine (processBloc_loop_absorbs_signal (H := example_host) new_Tangular payload
            (loop_in 0 "it" "items" [text 1 "x"; marker 2 BREAK; text 3 "y"])
            (TangularProcessBloc.mk (str "x") NONE) ∅ ∅ _ _);
    [by left|reflexivity].
Defined.

Lemma scope_binds_witness :
  get_prop (scope payload (str "it") VNull (str "0")) (str "$index") = Ok (VString (str "0"))
  ∧ get_prop (scope payload (str "it") VNull (str "0")) (str "it") = Ok VNull
  ∧ get_prop (scope payload (str "it") VNull (str "0")) (str "a") = Ok (VBoolean true).
Proof.
  refine (scope_binds _ (str "it") (str "0") (str "a") VNull _ _ _); done.
Defined.
