(* ===== verification/Compile.v ===== *)
(** * Compile: the entry points

    [compile] (lines 624-633 of [src/lib/tangular.ts]) scans the template,
    builds its blocs and returns a function of the payload; that function
    keeps the blocs, and with them the conditions that its calls change.
    A compiled template is therefore a value [compiled], the tree of blocs
    with the [store] of the conditions changed so far, and a call of the
    function is [invoke], which returns the text (or the exception) and the
    compiled template as the call leaves it.  [render] (lines 635-637) and
    [renderAsync] (lines 639-641) compile and call once.

    [None] stands for a call that does not return: [compile] does not when
    the parser of a header does not, and in no other case, since what the
    builder leaves in its heap can always be read as trees
    ([build_None]). *)

From Stdlib Require Import Ascii String ZArith Lia Floats.
From stdpp Require Import base tactics list option strings gmap.
From S2P Require Import Prelude JsString JsValue Syntax ConditionParser Helpers.
From S2P Require Import Sentence Condition Render Whitespace Scanner Builder BuilderHeap.

#[local] Set Warnings "-register-all".

(** ** Definitions *)

(** What the function returned by [compile] holds. *)
Record compiled : Type := mkCompiled {
  blocs : list bloc;
  conditions : store
}.

(** A parameter with the default value [{}]: it is used when the argument
    is [undefined]. *)
Definition default_payload (payload : JsValue.value) : JsValue.value :=
  match payload with
  | VUndefined => VObject []
  | _ => payload
  end.

(** The first two statements of [compile], lines 625-629: the blocs of a
    template, out of the heap they were built in. *)
Definition build (template : jsstring) : option (result (list bloc)) :=
  let elements := scan template in
  built ← _processBuildPrivateKey (build_fuel elements) template elements false 0 [];
  match built with
  | Ok (Blocs blocsObject, h, _) => Ok <$> reify_all h blocsObject
  | Ok (Nested _ _ _, _, _) =>
      (* not returned by a call whose [returnNextKeyEnd] is false *)
      None
  | Throw e => Some (Throw e)
  end.

(** [compile], lines 624-633. *)
Definition compile (template : jsstring) : option (result compiled) :=
  r ← build template;
  Some (blocs ← r; Ok (mkCompiled blocs ∅)).

Section calls.
Context `{Host} (this : Tangular).

(** A call of the function that [compile] returned, lines 630-632. *)
Definition invoke (c : compiled) (payload : JsValue.value) : result jsstring * compiled :=
  let '(r, h) := _processBloc this (blocs c) (default_payload payload) (conditions c) in
  ((λ pb, strip_blank_lines true (TangularProcessBloc.template pb)) <$> r,
   mkCompiled (blocs c) h).

(** [render], lines 635-637. *)
Definition render (template : jsstring) (payload : JsValue.value) : option (result jsstring) :=
  r ← compile template;
  Some (c ← r; (invoke c (default_payload payload)).1).

(** [renderAsync], lines 639-641: the same call, with a second argument
    that the function ignores. *)
Definition renderAsync (template : jsstring) (payload : JsValue.value)
    : option (result jsstring) :=
  render template payload.

End calls.

(** *** What a template of output expressions renders to *)

Section expected.
Context `{Host} (this : Tangular) (payload : JsValue.value).

(** The text of an object without children: lines 604-611. *)
Definition object_text (o : BlocObject.t) : result jsstring :=
  if BlocObject.isHTML o then Ok (node_to_string (BlocObject.instruction o))
  else JsValue.to_string <$> _processSentence this (BlocObject.instruction o) payload.

Fixpoint texts_of (os : list BlocObject.t) : result jsstring :=
  match os with
  | [] => Ok []
  | o :: os => t ← object_text o; rest ← texts_of os; Ok (t ++ rest)
  end.

(** What a written template of output expressions renders to, before the
    blank lines are removed. *)
Fixpoint rendered (segments : list segment) (trailing : jsstring) : result jsstring :=
  match segments with
  | [] => Ok trailing
  | (text, e) :: segments =>
      v ← _processSentence this (NString (_unspace (_trim e))) payload;
      rest ← rendered segments trailing;
      Ok (text ++ JsValue.to_string v ++ rest)
  end.

End expected.

(** What an output expression renders for a string of the payload: the
    escaped string, and [undefined] for the empty string, which counts as
    missing. *)
Definition shown (s : jsstring) : jsstring :=
  if decide (s = []) then str "undefined" else escape s.

(** ** Lemmas *)

Lemma default_payload_idemp (payload : JsValue.value) :
  default_payload (default_payload payload) = default_payload payload.
Proof. by destruct payload. Qed.

Section flat.
Context `{Host} (this : Tangular) (payload : JsValue.value).

Lemma texts_of_app (os1 os2 : list BlocObject.t) :
  texts_of this payload (os1 ++ os2) =
    s1 ← texts_of this payload os1; s2 ← texts_of this payload os2; Ok (s1 ++ s2).
Proof.
  induction os1 as [|o os1 IH]; cbn [app texts_of].
  - rewrite bind_Ok. destruct (texts_of this payload os2); done.
  - destruct (object_text this payload o) as [t|]; [|done]. rewrite !bind_Ok, IH.
    destruct (texts_of this payload os1) as [s1|]; [|done]. rewrite !bind_Ok.
    destruct (texts_of this payload os2) as [s2|]; [|done]. by rewrite !bind_Ok, app_assoc.
Qed.

Lemma texts_of_text_objects (text : jsstring) : texts_of this payload (text_objects text) = Ok text.
Proof. unfold text_objects. case_decide; subst; [done|]. cbn. by rewrite app_nil_r. Qed.

Lemma texts_of_flat (segments : list segment) (trailing : jsstring) :
  texts_of this payload (flat_objects segments ++ text_objects trailing) =
    rendered this payload segments trailing.
Proof.
  induction segments as [|[text e] segments IH]; cbn [flat_objects rendered app].
  { apply texts_of_text_objects. }
  rewrite <- app_assoc, texts_of_app, texts_of_text_objects, bind_Ok.
  cbn [app texts_of]. rewrite IH. unfold object_text, output_object.
  cbn [BlocObject.isHTML BlocObject.instruction].
  destruct (_processSentence _ _ _) as [v|]; [|done].
  cbn [fmap result_fmap]. rewrite !bind_Ok.
  by destruct (rendered this payload segments trailing).
Qed.

Lemma walk_from_leaves (f : nat → nat) (os : list BlocObject.t)
    (pb : TangularProcessBloc.t) (pr : process_object) :
  Forall (λ o, BlocObject.name o = PK.NONE) os →
  TangularProcessBloc.operator pb = PK.NONE →
  ∃ pr', walk_from this payload (imap (λ i, leaf_bloc (f i)) os) (pb, pr) ∅ =
    ((λ s, (append pb s, pr')) <$> texts_of this payload os, ∅).
Proof.
  intros Hos. revert f pb pr.
  induction Hos as [|o os Ho _ IH]; intros f pb pr Hop.
  { exists pr. cbn. unfold append. destruct pb. by rewrite app_nil_r. }
  cbn [imap]. change (imap _ os) with (imap (λ i, leaf_bloc ((f ∘ S) i)) os).
  rewrite walk_from_cons, walk_bind_unfold, bloc_step_reducer.
  cbn [texts_of]. unfold object_text. destruct (BlocObject.isHTML o) eqn:Hhtml.
  - rewrite reducer_text, instruction_at_empty by done. rewrite bind_Ok.
    destruct (IH (f ∘ S) (append pb (node_to_string (BlocObject.instruction o)))
                (mkProcess PK.NONE (lastReponse pr)) Hop) as [pr' Hpr'].
    exists pr'. cbn [leaf_bloc TangularBloc.instruction]. rewrite Hpr'.
    destruct (texts_of this payload os); [|done]. cbn. unfold append. cbn. by rewrite app_assoc.
  - rewrite reducer_output, instruction_at_empty by done.
    cbn [leaf_bloc TangularBloc.instruction].
    destruct (_processSentence _ _ _) as [v|e]; [|by exists pr].
    destruct (IH (f ∘ S) (append pb (JsValue.to_string v))
                (mkProcess PK.NONE (lastReponse pr)) Hop) as [pr' Hpr'].
    exists pr'. rewrite Hpr'. cbn. destruct (texts_of this payload os); [|done]. cbn.
    unfold append. cbn. by rewrite app_assoc.
Qed.

Lemma processBloc_leaves (f : nat → nat) (os : list BlocObject.t) :
  Forall (λ o, BlocObject.name o = PK.NONE) os →
  _processBloc this (imap (λ i, leaf_bloc (f i)) os) payload ∅ =
    ((λ s, TangularProcessBloc.mk s PK.NONE) <$> texts_of this payload os, ∅).
Proof.
  intros Hos. rewrite processBloc_walk_from.
  destruct (walk_from_leaves f os empty_bloc new_process Hos eq_refl) as [pr' ->].
  by destruct (texts_of this payload os).
Qed.

End flat.

Lemma flat_objects_names (segments : list segment) (trailing : jsstring) :
  Forall (λ o, BlocObject.name o = PK.NONE)
    (flat_objects segments ++ text_objects trailing).
Proof.
  apply Forall_app. split; [|by unfold text_objects; case_decide; repeat constructor].
  induction segments as [|[text e] segments IH]; [done|]. cbn [flat_objects].
  apply Forall_app. split; [by unfold text_objects; case_decide; repeat constructor|].
  by constructor.
Qed.

(** A written template that holds texts and output expressions is
    built into one bloc per text and per expression, in the order of the
    template: a text is a literal bloc, an expression a bloc whose
    instruction is the expression without white space. *)
Lemma build_flat (segments : list segment) (trailing : jsstring) :
  well_written true segments = true → "{"%char ∉ trailing →
  forallb (λ s, is_output s.2) segments = true →
  build (print segments trailing) =
    Some (Ok (imap (λ i, leaf_bloc (S i)) (flat_objects segments ++ text_objects trailing))).
Proof.
  intros Hw Htrailing Hout. unfold build, scan.
  rewrite (scan_from_print segments trailing [] true) by done. cbn zeta.
  unfold _processBuildPrivateKey, build_fuel. rewrite elements_of_length.
  rewrite (build_loop_flat segments trailing [] (enter 0 [])); [|done..|lia].
  cbn [mbind option_bind pushed push_all enter objects blocsObject app length].
  pose proof (reify_all_leaves [BlocObject.mk PK.NONE [] NUndefined false] _
                (flat_objects_leaves segments trailing)) as Hreify.
  cbn [app length] in Hreify. by rewrite Hreify.
Qed.

Lemma compile_flat (segments : list segment) (trailing : jsstring) :
  well_written true segments = true → "{"%char ∉ trailing →
  forallb (λ s, is_output s.2) segments = true →
  compile (print segments trailing) =
    Some (Ok (mkCompiled
      (imap (λ i, leaf_bloc (S i)) (flat_objects segments ++ text_objects trailing)) ∅)).
Proof. intros. unfold compile. by rewrite build_flat. Qed.

(** A call of a compiled template of texts and output expressions. *)
Lemma invoke_flat `{Host} (this : Tangular) (payload : JsValue.value)
    (segments : list segment) (trailing : jsstring) :
  let blocs :=
    imap (λ i, leaf_bloc (S i)) (flat_objects segments ++ text_objects trailing) in
  invoke this (mkCompiled blocs ∅) payload =
    (strip_blank_lines true <$> rendered this (default_payload payload) segments trailing,
     mkCompiled blocs ∅).
Proof.
  unfold invoke. cbn [blocs conditions].
  rewrite processBloc_leaves, texts_of_flat by apply flat_objects_names.
  by destruct (rendered _ _ _ _).
Qed.

Lemma render_flat_eq `{Host} (this : Tangular) (payload : JsValue.value)
    (segments : list segment) (trailing : jsstring) :
  well_written true segments = true → "{"%char ∉ trailing →
  forallb (λ s, is_output s.2) segments = true →
  render this (print segments trailing) payload =
    Some (strip_blank_lines true <$> rendered this (default_payload payload)
                                       segments trailing).
Proof.
  intros Hw Htrailing Hout. unfold render. rewrite compile_flat by done.
  cbn [mbind option_bind]. by rewrite bind_Ok, invoke_flat, default_payload_idemp.
Qed.

(** *** When [compile] returns *)

(** The blocs are read out of the heap whenever the builder returns: the
    other two ways in which [build] could give nothing do not arise. *)
Lemma build_None (template : jsstring) :
  build template = None ↔
  _processBuildPrivateKey (build_fuel (scan template)) template (scan template)
    false 0 [] = None.
Proof.
  unfold build. pose proof (processBuildPrivateKey_heap (build_fuel (scan template))
    template (scan template) false 0 []) as Hwf.
  pose proof (build_loop_top (build_fuel (scan template)) template (enter 0 [])
    (scan template)) as Htop. unfold _processBuildPrivateKey in *.
  destruct (build_loop _ _ _ _ _) as [[[[[bs|li bs b] h] els]|e]|]; cbn; [|..|done].
  - destruct (Hwf _ eq_refl) as [Hc Hbs].
    destruct (reify_all_closed _ _ _ Hc Hbs) as [blocs ->]. by split.
  - by destruct (Htop li bs b h els).
  - by split.
Qed.

(** *** Templates that are written out *)

(** The blocs of a template that is written out are computed. *)
Ltac build_template :=
  unfold compile;
  match goal with
  | |- context [build ?t] =>
      let c := eval vm_compute in (build t) in
      change (build t) with c; cbn [mbind option_bind]; rewrite ?bind_Ok
  end.

(** The instruction of a bloc in a store that was written at other
    references only. *)
Ltac instruction_at_bloc :=
  rewrite ?instruction_at_insert_ne by done; rewrite instruction_at_empty;
  cbn [TangularBloc.instruction TangularBloc.children TangularBloc.ref].

Lemma resolves_own (k : jsstring) (v : JsValue.value) :
  "."%char ∉ k →
  resolves k (VObject [(k, v)]) = if to_boolean v then Some v else None.
Proof.
  intros Hk. unfold resolves, deep_object. rewrite js_split_plain by done.
  cbn. rewrite decide_True by done. done.
Qed.

(** *** A loop over strings *)

Section loops.
Context `{Host}.

(** The expression [x] in the payload of an iteration over [xs]. *)
Lemma output_in_scope (xs : JsValue.value) (s n : jsstring) :
  JsValue.to_string <$> _processSentence new_Tangular (NString (str "x"))
    (scope (VObject [(str "xs", xs)]) (str "x") (VString s) n) =
  Ok (shown s).
Proof.
  destruct s as [|c s]; [by vm_compute|].
  assert (scope (VObject [(str "xs", xs)]) (str "x") (VString (c :: s)) n =
          VObject [(str "xs", xs); (str "x", VString (c :: s));
                   (str "$index", VString n)]) as -> by (vm_compute; reflexivity).
  rewrite processSentence_path;
    [|by_compute|by_compute|vm_compute; reflexivity|reflexivity].
  assert (resolves (str "x")
            (VObject [(str "xs", xs); (str "x", VString (c :: s));
                      (str "$index", VString n)]) = Some (VString (c :: s))) as ->
    by (vm_compute; reflexivity).
  by rewrite encode_string_eq.
Qed.

(** The body [<{{x}}>] in the payload of an iteration. *)
Lemma body_in_scope (xs : JsValue.value) (s n : jsstring) :
  _processBloc new_Tangular
    (imap (λ i, leaf_bloc (2 + i))
       [text_object (str "<"); output_object (str "x"); text_object (str ">")])
    (scope (VObject [(str "xs", xs)]) (str "x") (VString s) n) ∅ =
  (Ok (TangularProcessBloc.mk (str "<" ++ shown s ++ str ">") PK.NONE), ∅).
Proof.
  rewrite processBloc_leaves by by repeat constructor.
  cbn [texts_of object_text text_object output_object BlocObject.isHTML
       BlocObject.instruction node_to_string].
  change (_unspace (str "x")) with (str "x"). rewrite output_in_scope.
  by rewrite !bind_Ok.
Qed.

(** The outputs of the iterations, none of which ends with a signal. *)
Lemma loop_outputs (items : list jsstring) :
  concat (TangularProcessBloc.template <$>
            upto_break (imap (λ (_ : nat) item, TangularProcessBloc.mk
                          (str "<" ++ shown (JsValue.to_string item) ++ str ">") PK.NONE)
                          (VString <$> items))) =
  concat ((λ s, str "<" ++ shown s ++ str ">") <$> items).
Proof.
  match goal with |- context [imap (λ _, ?g) ?l] =>
    change (imap (λ _, g) l) with (imap (const g) l) end.
  rewrite imap_const, upto_break_all, <- !list_fmap_compose; [done|].
  by apply Forall_fmap, Forall_true.
Qed.

End loops.

(** ** Properties *)

(** C1: a written template that holds texts and output expressions
    renders to its texts, each expression replaced by the text of what it
    evaluates to, with the blank lines removed; it throws what the first
    expression that throws does. *)
Theorem render_flat `{Host} (this : Tangular) (payload : JsValue.value)
    (segments : list segment) (trailing : jsstring) :
  well_written true segments = true → "{"%char ∉ trailing →
  forallb (λ s, is_output s.2) segments = true →
  render this (print segments trailing) payload =
    Some (strip_blank_lines true <$> rendered this (default_payload payload)
                                       segments trailing).
Proof. apply render_flat_eq. Qed.

Lemma render_flat_witness :
  render (H := example_host) new_Tangular (str "Hello {{ name }}, {{name | raw}}!")
    (VObject [(str "name", VString (str "<b>"))]) =
  Some (Ok (str "Hello &lt;b&gt;, <b>!")).
Proof.
  refine (render_flat (H := example_host) new_Tangular
            (VObject [(str "name", VString (str "<b>"))])
            [(str "Hello ", str " name "); (str ", ", str "name | raw")] (str "!")
            eq_refl _ eq_refl).
  by_compute.
Defined.

(** C18: a template without an opening brace renders to itself exactly
    when it has no line that starts with white space reaching a line
    terminator; otherwise the text rendered is shorter than the
    template. *)
Theorem render_text_roundtrip `{Host} (this : Tangular) (payload : JsValue.value)
    (template : jsstring) :
  "{"%char ∉ template →
  render this template payload = Some (Ok template) ↔ blank_free true template = true.
Proof.
  intros Htemplate. rewrite <- strip_blank_lines_fixed.
  rewrite (render_flat_eq this payload [] template) by done. cbn.
  split; [by intros [= ?]|by intros ->].
Qed.

Lemma render_text_roundtrip_witness :
  render (H := example_host) new_Tangular (str "<p>Hello</p>") VUndefined
  = Some (Ok (str "<p>Hello</p>")).
Proof.
  apply (render_text_roundtrip (H := example_host) new_Tangular VUndefined
           (str "<p>Hello</p>")); by_compute.
Defined.

(** C5: an output expression that is a path to a string renders to the
    escaped string: between the text before it and the text after it, the
    output holds none of the characters that [encode] replaces. *)
Theorem render_escapes `{Host} (this : Tangular) (payload : JsValue.value)
    (text e trailing path v : jsstring) :
  is_text text = true → is_expression e = true → "{"%char ∉ trailing →
  is_output e = true → _unspace (_trim e) = path →
  is_path path → path ≠ str "raw" →
  resolves path (default_payload payload) = Some (VString v) →
  resolves (str "encode") (default_payload payload) = None →
  _helpers this !! str "encode" = Some encode →
  render this (text ++ directive e ++ trailing) payload =
    Some (Ok (strip_blank_lines true (text ++ escape v ++ trailing)))
  ∧ escaped (escape v) = true.
Proof.
  intros Htext He Htrailing Hout Hpath Hp Hraw Hv Hshadow Henc.
  split; [|apply escaped_escape].
  rewrite (render_flat_eq this payload [(text, e)] trailing).
  - cbn [rendered print foldr]. rewrite Hpath, processSentence_path, Hv by done.
    by rewrite encode_string_eq, !bind_Ok.
  - cbn [well_written]. by rewrite Htext, He.
  - done.
  - cbn [forallb snd]. by rewrite Hout.
Qed.

Lemma render_escapes_witness :
  render (H := example_host) new_Tangular (str "<p>{{ user.name }}</p>")
    (VObject [(str "user", VObject [(str "name", VString (str "<script>"))])]) =
  Some (Ok (str "<p>&lt;script&gt;</p>"))
  ∧ escaped (str "&lt;script&gt;") = true.
Proof.
  refine (render_escapes (H := example_host) new_Tangular
            (VObject [(str "user", VObject [(str "name", VString (str "<script>"))])])
            (str "<p>") (str " user.name ") (str "</p>") (str "user.name")
            (str "<script>") eq_refl eq_refl _ eq_refl eq_refl _ _ eq_refl eq_refl
            eq_refl); by_compute.
Defined.

(** C10: [compile] fails to return exactly when [_processBuildPrivateKey]
    does, for every template: a call at the top never returns the record
    of a nested call, and the blocs that it returns are read out of the
    heap as trees, the blocs stored twice and those changed after they
    were stored included. *)
Theorem compile_None (template : jsstring) :
  compile template = None ↔
  _processBuildPrivateKey (build_fuel (scan template)) template (scan template)
    false 0 [] = None.
Proof.
  rewrite <- build_None. unfold compile. by destruct (build template).
Qed.

(** C8: [compile] returns a function, or throws, for every template in
    which no sentence ends in an opening parenthesis, whatever its
    directives and however they are nested or left open. *)
Theorem compile_returns (template : jsstring) :
  Forall (λ el, returns_header el = true) (scan template) →
  is_Some (compile template).
Proof.
  intros Hels. unfold compile. destruct (build template) eqn:Hbuild; [done|].
  apply build_None in Hbuild.
  destruct (returns_within_is_Some (scan template)
    (build_loop (build_fuel (scan template)) template false (enter 0 []) (scan template)))
    as [r Hr]; [apply build_loop_returns; [done|unfold build_fuel; lia]|].
  unfold _processBuildPrivateKey in Hbuild. by rewrite Hbuild in Hr.
Qed.

Lemma compile_returns_witness :
  is_Some (compile (str "{{for x in xs}}{{if (a)}}{{x}}{{else if b}}-{{fi}}{{end}}")).
Proof. apply compile_returns. by_compute. Defined.

Section scenarios.
Context `{Host}.

(** C14: the right side of a comparison is never read as a number: in
    [{{if a===1}}X{{else if a===2}}Y{{else}}Z{{fi}}] the names [1] and [2]
    resolve to nothing, so that the template renders [Z] for every truthy
    value of [a], the numbers 1 and 2 included, and [X] for every falsy
    one. *)
Theorem render_number_literal (v : JsValue.value) :
  render new_Tangular (str "{{if a===1}}X{{else if a===2}}Y{{else}}Z{{fi}}")
    (VObject [(str "a", v)]) =
  Some (Ok (if to_boolean v then str "Z" else str "X")).
Proof.
  unfold render. build_template. unfold invoke. cbn [blocs conditions default_payload].
  match goal with |- context [_processBloc _ [?b1; ?b2; ?b3] _ _] =>
    rewrite (processBloc_chain new_Tangular _ [b1; b2] b3) by (by repeat constructor)
  end.
  cbn [first_true].
  rewrite walk_bind_unfold, condition_of_leaf by by instruction_at_bloc.
  instruction_at_bloc.
  rewrite processInstruction_unresolved_right by (by_compute || reflexivity).
  rewrite resolves_own by by_compute.
  destruct (to_boolean v) eqn:Hv.
  - rewrite bool_decide_eq_false_2 by done.
    rewrite walk_bind_unfold, condition_of_leaf by by instruction_at_bloc.
    instruction_at_bloc.
    rewrite processInstruction_unresolved_right by (by_compute || reflexivity).
    rewrite resolves_own, Hv, bool_decide_eq_false_2 by (done || by_compute).
    by rewrite processBloc_literals by by repeat constructor.
  - rewrite bool_decide_eq_true_2 by done.
    by rewrite processBloc_literals by by repeat constructor.
Qed.

(** C15: an [if] that is not nested loses its bloc when [else] is read:
    [{{if c}}A{{else}}B{{fi}}] renders [B] for every payload, whatever [c]
    is in it. *)
Theorem render_else_drops_if (this : Tangular) (payload : JsValue.value) :
  render this (str "{{if c}}A{{else}}B{{fi}}") payload = Some (Ok (str "B")).
Proof.
  unfold render. build_template. unfold invoke. cbn [blocs conditions].
  match goal with |- context [_processBloc _ [?b] _ _] =>
    rewrite (processBloc_chain this _ [] b) by (by repeat constructor)
  end.
  cbn [first_true TangularBloc.children].
  by rewrite processBloc_literals by by repeat constructor.
Qed.

(** C16: a [break] written directly in the body of a loop that is not
    nested is built before the loop and beside it: the loop is never
    walked, and [{{foreach x in items}}a{{break}}b{{end}}] renders the empty
    string for every payload. *)
Theorem render_break_outside (this : Tangular) (payload : JsValue.value) :
  render this (str "{{foreach x in items}}a{{break}}b{{end}}") payload = Some (Ok []).
Proof.
  unfold render. build_template. unfold invoke. cbn [blocs conditions].
  rewrite processBloc_walk_from, walk_from_cons, walk_bind_unfold, bloc_step_reducer.
  rewrite reducer_marker by (by left || done).
  by rewrite walk_from_signalled.
Qed.

(** C13: a loop over an array of strings renders its body once per
    string, in order: [{{foreach x in xs}}<{{x}}>{{end}}] renders, for
    every array [xs] of strings, the strings escaped, each between [<] and
    [>], with [undefined] in the place of an empty string, and the blank
    lines of the whole removed. *)
Theorem render_foreach (items : list jsstring) :
  render new_Tangular (str "{{foreach x in xs}}<{{x}}>{{end}}")
    (VObject [(str "xs", VArray (VString <$> items))]) =
  Some (Ok (strip_blank_lines true
              (concat ((λ s, str "<" ++ shown s ++ str ">") <$> items)))).
Proof.
  unfold render. build_template. unfold invoke. cbn [blocs conditions default_payload].
  rewrite processBloc_singleton, reducer_each by (by left || done).
  rewrite walk_bind_unfold.
  erewrite (processEach_seq _ _ _ (str "x") (str "xs") 0 (VString <$> items)
              (λ _ item, TangularProcessBloc.mk
                 (str "<" ++ shown (JsValue.to_string item) ++ str ">") PK.NONE)).
  - by rewrite loop_outputs.
  - by rewrite instruction_at_empty.
  - vm_compute. reflexivity.
  - intros i item (s & -> & _)%list_lookup_fmap_Some. apply body_in_scope.
Qed.

(** C12: a compiled template keeps the conditions that its calls change:
    the function compiled from [{{if (a&b)}}x{{fi}}], whose header is in
    parentheses, throws a [TypeError] at its second call, whatever the
    payloads of the two calls are. *)
Theorem compiled_renders_once (this : Tangular) (payload payload' : JsValue.value) :
  ∃ c what,
    compile (str "{{if (a&b)}}x{{fi}}") = Some (Ok c)
    ∧ (invoke this (invoke this c payload).2 payload').1 = Throw (TypeError what).
Proof.
  build_template. eexists _.
  match goal with |- context [mkCompiled [?b] ∅] =>
    epose proof (processBloc_wrapper_second_render this b _ _
      (default_payload payload) (default_payload payload') ∅ eq_refl
      (instruction_at_empty b)) as [what Hwhat]
  end.
  exists what. split; [done|]. unfold invoke at 1. cbn [blocs conditions].
  unfold invoke. cbn [blocs conditions].
  destruct (_processBloc this _ (default_payload payload) ∅) as [r h] eqn:Hfirst.
  cbn [snd fst blocs conditions] in *.
  destruct (_processBloc this _ (default_payload payload') h) as [r' h'].
  cbn in *. by rewrite Hwhat.
Qed.

End scenarios.
